(** * Shopping-agent: a shallow embedding of the agent queue, the tool
      wrapper, the workflow models, the alert rules and the NLP confidence
      score, with the properties the specification states about them.

    Python objects are modelled by records, the mutable attributes of an
    object by explicit state passing ([f : state -> result * state]),
    dictionaries whose iteration order is irrelevant by [gmap], Python
    sets by [gset], and dictionaries whose iteration order is observable
    by insertion-ordered association lists.  Clock readings
    ([datetime.now()]) are inputs of the functions that read the clock, in
    microseconds (the resolution of [datetime]).  Python floats are IEEE 754
    binary64 numbers: [spec_float] with the operations of [SpecFloat] at
    precision 53.

    The modules from [WorkflowEdit] to [StepResults] embed further methods
    of the same classes and the planner of the manager agent; the modules
    from [WorkflowEditSpec] to [StepResultsSpec] state what that code
    does. *)

From Stdlib Require Import ZArith Lia List Bool String Ascii.
From Stdlib Require Import Floats.SpecFloat.
From Stdlib Require Import Relations.Relation_Operators Sorting.Sorted.
From stdpp Require Import base tactics option list gmap strings sets.

Local Open Scope Z_scope.

(* ===================================================================== *)
(** * ai/agent_nlp_handler.py: task descriptions                          *)
(* ===================================================================== *)

Module Task.

Inductive TaskType : Type :=
| DOCUMENT_SUMMARY | DATA_ANALYSIS | WORKFLOW_AUTOMATION
| CUSTOMER_SUPPORT | CODE_ASSISTANCE | GENERAL_CHAT.

(** [AgentTask]: [dependencies] defaults to [None] in the dataclass, so
    it is an optional list; the free-form [parameters] dictionary plays
    no role in queueing and is left out. *)
Record AgentTask : Type := mkTask {
  task_id : string;
  task_type : TaskType;
  description : string;
  priority : Z;
  dependencies : option (list string)
}.

End Task.

(* ===================================================================== *)
(** * agents/base_agent.py                                                *)
(* ===================================================================== *)

Module Agent.
Import Task.

Inductive AgentStatus : Type := IDLE | BUSY | ERROR | OFFLINE.

Inductive TaskStatus : Type :=
| PENDING | IN_PROGRESS | COMPLETED | FAILED | CANCELLED.

Definition TaskStatus_eqb (a b : TaskStatus) : bool :=
  match a, b with
  | PENDING, PENDING | IN_PROGRESS, IN_PROGRESS | COMPLETED, COMPLETED
  | FAILED, FAILED | CANCELLED, CANCELLED => true
  | _, _ => false
  end.

Definition AgentStatus_eqb (a b : AgentStatus) : bool :=
  match a, b with
  | IDLE, IDLE | BUSY, BUSY | ERROR, ERROR | OFFLINE, OFFLINE => true
  | _, _ => false
  end.

(** [TaskExecution], without its timestamps and result payload. *)
Record TaskExecution : Type := mkExec {
  exec_task_id : string;
  exec_agent_id : string;
  exec_status : TaskStatus;
  exec_progress_done : bool
}.

(** The attributes of [BaseAgent] that task handling reads or writes. *)
Record BaseAgent : Type := mkAgent {
  agent_id : string;
  status : AgentStatus;
  current_tasks : gmap string TaskExecution;
  completed_tasks : list TaskExecution;
  task_queue : list AgentTask;
  tasks_completed : Z;
  tasks_failed : Z
}.

Definition with_task_queue (a : BaseAgent) (q : list AgentTask) : BaseAgent :=
  mkAgent (agent_id a) (status a) (current_tasks a) (completed_tasks a) q
          (tasks_completed a) (tasks_failed a).

(** [__init__]: a fresh agent is idle with empty collections. *)
Definition init (aid : string) : BaseAgent :=
  mkAgent aid IDLE ∅ [] [] 0 0.

(** [_is_dependency_satisfied]: [any(...)] over [completed_tasks]. *)
Definition _is_dependency_satisfied (a : BaseAgent) (dependency_id : string) : bool :=
  existsb (fun t => String.eqb (exec_task_id t) dependency_id
                    && TaskStatus_eqb (exec_status t) COMPLETED)
          (completed_tasks a).

(** The [for i, existing_task in enumerate(self.task_queue)] loop of
    [add_task] with its [insert]/[break], followed by the [append] taken
    when nothing was inserted. *)
Fixpoint insert_by_priority (task : AgentTask) (queue : list AgentTask)
  : list AgentTask :=
  match queue with
  | [] => [task]
  | existing_task :: rest =>
      if priority existing_task <? priority task
      then task :: existing_task :: rest
      else existing_task :: insert_by_priority task rest
  end.

(** The dependency loop of [add_task]: [true] when some listed
    dependency is not satisfied (the early [return False]). *)
Definition has_unmet_dependency (a : BaseAgent) (task : AgentTask) : bool :=
  match dependencies task with
  | None => false
  | Some deps => negb (forallb (_is_dependency_satisfied a) deps)
  end.

(** [add_task]: the returned flag and the agent afterwards. *)
Definition add_task (a : BaseAgent) (task : AgentTask) : bool * BaseAgent :=
  if has_unmet_dependency a task then (false, a)
  else (true, with_task_queue a (insert_by_priority task (task_queue a))).

(** What [await self.process_task(task)] does in [_process_tasks]: it
    returns, it raises an [Exception], or an exception that is no
    [Exception] leaves it, as the [asyncio.CancelledError] that [stop]
    throws into the main loop. *)
Inductive Outcome : Type := Returned | Raised | Interrupted.

(** The status and the progress flag of the execution record when the
    [finally] block files it: the [except Exception] clause does not see
    an interruption, so the record stays as it was created. *)
Definition status_after (outcome : Outcome) : TaskStatus :=
  match outcome with
  | Returned => COMPLETED
  | Raised => FAILED
  | Interrupted => IN_PROGRESS
  end.

Definition progress_after (outcome : Outcome) : bool :=
  match outcome with
  | Returned => true
  | Raised | Interrupted => false
  end.

(** [_process_tasks]: one pass of the main loop over the task queue.
    [process_task] is the abstract method, given by its outcome.  The
    value is the agent that the pass leaves behind; after [Interrupted]
    the exception goes on to the caller once the [finally] block has
    run. *)
Definition _process_tasks (process_task : AgentTask -> Outcome) (a : BaseAgent)
  : BaseAgent :=
  if negb (AgentStatus_eqb (status a) IDLE) then a
  else match task_queue a with
       | [] => a
       | task :: rest =>
           let outcome := process_task task in
           let execution :=
             mkExec (task_id task) (agent_id a)
                    (status_after outcome) (progress_after outcome) in
           mkAgent (agent_id a) IDLE
                   (delete (task_id task)
                      (<[task_id task := execution]> (current_tasks a)))
                   (completed_tasks a ++ [execution])
                   rest
                   (match outcome with
                    | Returned => tasks_completed a + 1
                    | Raised | Interrupted => tasks_completed a
                    end)
                   (match outcome with
                    | Raised => tasks_failed a + 1
                    | Returned | Interrupted => tasks_failed a
                    end)
       end.

(** [n] passes of [_process_tasks], one after the other.  An interrupted
    pass ends the run of the main loop that made it; the passes after it
    are those of the loop that [start] begins again. *)
Fixpoint run_loop (process_task : AgentTask -> Outcome) (n : nat) (a : BaseAgent)
  : BaseAgent :=
  match n with
  | O => a
  | S k => run_loop process_task k (_process_tasks process_task a)
  end.

(** A sequence of [add_task] calls; the flags are collected in order. *)
Fixpoint add_tasks (a : BaseAgent) (tasks : list AgentTask)
  : list bool * BaseAgent :=
  match tasks with
  | [] => ([], a)
  | t :: rest =>
      let '(ok, a1) := add_task a t in
      let '(oks, a2) := add_tasks a1 rest in
      (ok :: oks, a2)
  end.

(** The queue order: priorities never increase from front to back. *)
Definition prio_ge (x y : AgentTask) : Prop := priority y <= priority x.

Definition has_priority (p : Z) (t : AgentTask) : bool := priority t =? p.

Definition execution_of (process_task : AgentTask -> Outcome) (aid : string)
           (task : AgentTask) : TaskExecution :=
  mkExec (task_id task) aid
         (status_after (process_task task)) (progress_after (process_task task)).

(** The five tasks of the specification's example. *)
Definition example_task (id : string) (p : Z) : AgentTask :=
  mkTask id GENERAL_CHAT "" p None.

Definition example_tasks : list AgentTask :=
  [example_task "t1" 1; example_task "t2" 5; example_task "t3" 3;
   example_task "t4" 5; example_task "t5" 2].

(** The order in which the main loop starts the tasks queued by
    [add_tasks]: the ids of the executions it appends to
    [completed_tasks]. *)
Definition dequeue_order (process_task : AgentTask -> Outcome) (a : BaseAgent)
  : list string :=
  map exec_task_id
      (drop (length (completed_tasks a))
            (completed_tasks
               (run_loop process_task (length (task_queue a)) a))).

Definition gate_agent : BaseAgent :=
  mkAgent "agent" IDLE ∅ [mkExec "X" "agent" COMPLETED true] [] 1 0.

Definition gate_task : AgentTask :=
  mkTask "Y" GENERAL_CHAT "" 1 (Some ["X"%string]).

End Agent.

(* ===================================================================== *)
(** * tools/base_tool.py                                                  *)
(* ===================================================================== *)

Module Tool.

Inductive ToolStatus : Type :=
| IDLE | RUNNING | COMPLETED | FAILED | TIMEOUT | CANCELLED.

(** The texts built by the f-strings of [run], kept as data. *)
Inductive Message : Type :=
| NoMessage
| ToolMessage (text : string)
| ValidationFailed (errors : list string)
| RateLimitExceeded (per_minute : Z)
| ExecutionTimeout (seconds : Z)
| ExecutionCancelled
| ExceptionText (text : string).

(** [ToolResult]; [data] stands for the payload, [execution_time] is in
    microseconds ([total_seconds()] of a [timedelta]). *)
Record ToolResult : Type := mkResult {
  success : bool;
  data : string;
  error_message : Message;
  execution_time : Z
}.

Definition error_result (error_message : Message) (execution_time : Z)
  : ToolResult :=
  mkResult false "" error_message execution_time.

Record ToolConfig : Type := mkConfig {
  timeout_seconds : Z;
  max_retries : Z;
  rate_limit_per_minute : Z;
  cache_enabled : bool;
  cache_ttl_seconds : Z
}.

(** [ToolConfig()] with the defaults of the dataclass. *)
Definition default_config : ToolConfig := mkConfig 30 3 60 true 300.

(** The attributes of [BaseTool].  [execute_calls] is not an attribute of
    the class: it counts the times [run] reaches the abstract [execute],
    so that statements can speak about them. *)
Record BaseTool : Type := mkTool {
  tool_name : string;
  config : ToolConfig;
  status : ToolStatus;
  last_used : option Z;
  execution_count : Z;
  success_count : Z;
  failure_count : Z;
  total_execution_time : Z;
  cache : gmap string ToolResult;
  cache_timestamps : gmap string Z;
  rate_limit_timestamps : list Z;
  execute_calls : nat
}.

(** [__init__]. *)
Definition init (name : string) (cfg : ToolConfig) : BaseTool :=
  mkTool name cfg IDLE None 0 0 0 0 ∅ ∅ [] 0.

(** What awaiting [execute] under [asyncio.wait_for] does, when [run]
    gets that far: it returns a result, the timeout expires, the task is
    cancelled, or another exception escapes. *)
Inductive ExecOutcome : Type :=
| Returns (result : ToolResult)
| TimesOut
| IsCancelled
| Raises (text : string).

(** The readings of [datetime.now()] during one call of [run], in the
    order in which the code takes them: [start_time], [now] of
    [_check_rate_limit], the reading of [_get_from_cache], the reading
    that ends the measured execution (also used on the exception paths),
    and the reading of [_save_to_cache]. *)
Record Clock : Type := mkClock {
  t_start : Z;
  t_rate : Z;
  t_lookup : Z;
  t_end : Z;
  t_save : Z
}.

Definition microseconds (seconds : Z) : Z := seconds * 1000000.

Definition set_status (t : BaseTool) (s : ToolStatus) : BaseTool :=
  mkTool (tool_name t) (config t) s (last_used t) (execution_count t)
         (success_count t) (failure_count t) (total_execution_time t)
         (cache t) (cache_timestamps t) (rate_limit_timestamps t)
         (execute_calls t).

Definition set_caches (t : BaseTool) (c : gmap string ToolResult)
           (ts : gmap string Z) : BaseTool :=
  mkTool (tool_name t) (config t) (status t) (last_used t) (execution_count t)
         (success_count t) (failure_count t) (total_execution_time t)
         c ts (rate_limit_timestamps t) (execute_calls t).

Definition set_rate_limit_timestamps (t : BaseTool) (l : list Z) : BaseTool :=
  mkTool (tool_name t) (config t) (status t) (last_used t) (execution_count t)
         (success_count t) (failure_count t) (total_execution_time t)
         (cache t) (cache_timestamps t) l (execute_calls t).

(** The first two assignments of [run]. *)
Definition started (t : BaseTool) (start_time : Z) : BaseTool :=
  mkTool (tool_name t) (config t) RUNNING (Some start_time)
         (execution_count t) (success_count t) (failure_count t)
         (total_execution_time t)
         (cache t) (cache_timestamps t) (rate_limit_timestamps t)
         (execute_calls t).

Definition add_failure (t : BaseTool) : BaseTool :=
  mkTool (tool_name t) (config t) (status t) (last_used t) (execution_count t)
         (success_count t) (failure_count t + 1) (total_execution_time t)
         (cache t) (cache_timestamps t) (rate_limit_timestamps t)
         (execute_calls t).

(** [_get_from_cache]: the looked-up result and the tool afterwards (an
    expired entry is deleted). *)
Definition _get_from_cache (t : BaseTool) (cache_key : string) (now : Z)
  : option ToolResult * BaseTool :=
  if negb (cache_enabled (config t)) then (None, t)
  else match cache t !! cache_key with
       | None => (None, t)
       | Some cached =>
           match cache_timestamps t !! cache_key with
           | Some timestamp =>
               if microseconds (cache_ttl_seconds (config t)) <? now - timestamp
               then (None, set_caches t (delete cache_key (cache t))
                                        (delete cache_key (cache_timestamps t)))
               else (Some cached, t)
           | None => (Some cached, t)
           end
       end.

(** [_save_to_cache]. *)
Definition _save_to_cache (t : BaseTool) (cache_key : string)
           (result : ToolResult) (now : Z) : BaseTool :=
  if negb (cache_enabled (config t)) || negb (success result) then t
  else set_caches t (<[cache_key := result]> (cache t))
                    (<[cache_key := now]> (cache_timestamps t)).

(** [_check_rate_limit]. *)
Definition _check_rate_limit (t : BaseTool) (now : Z) : bool * BaseTool :=
  let cutoff := now - microseconds 60 in
  let kept := List.filter (fun ts => cutoff <? ts) (rate_limit_timestamps t) in
  if rate_limit_per_minute (config t) <=? Z.of_nat (length kept)
  then (false, set_rate_limit_timestamps t kept)
  else (true, set_rate_limit_timestamps t (kept ++ [now])).

Section Run.

(** What a concrete tool class fixes: the type of the keyword arguments,
    [validate_parameters] (the errors found against its schema) and
    [_generate_cache_key], whose [json.dumps] raises on arguments that
    cannot be serialised ([None] here). *)
Variable Params : Type.
Variable validate_parameters : Params -> list string.
Variable _generate_cache_key : string -> Params -> option string.

(** The three [except] clauses that count a failure or report a
    cancellation. *)
Definition on_exception (t : BaseTool) (clock : Clock) (m : Message)
  : ToolResult * BaseTool :=
  (error_result m (t_end clock - t_start clock),
   add_failure (set_status t FAILED)).

Definition on_timeout (t : BaseTool) (clock : Clock) : ToolResult * BaseTool :=
  (error_result (ExecutionTimeout (timeout_seconds (config t)))
                (t_end clock - t_start clock),
   add_failure (set_status t TIMEOUT)).

Definition on_cancelled (t : BaseTool) (clock : Clock) : ToolResult * BaseTool :=
  (error_result ExecutionCancelled (t_end clock - t_start clock),
   set_status t CANCELLED).

(** The statements of [run] after [execute] has returned [result]. *)
Definition record_result (t : BaseTool) (cache_key : string)
           (result : ToolResult) (clock : Clock) : ToolResult * BaseTool :=
  let execution_time := t_end clock - t_start clock in
  let result :=
    mkResult (success result) (data result) (error_message result)
             execution_time in
  let t :=
    mkTool (tool_name t) (config t) (status t) (last_used t)
           (execution_count t + 1) (success_count t) (failure_count t)
           (total_execution_time t + execution_time)
           (cache t) (cache_timestamps t) (rate_limit_timestamps t)
           (execute_calls t) in
  if success result then
    let t :=
      mkTool (tool_name t) (config t) COMPLETED (last_used t)
             (execution_count t) (success_count t + 1) (failure_count t)
             (total_execution_time t)
             (cache t) (cache_timestamps t) (rate_limit_timestamps t)
             (execute_calls t) in
    (result, _save_to_cache t cache_key result (t_save clock))
  else
    (result, add_failure (set_status t FAILED)).

(** [run]. *)
Definition run (t : BaseTool) (kwargs : Params) (clock : Clock)
           (outcome : ExecOutcome) : ToolResult * BaseTool :=
  let t := started t (t_start clock) in
  match validate_parameters kwargs with
  | _ :: _ as validation_errors =>
      on_exception t clock (ValidationFailed validation_errors)
  | [] =>
      let '(allowed, t) := _check_rate_limit t (t_rate clock) in
      if negb allowed then
        on_exception t clock
          (RateLimitExceeded (rate_limit_per_minute (config t)))
      else
        match _generate_cache_key (tool_name t) kwargs with
        | None => on_exception t clock (ExceptionText "not JSON serializable")
        | Some cache_key =>
            let '(cached_result, t) :=
              _get_from_cache t cache_key (t_lookup clock) in
            match cached_result with
            | Some cached => (cached, set_status t COMPLETED)
            | None =>
                let t :=
                  mkTool (tool_name t) (config t) (status t) (last_used t)
                         (execution_count t) (success_count t)
                         (failure_count t) (total_execution_time t)
                         (cache t) (cache_timestamps t)
                         (rate_limit_timestamps t) (S (execute_calls t)) in
                match outcome with
                | Returns result => record_result t cache_key result clock
                | TimesOut => on_timeout t clock
                | IsCancelled => on_cancelled t clock
                | Raises text => on_exception t clock (ExceptionText text)
                end
            end
        end
  end.

(** One call of [run] as seen from outside: arguments, clock readings and
    the behaviour of [execute]. *)
Record Call : Type := mkCall {
  call_kwargs : Params;
  call_clock : Clock;
  call_outcome : ExecOutcome
}.

(** A sequence of calls of [run] on one tool. *)
Fixpoint run_calls (t : BaseTool) (calls : list Call) : BaseTool :=
  match calls with
  | [] => t
  | c :: rest =>
      run_calls (snd (run t (call_kwargs c) (call_clock c) (call_outcome c)))
                rest
  end.

(** How far a call of [run] gets. *)
Inductive Path : Type :=
| InvalidParameters | RateLimited | NoCacheKey | CacheHit | Executed.

Definition path (t : BaseTool) (kwargs : Params) (clock : Clock) : Path :=
  let t := started t (t_start clock) in
  match validate_parameters kwargs with
  | _ :: _ => InvalidParameters
  | [] =>
      let '(allowed, t) := _check_rate_limit t (t_rate clock) in
      if negb allowed then RateLimited
      else match _generate_cache_key (tool_name t) kwargs with
           | None => NoCacheKey
           | Some cache_key =>
               match fst (_get_from_cache t cache_key (t_lookup clock)) with
               | Some _ => CacheHit
               | None => Executed
               end
           end
  end.

End Run.

(** The relation between the three counters reported by
    [get_statistics]. *)
Definition counters_ok (t : BaseTool) : Prop :=
  success_count t <= execution_count t
  /\ execution_count t <= success_count t + failure_count t.

(** The three counters as a triple. *)
Definition counters (t : BaseTool) : Z * Z * Z :=
  (execution_count t, success_count t, failure_count t).

(** A tool whose arguments are the unit value, always valid, with the tool
    name as cache key; one call per minute is allowed. *)
Definition strict_config : ToolConfig := mkConfig 30 3 1 true 300.

Definition unit_run : BaseTool -> unit -> Clock -> ExecOutcome -> ToolResult * BaseTool :=
  run unit (fun _ => []) (fun name _ => Some name).

Definition unit_path : BaseTool -> unit -> Clock -> Path :=
  path unit (fun _ => []) (fun name _ => Some name).

Definition ok_result : ToolResult := mkResult true "payload" NoMessage 0.

(** Two calls ten seconds apart, each taking one millisecond. *)
Definition first_clock : Clock := mkClock 0 0 0 1000 1000.
Definition second_clock : Clock :=
  mkClock 10000000 10000000 10000000 10001000 10001000.

End Tool.

(* ===================================================================== *)
(** * Insertion-ordered dictionaries                                      *)
(* ===================================================================== *)

(** A Python [dict] with string keys, where the order of iteration is
    observable: an association list in order of first insertion.  A lookup
    of a missing key is [None] (the [KeyError] of [d[k]]). *)
Module Dict.

Section Dict.
Context {V : Type}.

Definition dict_get (k : string) (d : list (string * V)) : option V :=
  snd <$> List.find (fun kv => String.eqb (fst kv) k) d.

(** [d[k] = v]: replaces the value in place, or appends a new key. *)
Fixpoint dict_set (k : string) (v : V) (d : list (string * V))
  : list (string * V) :=
  match d with
  | [] => [(k, v)]
  | (k', v') :: rest =>
      if String.eqb k' k then (k', v) :: rest
      else (k', v') :: dict_set k v rest
  end.

Definition dict_keys (d : list (string * V)) : list string := map fst d.

End Dict.

End Dict.

(* ===================================================================== *)
(** * workflow/workflow_models.py                                         *)
(* ===================================================================== *)

Module Workflow.
Import Dict.

Inductive WorkflowStatus : Type :=
| DRAFT | ACTIVE | RUNNING | COMPLETED | FAILED | PAUSED | CANCELLED | ARCHIVED.

(** [WorkflowStep], with the attributes that validation and ordering
    read. *)
Record WorkflowStep : Type := mkStep {
  step_id : string;
  step_name : string;
  dependencies : list string
}.

(** [WorkflowVariable]; a [value] of [None] is Python's [None]. *)
Record WorkflowVariable : Type := mkVariable {
  var_name : string;
  var_value : option string;
  var_required : bool
}.

Record Workflow : Type := mkWorkflow {
  workflow_id : string;
  name : string;
  version : string;
  steps : list WorkflowStep;
  variables : list WorkflowVariable;
  status : WorkflowStatus;
  max_concurrent_executions : Z
}.

Definition step_ids (w : Workflow) : list string := map step_id (steps w).

(** [get_step]: the first step with that id. *)
Definition get_step (w : Workflow) (id : string) : option WorkflowStep :=
  List.find (fun step => String.eqb (step_id step) id) (steps w).

(** [get_variable_value] with the default [None]. *)
Definition get_variable_value (w : Workflow) (name : string) : option string :=
  match List.find (fun var => String.eqb (var_name var) name) (variables w) with
  | Some var => var_value var
  | None => None
  end.

(** ** [_has_circular_dependency] *)

(** The two sets shared by all calls of [visit]: [visited] and
    [rec_stack]. *)
Definition DfsState : Type := gset string * gset string.

(** The [for dep in step.dependencies] loop of [visit]; [visit] is the
    recursive call.  The flag is the value returned so far: [true] leaves
    the loop (and the calls above it) at once. *)
Fixpoint visit_deps (visit : string -> DfsState -> option (bool * DfsState))
         (deps : list string) (st : DfsState) : option (bool * DfsState) :=
  match deps with
  | [] => Some (false, st)
  | dep :: rest =>
      if decide (dep ∉ fst st) then
        match visit dep st with
        | None => None
        | Some (true, st') => Some (true, st')
        | Some (false, st') => visit_deps visit rest st'
        end
      else if decide (dep ∈ snd st) then Some (true, st)
      else visit_deps visit rest st
  end.

(** [visit]; [depth] is the number of nested calls of [visit] that the
    interpreter still allows, and [None] is the [RecursionError] raised by
    a call made beyond it. *)
Fixpoint visit (depth : nat) (w : Workflow) (id : string) (st : DfsState)
  : option (bool * DfsState) :=
  match depth with
  | O => None
  | S depth' =>
      let st := ({[id]} ∪ fst st, {[id]} ∪ snd st) in
      match get_step w id with
      | Some step =>
          match visit_deps (visit depth' w) (dependencies step) st with
          | None => None
          | Some (true, st') => Some (true, st')
          | Some (false, st') => Some (false, (fst st', snd st' ∖ {[id]}))
          end
      | None => Some (false, (fst st, snd st ∖ {[id]}))
      end
  end.

(** The [for step in self.steps] loop, each unvisited step starting from
    an empty [rec_stack]. *)
Fixpoint visit_steps (depth : nat) (w : Workflow) (todo : list WorkflowStep)
         (visited : gset string) : option bool :=
  match todo with
  | [] => Some false
  | step :: rest =>
      if decide (step_id step ∉ visited) then
        match visit depth w (step_id step) (visited, ∅) with
        | None => None
        | Some (true, _) => Some true
        | Some (false, st') => visit_steps depth w rest (fst st')
        end
      else visit_steps depth w rest visited
  end.

(** [_has_circular_dependency].  [recursion_limit] is the number of
    nested calls of [visit] that the interpreter allows where the method
    is called (its recursion limit, 1000 by default, less the frames in
    use), and [None] is the [RecursionError] that leaves the method. *)
Definition _has_circular_dependency (recursion_limit : nat) (w : Workflow)
  : option bool :=
  visit_steps recursion_limit w (steps w) ∅.

(** ** [validate] *)

Inductive ValidationError : Type :=
| NameRequired
| StepRequired
| DuplicateStepId
| DependencyNotFound (step_name dep : string)
| CircularDependency
| RequiredVariableUnset (var_name : string).

Definition dependency_errors (w : Workflow) : list ValidationError :=
  flat_map (fun step =>
    flat_map (fun dep =>
      if bool_decide (dep ∈ step_ids w) then []
      else [DependencyNotFound (step_name step) dep])
      (dependencies step))
    (steps w).

Definition variable_errors (w : Workflow) : list ValidationError :=
  flat_map (fun var_name =>
    match get_variable_value w var_name with
    | None => [RequiredVariableUnset var_name]
    | Some _ => []
    end)
    (map var_name (List.filter var_required (variables w))).

(** [validate]: the list of errors, in the order in which the checks are
    made; [None] when the [RecursionError] of [_has_circular_dependency]
    leaves the method. *)
Definition validate (recursion_limit : nat) (w : Workflow)
  : option (list ValidationError) :=
  match _has_circular_dependency recursion_limit w with
  | None => None
  | Some circular =>
      Some ((if String.eqb (name w) "" then [NameRequired] else [])
            ++ (match steps w with [] => [StepRequired] | _ => [] end)
            ++ (if bool_decide (length (step_ids w)
                                = size (list_to_set (step_ids w) : gset string))
                then [] else [DuplicateStepId])
            ++ dependency_errors w
            ++ (if circular then [CircularDependency] else [])
            ++ variable_errors w)
  end.

(** ** [get_execution_order] *)

(** The two dictionary comprehensions. *)
Definition initial_in_degree (w : Workflow) : list (string * Z) :=
  fold_left (fun d step => dict_set (step_id step) 0 d) (steps w) [].

Definition initial_graph (w : Workflow) : list (string * list string) :=
  fold_left (fun d step => dict_set (step_id step) [] d) (steps w) [].

(** [for dep in step.dependencies]: an edge from each dependency that is
    a key of [graph]. *)
Fixpoint add_edges (id : string) (deps : list string)
         (st : list (string * list string) * list (string * Z))
  : option (list (string * list string) * list (string * Z)) :=
  match deps with
  | [] => Some st
  | dep :: rest =>
      match dict_get dep (fst st) with
      | Some successors =>
          match dict_get id (snd st) with
          | Some degree =>
              add_edges id rest
                (dict_set dep (successors ++ [id]) (fst st),
                 dict_set id (degree + 1) (snd st))
          | None => None
          end
      | None => add_edges id rest st
      end
  end.

(** [for step in self.steps]. *)
Fixpoint build_graph (todo : list WorkflowStep)
         (st : list (string * list string) * list (string * Z))
  : option (list (string * list string) * list (string * Z)) :=
  match todo with
  | [] => Some st
  | step :: rest =>
      match add_edges (step_id step) (dependencies step) st with
      | Some st' => build_graph rest st'
      | None => None
      end
  end.

(** [for neighbor in graph[step_id]]: the state is [in_degree] and the
    next [queue]. *)
Fixpoint relax (neighbors : list string)
         (st : list (string * Z) * list string)
  : option (list (string * Z) * list string) :=
  match neighbors with
  | [] => Some st
  | neighbor :: rest =>
      match dict_get neighbor (fst st) with
      | Some degree =>
          relax rest
            (dict_set neighbor (degree - 1) (fst st),
             if degree - 1 =? 0 then snd st ++ [neighbor] else snd st)
      | None => None
      end
  end.

(** [for step_id in current_level]. *)
Fixpoint process_level (graph : list (string * list string))
         (current_level : list string)
         (st : list (string * Z) * list string)
  : option (list (string * Z) * list string) :=
  match current_level with
  | [] => Some st
  | id :: rest =>
      match dict_get id graph with
      | Some neighbors =>
          match relax neighbors st with
          | Some st' => process_level graph rest st'
          | None => None
          end
      | None => None
      end
  end.

(** [while queue]; [rounds] bounds the number of iterations, and [None]
    means that it was not enough (or that a key was missing). *)
Fixpoint kahn_loop (rounds : nat) (graph : list (string * list string))
         (in_degree : list (string * Z)) (queue : list string)
         (levels : list (list string)) : option (list (list string)) :=
  match queue with
  | [] => Some levels
  | _ :: _ =>
      match rounds with
      | O => None
      | S rounds' =>
          match process_level graph queue (in_degree, []) with
          | Some (in_degree', queue') =>
              kahn_loop rounds' graph in_degree' queue' (levels ++ [queue])
          | None => None
          end
      end
  end.

(** [get_execution_order].  Every iteration of the loop moves at least one
    step into a level, so one round per step (and one to stop) is
    enough. *)
Definition get_execution_order (w : Workflow) : option (list (list string)) :=
  match build_graph (steps w) (initial_graph w, initial_in_degree w) with
  | Some (graph, in_degree) =>
      let queue :=
        map fst (List.filter (fun kv => snd kv =? 0) in_degree) in
      kahn_loop (S (length (steps w))) graph in_degree queue []
  | None => None
  end.

(** ** The dependency graph of a workflow *)

(** [depends_on w s d]: a step with id [s] lists [d] as a dependency. *)
Definition depends_on (w : Workflow) (s d : string) : Prop :=
  exists step, step ∈ steps w /\ step_id step = s /\ d ∈ dependencies step.

Definition on_cycle (w : Workflow) (s : string) : Prop := tc (depends_on w) s s.

Definition acyclic (w : Workflow) : Prop := forall s, ~ on_cycle w s.

(** Every id listed as a dependency is the id of a step. *)
Definition resolvable (w : Workflow) : Prop :=
  forall step d, step ∈ steps w -> d ∈ dependencies step -> d ∈ step_ids w.

(** [d] is in a level strictly before the level of [s]. *)
Definition strictly_earlier (levels : list (list string)) (d s : string) : Prop :=
  exists i j level_d level_s,
    levels !! i = Some level_d /\ levels !! j = Some level_s
    /\ d ∈ level_d /\ s ∈ level_s /\ (i < j)%nat.

(** *** The graph that [get_execution_order] builds, as a list of edges

    An edge [(d, s)] for every occurrence of a dependency [d], itself the
    id of a step, in the dependencies of a step with id [s]. *)
Definition edges_of (keys : list string) (id : string) (deps : list string)
  : list (string * string) :=
  flat_map (fun dep => if bool_decide (dep ∈ keys) then [(dep, id)] else [])
           deps.

Definition edges (w : Workflow) : list (string * string) :=
  flat_map (fun step => edges_of (step_ids w) (step_id step) (dependencies step))
           (steps w).

(** The number of elements of a list that satisfy [p]. *)
Fixpoint count {A : Type} (p : A -> bool) (l : list A) : Z :=
  match l with
  | [] => 0
  | x :: rest => (if p x then 1 else 0) + count p rest
  end.

(** The value of [graph[d]] for the edge list [E]. *)
Definition successors (E : list (string * string)) (d : string) : list string :=
  map snd (List.filter (fun e => String.eqb (fst e) d) E).

(** The value of [in_degree[s]] once the steps of [done] have been
    processed: the edges into [s] that come from other steps. *)
Definition in_degree_after (E : list (string * string)) (done : list string)
           (s : string) : Z :=
  count (fun e => String.eqb (snd e) s && negb (bool_decide (fst e ∈ done))) E.

(** The position of the first level that contains [s] (the number of
    levels when there is none). *)
Fixpoint level_index (levels : list (list string)) (s : string) : nat :=
  match levels with
  | [] => O
  | level :: rest =>
      if bool_decide (s ∈ level) then O else S (level_index rest s)
  end.

(** The workflows of the specification's examples. *)
Definition example_workflow (l : list WorkflowStep) : Workflow :=
  mkWorkflow "wf" "example" "1.0.0" l [] DRAFT 1.

Definition diamond : Workflow :=
  example_workflow
    [mkStep "A" "a" []; mkStep "B" "b" ["A"%string];
     mkStep "C" "c" ["A"%string]; mkStep "D" "d" ["B"%string; "C"%string]].

Definition two_cycle : Workflow :=
  example_workflow [mkStep "A" "a" ["B"%string]; mkStep "B" "b" ["A"%string]].

(** A cycle between B and a second step with the id A, behind a first
    step A that has no dependency. *)
Definition shadowed_cycle : Workflow :=
  example_workflow
    [mkStep "A" "a" []; mkStep "B" "b" ["A"%string];
     mkStep "A" "again" ["B"%string]].

(** A chain of three steps, the last one first: the search starts at C
    and goes down to A. *)
Definition descent : Workflow :=
  example_workflow
    [mkStep "C" "c" ["B"%string]; mkStep "B" "b" ["A"%string];
     mkStep "A" "a" []].

(** The two dictionaries hold the successor lists and the in-degrees of
    the edge list [E], for exactly the keys [K]. *)
Definition represents (K : list string) (E : list (string * string))
           (st : list (string * list string) * list (string * Z)) : Prop :=
  (forall k, k ∈ K ->
     dict_get k (fst st) = Some (successors E k)
     /\ dict_get k (snd st) = Some (in_degree_after E [] k))
  /\ (forall k, k ∉ K -> dict_get k (fst st) = None /\ dict_get k (snd st) = None)
  /\ NoDup (dict_keys (snd st)).

Definition occurrences (k : string) (ns : list string) : Z :=
  count (fun n => String.eqb n k) ns.

(** ** The invariant of the [while queue] loop

    [levels] are the levels appended so far, [queue] is the next one and
    [in_degree] the dictionary of counters. *)
Definition kahn_inv (w : Workflow) (in_degree : list (string * Z))
           (queue : list string) (levels : list (list string)) : Prop :=
  NoDup (concat levels ++ queue)
  /\ (forall s, s ∈ concat levels ++ queue -> s ∈ step_ids w)
  /\ (forall s, s ∈ step_ids w ->
        dict_get s in_degree = Some (in_degree_after (edges w) (concat levels) s))
  /\ (forall s, s ∈ step_ids w ->
        s ∈ queue <->
        s ∉ concat levels /\ in_degree_after (edges w) (concat levels) s = 0)
  /\ (forall s d, s ∈ concat levels -> (d, s) ∈ edges w ->
        d ∈ concat levels /\ (level_index levels d < level_index levels s)%nat)
  /\ (forall level, level ∈ levels -> level <> []).

(** [s] needs [d], and [d] is a step. *)
Definition needs (w : Workflow) (s d : string) : Prop := (d, s) ∈ edges w.

(** The dependencies that [visit] follows from [s]: those of the step
    found by [get_step]. *)
Definition step_needs (w : Workflow) (s d : string) : Prop :=
  exists step, get_step w s = Some step /\ d ∈ dependencies step.

(** The ids whose call of [visit] has returned [False]: nothing they
    reach is unfinished, and none of them is on a cycle. *)
Definition finished (w : Workflow) (B : gset string) : Prop :=
  (forall n d, n ∈ B -> step_needs w n d -> d ∈ B)
  /\ (forall n, n ∈ B -> ~ tc (step_needs w) n n).

(** The step ids, as a set. *)
Definition step_set (w : Workflow) : gset string :=
  list_to_set (step_ids w).

(** What a call of [visit] on [x] in state [st] does when it has enough
    depth (more than the number of steps not yet visited): it returns,
    [visited] has grown, and if the answer is [False], [rec_stack] is as
    before and [x] is finished. *)
Definition visit_post (w : Workflow) (x : string) (st : DfsState)
           (res : option (bool * DfsState)) : Prop :=
  exists b st', res = Some (b, st')
    /\ fst st ⊆ fst st'
    /\ (b = false ->
        snd st' = snd st /\ x ∈ fst st' /\ finished w (fst st' ∖ snd st)).

Definition visit_pre (w : Workflow) (n : nat) (x : string) (st : DfsState)
  : Prop :=
  x ∉ fst st /\ snd st ⊆ fst st
  /\ finished w (fst st ∖ snd st)
  /\ (size (step_set w ∖ fst st) < n)%nat.

End Workflow.

(* ===================================================================== *)
(** * workflow/workflow_monitor.py: alert rules                           *)
(* ===================================================================== *)

Module Monitor.
Import Dict.

Inductive MonitoringEventType : Type :=
| WORKFLOW_STARTED | WORKFLOW_COMPLETED | WORKFLOW_FAILED | WORKFLOW_TIMEOUT
| STEP_STARTED | STEP_COMPLETED | STEP_FAILED | STEP_TIMEOUT
| PERFORMANCE_ALERT | RESOURCE_ALERT | ERROR_THRESHOLD | CUSTOM_METRIC.

Inductive AlertSeverity : Type := LOW | MEDIUM | HIGH | CRITICAL.

(** [AlertRule]; [last_triggered] is a clock reading in microseconds. *)
Record AlertRule : Type := mkRule {
  rule_id : string;
  rule_name : string;
  condition : string;
  severity : AlertSeverity;
  message_template : string;
  enabled : bool;
  cooldown_minutes : Z;
  last_triggered : option Z
}.

(** [MonitoringEvent]; the [event_id] of an alert is built from the id of
    the rule and a clock reading, kept here as a pair. *)
Record MonitoringEvent : Type := mkEvent {
  event_id : string * Z;
  event_type : MonitoringEventType;
  timestamp : Z;
  workflow_id : option string;
  event_severity : AlertSeverity;
  message : string;
  tags : list string
}.

(** [timedelta(minutes=m)] in microseconds. *)
Definition minutes (m : Z) : Z := m * 60000000.

Definition set_last_triggered (rule : AlertRule) (now : Z) : AlertRule :=
  mkRule (rule_id rule) (rule_name rule) (condition rule) (severity rule)
         (message_template rule) (enabled rule) (cooldown_minutes rule)
         (Some now).

Section Monitoring.

(** The metrics of a workflow, as [to_dict] hands them to the rules: the
    context of a rule is that dictionary (its ["workflow_id"] entry
    replaces the one put in front of it), and [workflow_id_of] reads that
    entry.  [eval_condition] is Python's [eval] of the condition of a rule
    followed by [bool]: [None] when it raises.  [format_template] is
    [str.format] of the message template: [None] when it raises. *)
Variable Metrics : Type.
Variable workflow_id_of : Metrics -> string.
Variable eval_condition : string -> Metrics -> option bool.
Variable format_template : string -> Metrics -> option string.

(** [AlertRule.should_trigger]; [now] is its reading of the clock. *)
Definition should_trigger (rule : AlertRule) (context : Metrics)
           (now : Z) : bool :=
  if negb (enabled rule) then false
  else if match last_triggered rule with
          | Some last => now - last <? minutes (cooldown_minutes rule)
          | None => false
          end
       then false
       else match eval_condition (condition rule) context with
            | Some value => value
            | None => false
            end.

(** [AlertRule.format_message]. *)
Definition format_message (rule : AlertRule) (context : Metrics)
  : string :=
  match format_template (message_template rule) context with
  | Some text => text
  | None => message_template rule
  end.

(** The attributes of [WorkflowMonitor] that alerting reads or writes;
    [alert_rules] is keyed by rule id and iterated in insertion order. *)
Record WorkflowMonitor : Type := mkMonitor {
  events : list MonitoringEvent;
  metrics : list (string * Metrics);
  alert_rules : list (string * AlertRule);
  max_events : Z
}.

(** [add_alert_rule]. *)
Definition add_alert_rule (m : WorkflowMonitor) (rule : AlertRule)
  : WorkflowMonitor :=
  mkMonitor (events m) (metrics m)
            (dict_set (rule_id rule) rule (alert_rules m)) (max_events m).

(** [record_event], without the handlers and the console. *)
Definition record_event (m : WorkflowMonitor) (event : MonitoringEvent)
  : WorkflowMonitor :=
  mkMonitor (events m ++ [event]) (metrics m) (alert_rules m) (max_events m).

(** The clock readings made while one rule is evaluated for one workflow:
    by [should_trigger], and by [_trigger_alert] for [last_triggered], for
    the event id and for the timestamp of the event. *)
Record Readings : Type := mkReadings {
  t_check : Z;
  t_fire : Z;
  t_id : Z;
  t_event : Z
}.

(** [_trigger_alert] on the rule stored under [key]. *)
Definition _trigger_alert (m : WorkflowMonitor) (key : string)
           (rule : AlertRule) (context : Metrics) (r : Readings)
  : WorkflowMonitor :=
  let event :=
    mkEvent (rule_id rule, t_id r) PERFORMANCE_ALERT (t_event r)
            (Some (workflow_id_of context)) (severity rule)
            (format_message rule context) ["alert"; rule_id rule]%string in
  record_event
    (mkMonitor (events m) (metrics m)
               (dict_set key (set_last_triggered rule (t_fire r)) (alert_rules m))
               (max_events m))
    event.

(** The body of the inner loop of [_check_metric_alerts] for the rule
    stored under [key]. *)
Definition check_rule (context : Metrics) (r : string -> Readings)
           (m : WorkflowMonitor) (key : string) : WorkflowMonitor :=
  match dict_get key (alert_rules m) with
  | Some rule =>
      if should_trigger rule context (t_check (r key))
      then _trigger_alert m key rule context (r key)
      else m
  | None => m
  end.

(** [_check_metric_alerts]: every rule for every workflow with metrics;
    [readings w k] are the readings made for workflow [w] and the rule
    under [k]. *)
Definition _check_metric_alerts (m : WorkflowMonitor)
           (readings : string -> string -> Readings) : WorkflowMonitor :=
  fold_left
    (fun m wm =>
       fold_left (check_rule (snd wm) (readings (fst wm)))
                 (dict_keys (alert_rules m)) m)
    (metrics m) m.

(** The slice [l[start:]] of a list. *)
Definition slice_from {A : Type} (start : Z) (l : list A) : list A :=
  let start :=
    if start <? 0 then Z.max 0 (Z.of_nat (length l) + start) else start in
  drop (Z.to_nat start) l.

(** [_cleanup_old_events]. *)
Definition _cleanup_old_events (m : WorkflowMonitor) : WorkflowMonitor :=
  if max_events m <? Z.of_nat (length (events m))
  then mkMonitor (slice_from (- max_events m) (events m)) (metrics m)
                 (alert_rules m) (max_events m)
  else m.

(** One pass of the body of [_monitoring_loop], between two sleeps. *)
Definition monitoring_pass (m : WorkflowMonitor)
           (readings : string -> string -> Readings) : WorkflowMonitor :=
  _cleanup_old_events (_check_metric_alerts m readings).

(** Successive passes of [_monitoring_loop]. *)
Definition monitoring_loop (m : WorkflowMonitor)
           (passes : list (string -> string -> Readings)) : WorkflowMonitor :=
  fold_left monitoring_pass passes m.

(** Every rule is stored under its own id, as [add_alert_rule] does. *)
Definition well_keyed (m : WorkflowMonitor) : Prop :=
  forall key rule, dict_get key (alert_rules m) = Some rule -> rule_id rule = key.

End Monitoring.

(** While the rule under [rid] is cooling down after firing at [last],
    the state keeps the rule as it is and gains no event of that rule: its
    events are what the clean-up has kept of the events [before], followed
    by events of other rules. *)
Definition quiet {Metrics : Type} (rid : string) (rule : AlertRule)
           (before : list MonitoringEvent) (m : WorkflowMonitor Metrics)
  : Prop :=
  well_keyed Metrics m
  /\ dict_get rid (alert_rules Metrics m) = Some rule
  /\ exists kept new,
       events Metrics m = kept ++ new
       /\ kept `suffix_of` before
       /\ forall e, e ∈ new -> fst (event_id e) <> rid.

(** A monitor with one workflow and the rule on the error rate, which
    fired at time zero; the metrics are the error rate in percent. *)
Definition error_rate_rule : AlertRule :=
  mkRule "high_error_rate" "error rate" "error_rate > 0.1" HIGH "too many errors"
         true 5 (Some 0).

Definition always_true (condition : string) (context : Z) : option bool :=
  Some true.

Definition no_format (template : string) (context : Z) : option string :=
  None.

Definition the_workflow (context : Z) : string := "wf".

Definition example_monitor : WorkflowMonitor Z :=
  mkMonitor Z [] [("wf"%string, 50)]
            [("high_error_rate"%string, error_rate_rule)] 10000.

(** Readings one minute after the firing. *)
Definition one_minute_later (workflow key : string) : Readings :=
  mkReadings 60000000 60000000 60000000 60000000.

End Monitor.

(* ===================================================================== *)
(** * workflow/workflow_engine.py: starting a workflow                    *)
(* ===================================================================== *)

Module Engine.
Import Dict Workflow.

(** [WorkflowExecution], with the attributes set by [start_workflow]. *)
Record WorkflowExecution : Type := mkExecution {
  execution_id : string;
  exec_workflow_id : string;
  workflow_version : string;
  exec_status : WorkflowStatus;
  triggered_by : string;
  trigger_data : list (string * option string);
  context : list (string * option string);
  total_steps : Z
}.

(** The attributes of [WorkflowEngine] that [start_workflow] reads or
    writes. *)
Record WorkflowEngine : Type := mkEngine {
  workflows : gmap string Workflow;
  executions : gmap string WorkflowExecution;
  running_executions : gset string;
  total_executions : Z;
  active_executions : Z
}.

(** The [ValueError]s raised by [start_workflow], with the data of their
    messages. *)
Inductive Exception : Type :=
| WorkflowNotFound (workflow_id : string)
| WorkflowNotActive (status : WorkflowStatus)
| TooManyExecutions (active_count limit : Z).

(** What a call does as seen by the caller: it returns a value or an
    exception propagates. *)
Inductive Completion (A : Type) : Type :=
| Returns (value : A)
| Propagates (e : Exception).
Arguments Returns {A} value.
Arguments Propagates {A} e.

Definition WorkflowStatus_eqb (a b : WorkflowStatus) : bool :=
  match a, b with
  | DRAFT, DRAFT | ACTIVE, ACTIVE | RUNNING, RUNNING | COMPLETED, COMPLETED
  | FAILED, FAILED | PAUSED, PAUSED | CANCELLED, CANCELLED
  | ARCHIVED, ARCHIVED => true
  | _, _ => false
  end.

Section Start.

(** The execution id built from the clock reading by [strftime]. *)
Variable execution_id_of : Z -> string.

(** The number of running executions of a workflow. *)
Definition active_count (e : WorkflowEngine) (workflow_id : string) : Z :=
  Z.of_nat
    (length
       (List.filter
          (fun kv => String.eqb (exec_workflow_id (snd kv)) workflow_id
                     && WorkflowStatus_eqb (exec_status (snd kv)) RUNNING)
          (map_to_list (executions e)))).

(** The statements inside the [try] of [start_workflow]: the exception
    raised, or the execution id and the engine afterwards.  The handlers
    of the started event and the task that runs the workflow are left
    out. *)
Definition start_workflow_body (e : WorkflowEngine) (workflow_id : string)
           (trigger : list (string * option string)) (by_whom : string)
           (now : Z) : Exception + string * WorkflowEngine :=
  match workflows e !! workflow_id with
  | None => inl (WorkflowNotFound workflow_id)
  | Some workflow =>
      if negb (WorkflowStatus_eqb (Workflow.status workflow) ACTIVE)
      then inl (WorkflowNotActive (Workflow.status workflow))
      else if max_concurrent_executions workflow <=? active_count e workflow_id
      then inl (TooManyExecutions (active_count e workflow_id)
                                  (max_concurrent_executions workflow))
      else
        let from_variables :=
          fold_left (fun c var => dict_set (var_name var) (var_value var) c)
                    (variables workflow) [] in
        let context :=
          fold_left (fun c kv => dict_set (fst kv) (snd kv) c)
                    trigger from_variables in
        let execution :=
          mkExecution (execution_id_of now) workflow_id (version workflow)
                      RUNNING by_whom trigger context
                      (Z.of_nat (length (steps workflow))) in
        inr (execution_id execution,
             mkEngine (workflows e)
                      (<[execution_id execution := execution]> (executions e))
                      ({[execution_id execution]} ∪ running_executions e)
                      (total_executions e + 1)
                      (active_executions e + 1))
  end.

(** [start_workflow]: the [except Exception] clause prints the exception
    and returns [None].  The result is what the caller observes, the
    lines printed, and the engine afterwards. *)
Definition start_workflow (e : WorkflowEngine) (workflow_id : string)
           (trigger : list (string * option string)) (by_whom : string)
           (now : Z)
  : Completion (option string) * list Exception * WorkflowEngine :=
  match start_workflow_body e workflow_id trigger by_whom now with
  | inr (id, e') => (Returns (Some id), [], e')
  | inl raised => (Returns None, [raised], e)
  end.

End Start.

(** An engine that stores one workflow, still a draft. *)
Definition draft_engine : WorkflowEngine :=
  mkEngine {[ "wf"%string := diamond ]} ∅ ∅ 0 0.

End Engine.

(* ===================================================================== *)
(** * Python floats                                                       *)
(* ===================================================================== *)

Module PyFloat.

Definition prec : Z := 53.
Definition emax : Z := 1024.

Definition add : spec_float -> spec_float -> spec_float := SFadd prec emax.
Definition mul : spec_float -> spec_float -> spec_float := SFmul prec emax.
Definition div : spec_float -> spec_float -> spec_float := SFdiv prec emax.

(** [float(n)] for an [int]: the nearest float, ties to even. *)
Definition of_int (n : Z) : spec_float := binary_normalize prec emax n 0 false.

(** The float written as the decimal [num / den], [den] a power of ten:
    the nearest float to that number, which is what the correctly rounded
    division of two exactly represented integers returns. *)
Definition decimal (num den : Z) : spec_float := div (of_int num) (of_int den).

(** [min(a, b)] on two floats: [b] when [b < a], else [a]. *)
Definition min (a b : spec_float) : spec_float := if SFltb b a then b else a.

(** The integer nearest to [num / den], ties to even. *)
Definition round_half_even (num den : Z) : Z :=
  let q := num / den in
  let r := num mod den in
  match 2 * r ?= den with
  | Lt => q
  | Gt => q + 1
  | Eq => if Z.even q then q else q + 1
  end.

(** [round(x, 2)]: the exact value of [x] is rounded to a whole number of
    hundredths, ties to even, and the result is the float nearest to that
    decimal. *)
Definition round2 (x : spec_float) : spec_float :=
  match x with
  | S754_finite s m e =>
      let hundredths :=
        if 0 <=? e then 100 * Zpos m * 2 ^ e
        else round_half_even (100 * Zpos m) (2 ^ (- e)) in
      div (binary_normalize prec emax
             (if s then - hundredths else hundredths) 0 s)
          (of_int 100)
  | _ => x
  end.

(** A float that is at least [q * 2 ^ e], for a [q] of 53 bits. *)
Definition at_least (q e : Z) (x : spec_float) : Prop :=
  x = S754_infinity false
  \/ exists m' e', x = S754_finite false m' e'
       /\ ((e' = e /\ q <= Zpos m' < 2 ^ 53)
           \/ (e' = e + 1 /\ Zpos m' = 2 ^ 52)).

(** A positive normal float of exponent at least [e], and of mantissa at
    least [q] when the exponent is [e]. *)
Definition normal_above (q e : Z) (x : spec_float) : Prop :=
  x = S754_infinity false
  \/ exists m' e', x = S754_finite false m' e'
       /\ 2 ^ 52 <= Zpos m' < 2 ^ 53
       /\ (e < e' \/ (e' = e /\ q <= Zpos m')).

End PyFloat.

(* ===================================================================== *)
(** * ai/agent_nlp_handler.py: the confidence score                       *)
(* ===================================================================== *)

Module NLP.
Import Task.

Inductive IntentType : Type :=
| QUESTION | COMMAND | REQUEST | GREETING | UNKNOWN.

Definition IntentType_eqb (a b : IntentType) : bool :=
  match a, b with
  | QUESTION, QUESTION | COMMAND, COMMAND | REQUEST, REQUEST
  | GREETING, GREETING | UNKNOWN, UNKNOWN => true
  | _, _ => false
  end.

(** A Python [str] as the list of its code points. *)
Definition isspace (c : Z) : bool :=
  ((9 <=? c) && (c <=? 13)) || ((28 <=? c) && (c <=? 32))
  || (c =? 133) || (c =? 160) || (c =? 5760)
  || ((8192 <=? c) && (c <=? 8202))
  || (c =? 8232) || (c =? 8233) || (c =? 8239) || (c =? 8287) || (c =? 12288).

(** [text.split()]: the maximal runs of characters that are not white
    space; [word] is the run being read, reversed. *)
Fixpoint split_from (text : list Z) (word : list Z) : list (list Z) :=
  match text with
  | [] => match word with [] => [] | _ => [rev word] end
  | c :: rest =>
      if isspace c
      then match word with
           | [] => split_from rest []
           | _ => rev word :: split_from rest []
           end
      else split_from rest (c :: word)
  end.

Definition split (text : list Z) : list (list Z) := split_from text [].

Fixpoint starts_with (word text : list Z) : bool :=
  match word, text with
  | [], _ => true
  | _ :: _, [] => false
  | a :: word', b :: text' => (a =? b) && starts_with word' text'
  end.

(** [word in text]. *)
Fixpoint contains (word text : list Z) : bool :=
  starts_with word text
  || match text with
     | [] => false
     | _ :: rest => contains word rest
     end.

(** The four keyword stems of [_calculate_confidence], as code points. *)
Definition keywords : list (list Z) :=
  [[48516; 49437]; [50836; 50557]; [46020; 50880]; [51656; 47928]].

(** [_calculate_confidence]; the task type is not used. *)
Definition _calculate_confidence (text : list Z) (intent_type : IntentType)
           (task_type : TaskType) : spec_float :=
  let base_confidence := PyFloat.decimal 5 10 in
  let pattern_bonus :=
    if negb (IntentType_eqb intent_type UNKNOWN)
    then PyFloat.add (PyFloat.decimal 0 10) (PyFloat.decimal 2 10)
    else PyFloat.decimal 0 10 in
  let length_bonus :=
    PyFloat.min
      (PyFloat.mul (PyFloat.of_int (Z.of_nat (length (split text))))
                   (PyFloat.decimal 5 100))
      (PyFloat.decimal 2 10) in
  let keyword_bonus :=
    if existsb (fun word => contains word text) keywords
    then PyFloat.decimal 1 10
    else PyFloat.decimal 0 10 in
  let confidence :=
    PyFloat.min
      (PyFloat.add
         (PyFloat.add (PyFloat.add base_confidence pattern_bonus) length_bonus)
         keyword_bonus)
      (PyFloat.decimal 10 10) in
  PyFloat.round2 confidence.

(** The score as the specification words it, in hundredths: 0.5, plus 0.2
    for a known intent, plus 0.05 a word up to 0.2, plus 0.1 for a
    keyword, at most 1.0. *)
Definition specified_hundredths (intent_type : IntentType) (word_count : Z)
           (has_keyword : bool) : Z :=
  Z.min (50
         + (if IntentType_eqb intent_type UNKNOWN then 0 else 20)
         + Z.min (word_count * 5) 20
         + (if has_keyword then 10 else 0))
        100.

(** A text of ten words with the stem for "analyze" in it. *)
Definition ten_words : list Z :=
  [97; 32; 98; 32; 99; 32; 100; 32; 101; 32; 102; 32; 103; 32; 104; 32;
   105; 32; 48516; 49437].

End NLP.

(* ===================================================================== *)
(** * workflow/workflow_models.py: editing a workflow                     *)
(* ===================================================================== *)

Module WorkflowEdit.
Import Workflow.

Definition with_steps (w : Workflow) (l : list WorkflowStep) : Workflow :=
  mkWorkflow (workflow_id w) (name w) (version w) l (variables w) (status w)
             (max_concurrent_executions w).

Definition with_variables (w : Workflow) (l : list WorkflowVariable)
  : Workflow :=
  mkWorkflow (workflow_id w) (name w) (version w) (steps w) l (status w)
             (max_concurrent_executions w).

(** [add_step]: the step is appended, whatever its id. *)
Definition add_step (w : Workflow) (step : WorkflowStep) : Workflow :=
  with_steps w (steps w ++ [step]).

(** The [for i, step in enumerate(self.steps)] loop of [remove_step]: the
    list without the first step that has the id, if there is one. *)
Fixpoint remove_first (id : string) (l : list WorkflowStep)
  : option (list WorkflowStep) :=
  match l with
  | [] => None
  | step :: rest =>
      if String.eqb (step_id step) id then Some rest
      else match remove_first id rest with
           | Some rest' => Some (step :: rest')
           | None => None
           end
  end.

(** [remove_step]: the returned flag and the workflow afterwards. *)
Definition remove_step (w : Workflow) (id : string) : bool * Workflow :=
  match remove_first id (steps w) with
  | Some l => (true, with_steps w l)
  | None => (false, w)
  end.

(** The [for var in self.variables] loop of [set_variable_value]: the
    value of the first variable with that name is replaced. *)
Fixpoint set_first (name : string) (value : option string)
         (l : list WorkflowVariable) : option (list WorkflowVariable) :=
  match l with
  | [] => None
  | var :: rest =>
      if String.eqb (var_name var) name
      then Some (mkVariable (var_name var) value (var_required var) :: rest)
      else match set_first name value rest with
           | Some rest' => Some (var :: rest')
           | None => None
           end
  end.

(** [set_variable_value]; a new variable is not required. *)
Definition set_variable_value (w : Workflow) (name : string)
           (value : option string) : Workflow :=
  match set_first name value (variables w) with
  | Some l => with_variables w l
  | None => with_variables w (variables w ++ [mkVariable name value false])
  end.

(** What [validate] accepts, in terms of the workflow: a name, at least
    one step, distinct step ids, dependencies that name steps and form no
    cycle, and a value for every required variable (the value that
    [get_variable_value] finds under its name). *)
Definition well_formed (w : Workflow) : Prop :=
  name w <> ""%string
  /\ steps w <> []
  /\ NoDup (step_ids w)
  /\ resolvable w
  /\ acyclic w
  /\ forall var, var ∈ variables w -> var_required var = true ->
       get_variable_value w (var_name var) <> None.

(** The workflow without the dependencies that name no step. *)
Definition without_dangling (w : Workflow) : Workflow :=
  with_steps w
    (map (fun step =>
            mkStep (step_id step) (step_name step)
                   (List.filter (fun d => bool_decide (d ∈ step_ids w))
                                (dependencies step)))
         (steps w)).

(** Some id is on a cycle of the dependencies that [visit] follows. *)
Definition has_cycle (w : Workflow) : Prop := exists s, tc (step_needs w) s s.

(** What an answer of [visit] or of its loop means, whatever the depth:
    [True] comes with a cycle, [False] leaves nothing new on
    [rec_stack]. *)
Definition sound_answer (w : Workflow) (st : DfsState)
           (res : option (bool * DfsState)) : Prop :=
  forall b st', res = Some (b, st') ->
    (b = true -> has_cycle w) /\ (b = false -> snd st' ⊆ snd st).

(** A chain of three steps. *)
Definition chain : Workflow :=
  example_workflow
    [mkStep "A" "a" []; mkStep "B" "b" ["A"%string];
     mkStep "C" "c" ["B"%string]].

End WorkflowEdit.

(* ===================================================================== *)
(** * tools/base_tool.py: retries, and the state the wrapper keeps        *)
(* ===================================================================== *)

Module ToolRetry.
Import Tool.

(** The timestamps that [_check_rate_limit] keeps at [now]: those of the
    last minute. *)
Definition kept (t : BaseTool) (now : Z) : list Z :=
  List.filter (fun ts => now - microseconds 60 <? ts) (rate_limit_timestamps t).

(** The timestamps of a tool that are not before [a]. *)
Definition since (a : Z) (t : BaseTool) : list Z :=
  List.filter (fun ts => a <=? ts) (rate_limit_timestamps t).

(** Every cached result is a success and has a timestamp, and nothing
    else has one. *)
Definition cache_ok (t : BaseTool) : Prop :=
  (forall k, is_Some (cache t !! k) <-> is_Some (cache_timestamps t !! k))
  /\ (forall k r, cache t !! k = Some r -> success r = true).

Section Retry.

Variable Params : Type.
Variable validate_parameters : Params -> list string.
Variable _generate_cache_key : string -> Params -> option string.

(** What the [attempt]-th call of [run] made by [run_with_retry] meets:
    its clock readings and the behaviour of [execute]. *)
Variable attempts : nat -> Clock * ExecOutcome.

(** The [attempt]-th call of [run]. *)
Definition try_run (t : BaseTool) (kwargs : Params) (attempt : nat)
  : ToolResult * BaseTool :=
  run Params validate_parameters _generate_cache_key t kwargs
      (fst (attempts attempt)) (snd (attempts attempt)).

(** The [for attempt in range(...)] loop of [run_with_retry] with [n]
    attempts left, followed by its last line.  [run] catches every
    exception, so the [except] clause of the loop is never entered; the
    sleep between two attempts changes nothing but the time. *)
Fixpoint retry_loop (n attempt : nat) (t : BaseTool) (kwargs : Params)
         (last_result : option ToolResult) : ToolResult * BaseTool :=
  match n with
  | O =>
      (match last_result with
       | Some result => result
       | None => error_result (ToolMessage "모든 재시도 실패") 0
       end, t)
  | S n' =>
      let '(result, t') := try_run t kwargs attempt in
      if success result then (result, t')
      else retry_loop n' (S attempt) t' kwargs (Some result)
  end.

(** [run_with_retry]. *)
Definition run_with_retry (t : BaseTool) (kwargs : Params)
  : ToolResult * BaseTool :=
  retry_loop (Z.to_nat (max_retries (config t) + 1)) 0 t kwargs None.

(** The tool before the [attempt]-th call, when the earlier ones were all
    made. *)
Fixpoint before_attempt (t : BaseTool) (kwargs : Params) (attempt : nat)
  : BaseTool :=
  match attempt with
  | O => t
  | S k => snd (try_run (before_attempt t kwargs k) kwargs k)
  end.

(** What the [attempt]-th call returns and leaves, when it is made. *)
Definition attempt_result (t : BaseTool) (kwargs : Params) (attempt : nat)
  : ToolResult * BaseTool :=
  try_run (before_attempt t kwargs attempt) kwargs attempt.

End Retry.

(** An [execute] that fails twice and then succeeds, one second apart. *)
Definition flaky (attempt : nat) : Clock * ExecOutcome :=
  let now := Z.of_nat attempt * 1000000 in
  (mkClock now now now (now + 1000) (now + 1000),
   if (attempt <? 2)%nat then Raises "unavailable" else Returns ok_result).

Definition unit_retry : BaseTool -> unit -> ToolResult * BaseTool :=
  run_with_retry unit (fun _ => []) (fun name _ => Some name) flaky.

(** Three calls in the same minute. *)
Definition burst : list (Call unit) :=
  [mkCall unit tt first_clock (Returns ok_result);
   mkCall unit tt second_clock (Raises "unavailable");
   mkCall unit tt second_clock (Returns ok_result)].

(** A third reading of the clock, ten minutes after the first. *)
Definition late_clock : Clock :=
  mkClock 600000000 600000000 600000000 600001000 600001000.

End ToolRetry.

(* ===================================================================== *)
(** * agents/base_agent.py: the life of an agent                          *)
(* ===================================================================== *)

Module AgentOps.
Import Task Agent.

(** What is done to an agent from outside and by its main loop: a call
    of [add_task], or one pass of the loop over the task queue. *)
Inductive Op : Type :=
| AddTask (task : AgentTask)
| Pass.

Definition apply_op (process_task : AgentTask -> Outcome) (a : BaseAgent)
           (op : Op) : BaseAgent :=
  match op with
  | AddTask task => snd (add_task a task)
  | Pass => _process_tasks process_task a
  end.

Definition run_ops (process_task : AgentTask -> Outcome) (a : BaseAgent)
           (ops : list Op) : BaseAgent :=
  fold_left (apply_op process_task) ops a.

(** The tasks for which [add_task] returned [True] along [ops]. *)
Fixpoint accepted (process_task : AgentTask -> Outcome) (a : BaseAgent)
         (ops : list Op) : list AgentTask :=
  match ops with
  | [] => []
  | AddTask task :: rest =>
      (if fst (add_task a task) then [task] else [])
      ++ accepted process_task (snd (add_task a task)) rest
  | Pass :: rest => accepted process_task (_process_tasks process_task a) rest
  end.



End AgentOps.

(* ===================================================================== *)
(** * workflow/workflow_monitor.py: rules, queries and metrics            *)
(* ===================================================================== *)

Module MonitorQuery.
Import Dict Monitor.

#[global] Instance MonitoringEventType_eq_dec : EqDecision MonitoringEventType.
Proof. solve_decision. Defined.

#[global] Instance AlertSeverity_eq_dec : EqDecision AlertSeverity.
Proof. solve_decision. Defined.

(** ** The alert rules *)

(** [del d[k]] on a dictionary that has the key. *)
Fixpoint dict_del {V : Type} (k : string) (d : list (string * V))
  : list (string * V) :=
  match d with
  | [] => []
  | (k', v) :: rest =>
      if String.eqb k' k then rest else (k', v) :: dict_del k rest
  end.

(** The four rules of [_setup_default_alert_rules]. *)
Definition default_rules : list AlertRule :=
  [mkRule "high_error_rate" "높은 에러율" "error_rate > 0.1" HIGH
          "워크플로우 {workflow_id}의 에러율이 {error_rate:.1%}로 높습니다"
          true 5 None;
   mkRule "long_execution_time" "긴 실행 시간" "average_duration > 300" MEDIUM
          "워크플로우 {workflow_id}의 평균 실행 시간이 {average_duration:.1f}초입니다"
          true 5 None;
   mkRule "workflow_failure" "워크플로우 실패" "status == 'failed'" HIGH
          "워크플로우 {workflow_id} 실행이 실패했습니다: {error_message}"
          true 5 None;
   mkRule "step_timeout" "스텝 타임아웃" "step_status == 'timeout'" MEDIUM
          "워크플로우 {workflow_id}의 스텝 {step_id}이 타임아웃되었습니다"
          true 5 None].

Section Query.

Variable Metrics : Type.

Abbreviation WorkflowMonitor := (WorkflowMonitor Metrics).

(** [__init__]. *)
Definition init : WorkflowMonitor :=
  fold_left (add_alert_rule Metrics) default_rules (mkMonitor Metrics [] [] [] 10000).

(** [remove_alert_rule]: the returned flag and the monitor afterwards. *)
Definition remove_alert_rule (m : WorkflowMonitor) (rule_id : string)
  : bool * WorkflowMonitor :=
  match dict_get rule_id (alert_rules Metrics m) with
  | Some _ =>
      (true, mkMonitor Metrics (events Metrics m) (metrics Metrics m)
                       (dict_del rule_id (alert_rules Metrics m))
                       (max_events Metrics m))
  | None => (false, m)
  end.

(** A change of the rules. *)
Inductive RuleOp : Type :=
| AddRule (rule : AlertRule)
| RemoveRule (rule_id : string).

Definition apply_rule_op (m : WorkflowMonitor) (op : RuleOp) : WorkflowMonitor :=
  match op with
  | AddRule rule => add_alert_rule Metrics m rule
  | RemoveRule rule_id => snd (remove_alert_rule m rule_id)
  end.

(** Every rule is stored under its own id, and no id twice. *)
Definition registry_ok (m : WorkflowMonitor) : Prop :=
  well_keyed Metrics m /\ NoDup (dict_keys (alert_rules Metrics m)).

(** ** Queries *)

(** The arguments of [get_events]; an absent argument is [None]. *)
Record Query : Type := mkQuery {
  q_workflow_id : option string;
  q_event_type : option MonitoringEventType;
  q_severity : option AlertSeverity;
  q_start_time : option Z;
  q_end_time : option Z;
  q_limit : option Z
}.

(** [get_events()] with the defaults of its parameters. *)
Definition default_query : Query := mkQuery None None None None None (Some 100).

(** The truth value of a string argument: [None] and the empty string
    are false. *)
Definition given (s : option string) : option string :=
  match s with
  | Some "" => None
  | other => other
  end%string.

(** The tests of the five list comprehensions of [get_events], each
    made only when its argument is given. *)
Definition matches (q : Query) (e : MonitoringEvent) : bool :=
  match given (q_workflow_id q) with
  | Some w => bool_decide (workflow_id e = Some w)
  | None => true
  end
  && match q_event_type q with
     | Some t => bool_decide (event_type e = t)
     | None => true
     end
  && match q_severity q with
     | Some s => bool_decide (event_severity e = s)
     | None => true
     end
  && match q_start_time q with
     | Some t => t <=? timestamp e
     | None => true
     end
  && match q_end_time q with
     | Some t => timestamp e <=? t
     | None => true
     end.

(** No comprehension is evaluated: [filtered_events] is still the list
    [self.events] itself, not a copy. *)
Definition unfiltered (q : Query) : bool :=
  match given (q_workflow_id q), q_event_type q, q_severity q,
        q_start_time q, q_end_time q with
  | None, None, None, None, None => true
  | _, _, _, _, _ => false
  end.

Definition filter_if {A : Type} (test : option (A -> bool)) (l : list A)
  : list A :=
  match test with
  | Some p => List.filter p l
  | None => l
  end.

(** The list after the five [if] statements. *)
Definition filtered_events (q : Query) (l : list MonitoringEvent)
  : list MonitoringEvent :=
  let l := filter_if ((fun w e => bool_decide (workflow_id e = Some w))
                        <$> given (q_workflow_id q)) l in
  let l := filter_if ((fun t e => bool_decide (event_type e = t))
                        <$> q_event_type q) l in
  let l := filter_if ((fun s e => bool_decide (event_severity e = s))
                        <$> q_severity q) l in
  let l := filter_if ((fun t e => t <=? timestamp e) <$> q_start_time q) l in
  filter_if ((fun t e => timestamp e <=? t) <$> q_end_time q) l.

(** [list.sort(key=lambda x: x.timestamp, reverse=True)]: the sort is
    stable, also in reverse, so an event goes before the first sorted
    event that is not newer than it. *)
Fixpoint insert_newest_first (e : MonitoringEvent) (l : list MonitoringEvent)
  : list MonitoringEvent :=
  match l with
  | [] => [e]
  | x :: rest =>
      if timestamp x <=? timestamp e then e :: x :: rest
      else x :: insert_newest_first e rest
  end.

Definition sort_newest_first (l : list MonitoringEvent) : list MonitoringEvent :=
  foldr insert_newest_first [] l.

(** The slice [l[:stop]]. *)
Definition slice_to {A : Type} (stop : option Z) (l : list A) : list A :=
  match stop with
  | None => l
  | Some n =>
      take (Z.to_nat (if n <? 0 then Z.of_nat (length l) + n else n)) l
  end.

(** [get_events]: the returned list and the monitor afterwards.  The
    sort is made in place on [filtered_events], which is the stored list
    when no filter was applied. *)
Definition get_events (m : WorkflowMonitor) (q : Query)
  : list MonitoringEvent * WorkflowMonitor :=
  let sorted := sort_newest_first (filtered_events q (events Metrics m)) in
  (slice_to (q_limit q) sorted,
   if unfiltered q
   then mkMonitor Metrics sorted (metrics Metrics m) (alert_rules Metrics m)
                  (max_events Metrics m)
   else m).

(** ** The summary of the alerts *)

Definition hours (h : Z) : Z := h * 3600000000.

(** [recent_events] of [get_alert_summary]. *)
Definition recent_alerts (m : WorkflowMonitor) (now h : Z)
  : list MonitoringEvent :=
  List.filter (fun e => (now - hours h <=? timestamp e)
                        && bool_decide ("alert"%string ∈ tags e))
              (events Metrics m).

(** The severities, in the order of the enumeration. *)
Definition severities : list AlertSeverity := [LOW; MEDIUM; HIGH; CRITICAL].

Definition add_one {K : Type} `{EqDecision K} (k : K) (d : list (K * Z))
  : list (K * Z) :=
  map (fun kv => if decide (fst kv = k) then (fst kv, snd kv + 1) else kv) d.

(** [severity_counts]: zero for every severity, then one more for each
    event. *)
Definition severity_breakdown (l : list MonitoringEvent)
  : list (AlertSeverity * Z) :=
  fold_left (fun d e => add_one (event_severity e) d) l
            (map (fun s => (s, 0)) severities).

(** [workflow_alerts]: a key is created with zero when it is first met,
    then incremented; events without a workflow id are skipped. *)
Definition workflow_breakdown (l : list MonitoringEvent) : list (string * Z) :=
  fold_left
    (fun d e =>
       match given (workflow_id e) with
       | Some w =>
           let d := match dict_get w d with
                    | Some _ => d
                    | None => dict_set w 0 d
                    end in
           match dict_get w d with
           | Some n => dict_set w (n + 1) d
           | None => d
           end
       | None => d
       end)
    l [].

Record AlertSummary : Type := mkSummary {
  total_alerts : Z;
  severity_counts : list (AlertSeverity * Z);
  workflow_alerts : list (string * Z);
  time_range_hours : Z
}.

(** [get_alert_summary]; [now] is its reading of the clock. *)
Definition get_alert_summary (m : WorkflowMonitor) (now h : Z) : AlertSummary :=
  let recent := recent_alerts m now h in
  mkSummary (Z.of_nat (length recent)) (severity_breakdown recent)
            (workflow_breakdown recent) h.

Definition total {K : Type} (d : list (K * Z)) : Z :=
  fold_right Z.add 0 (map snd d).

End Query.

(** The workflow that an event names, if it names one. *)
Definition named (e : MonitoringEvent) : option string := given (workflow_id e).

(** The number of events whose [key] is [k]. *)
Definition tally {K : Type} `{EqDecision K} (key : MonitoringEvent -> option K)
           (k : K) (l : list MonitoringEvent) : Z :=
  Z.of_nat (length (List.filter (fun e => bool_decide (key e = Some k)) l)).

(** Events are in the order of their record when every event is newer
    than the one before it. *)
Definition chronological (l : list MonitoringEvent) : Prop :=
  StronglySorted (fun x y => timestamp x < timestamp y) l.

Definition newest_first (l : list MonitoringEvent) : Prop :=
  StronglySorted (fun x y => timestamp y <= timestamp x) l.

(** Three events, one per second, in a monitor that keeps two. *)
Definition tick (n : Z) : MonitoringEvent :=
  mkEvent ("tick"%string, n) CUSTOM_METRIC (n * 1000000) (Some "wf"%string)
          LOW "" ["workflow"%string].

Definition small_monitor : Monitor.WorkflowMonitor Z :=
  mkMonitor Z [tick 1; tick 2; tick 3] [] [] 2.

End MonitorQuery.

(* ===================================================================== *)
(** * workflow/workflow_engine.py: creating workflows                     *)
(* ===================================================================== *)

Module EngineAdmin.
Import Dict Workflow Engine.

(** [create_workflow]: the returned flag, the engine afterwards and the
    counter [metrics["total_workflows"]], which [WorkflowEngine] above
    leaves out.  Errors of [validate] make the method raise inside its
    [try]; the [except Exception] clause catches that exception, and the
    [RecursionError] of [validate] itself, and returns [False]. *)
Definition create_workflow (recursion_limit : nat) (e : WorkflowEngine)
           (total_workflows : Z) (workflow : Workflow)
  : bool * WorkflowEngine * Z :=
  match validate recursion_limit workflow with
  | Some [] =>
      (true,
       mkEngine (<[workflow_id workflow := workflow]> (workflows e))
                (executions e) (running_executions e)
                (total_executions e) (active_executions e),
       total_workflows + 1)
  | Some (_ :: _) | None => (false, e, total_workflows)
  end.

(** The items of the dictionary built from the workflow variables. *)
Definition variable_items (w : Workflow) : list (string * option string) :=
  map (fun var => (var_name var, var_value var)) (variables w).

(** The last value assigned to a key by a list of assignments. *)
Definition last_assigned {V : Type} (k : string) (l : list (string * V))
  : option V :=
  dict_get k (rev l).

(** An engine with one active workflow that allows one execution. *)
Definition active_diamond : Workflow :=
  mkWorkflow "wf" "example" "1.0.0" (steps diamond)
             [mkVariable "region" (Some "eu"%string) false;
              mkVariable "user" None false]
             ACTIVE 1.

Definition active_engine : WorkflowEngine :=
  mkEngine {[ "wf"%string := active_diamond ]} ∅ ∅ 0 0.

End EngineAdmin.

(* ===================================================================== *)
(** * agents/manager_agent.py: the execution plan                         *)
(* ===================================================================== *)

Module Planner.
Import Task Dict.

(** A dependency graph: the dependencies of every task id.  The value of
    a task built without dependencies is [None], on which the loops
    below raise a [TypeError]. *)
Definition Graph : Type := list (string * option (list string)).

(** The first loop of [_create_execution_plan]. *)
Definition dependency_graph (subtasks : list AgentTask) : Graph :=
  fold_left (fun d task => dict_set (task_id task) (dependencies task) d)
            subtasks [].

(** ** [_topological_sort] *)

(** [{node: 0 for node in dependency_graph}]. *)
Definition zero_degrees (graph : Graph) : list (string * Z) :=
  fold_left (fun d node => dict_set node 0 d) (dict_keys graph) [].

(** [for dep in dependency_graph[node]]: the counter of every dependency
    that is a key goes up. *)
Fixpoint count_deps (deps : list string) (in_degree : list (string * Z))
  : list (string * Z) :=
  match deps with
  | [] => in_degree
  | dep :: rest =>
      count_deps rest
        match dict_get dep in_degree with
        | Some n => dict_set dep (n + 1) in_degree
        | None => in_degree
        end
  end.

(** [for node in dependency_graph]. *)
Fixpoint count_all (items : Graph) (in_degree : list (string * Z))
  : option (list (string * Z)) :=
  match items with
  | [] => Some in_degree
  | (node, None) :: rest => None
  | (node, Some deps) :: rest => count_all rest (count_deps deps in_degree)
  end.

(** [for neighbor in dependency_graph] after [node] has been taken from
    the queue: the counter of every task that lists [node] goes down, and
    the task is queued when its counter reaches zero. *)
Fixpoint release (node : string) (items : Graph)
         (st : list (string * Z) * list string)
  : option (list (string * Z) * list string) :=
  match items with
  | [] => Some st
  | (neighbor, None) :: rest => None
  | (neighbor, Some deps) :: rest =>
      if bool_decide (node ∈ deps) then
        match dict_get neighbor (fst st) with
        | Some n =>
            release node rest
              (dict_set neighbor (n - 1) (fst st),
               if n - 1 =? 0 then snd st ++ [neighbor] else snd st)
        | None => None
        end
      else release node rest st
  end.

(** [while queue]; [rounds] bounds the number of iterations. *)
Fixpoint sort_loop (rounds : nat) (graph : Graph) (in_degree : list (string * Z))
         (queue result : list string) : option (list string) :=
  match queue with
  | [] => Some result
  | node :: queue =>
      match rounds with
      | O => None
      | S rounds' =>
          match release node graph (in_degree, queue) with
          | Some (in_degree', queue') =>
              sort_loop rounds' graph in_degree' queue' (result ++ [node])
          | None => None
          end
      end
  end.

(** [_topological_sort]; a counter reaches zero at most once, so no task
    is queued twice and one round per task is enough. *)
Definition _topological_sort (graph : Graph) : option (list string) :=
  match count_all graph (zero_degrees graph) with
  | Some in_degree =>
      sort_loop (S (length graph)) graph in_degree
                (map fst (List.filter (fun kv => snd kv =? 0) in_degree)) []
  | None => None
  end.

(** ** [_create_execution_groups] *)

(** [dependencies_resolved] for a task of the order. *)
Definition dependencies_resolved (graph : Graph) (remaining : gset string)
           (task_id : string) : option bool :=
  match dict_get task_id graph with
  | Some (Some deps) =>
      Some (forallb (fun dep => bool_decide (dep ∉ remaining)) deps)
  | Some None => None
  | None => Some true
  end.

(** [for task_id in execution_order]: the next group. *)
Fixpoint current_group (graph : Graph) (remaining : gset string)
         (execution_order : list string) : option (list string) :=
  match execution_order with
  | [] => Some []
  | task_id :: rest =>
      if bool_decide (task_id ∈ remaining) then
        match dependencies_resolved graph remaining task_id with
        | Some resolved =>
            match current_group graph remaining rest with
            | Some group => Some (if resolved then task_id :: group else group)
            | None => None
            end
        | None => None
        end
      else current_group graph remaining rest
  end.

Section Groups.

(** The order in which [list(remaining)] enumerates a set. *)
Variable list_of_set : gset string -> list string.

(** [while remaining]. *)
Fixpoint groups_loop (rounds : nat) (graph : Graph)
         (execution_order : list string) (remaining : gset string)
         (groups : list (list string)) : option (list (list string)) :=
  if decide (remaining = ∅) then Some groups
  else match rounds with
       | O => None
       | S rounds' =>
           match current_group graph remaining execution_order with
           | None => None
           | Some [] => Some (groups ++ [list_of_set remaining])
           | Some group =>
               groups_loop rounds' graph execution_order
                           (remaining ∖ list_to_set group) (groups ++ [group])
           end
       end.

(** [_create_execution_groups]; every round but the last takes a task
    out of [remaining]. *)
Definition _create_execution_groups (execution_order : list string)
           (graph : Graph) : option (list (list string)) :=
  groups_loop (S (length execution_order)) graph execution_order
              (list_to_set execution_order) [].

(** [_create_execution_plan]: the entries [execution_order] and
    [execution_groups] of the plan. *)
Definition _create_execution_plan (subtasks : list AgentTask)
  : option (list string * list (list string)) :=
  let graph := dependency_graph subtasks in
  match _topological_sort graph with
  | Some execution_order =>
      match _create_execution_groups execution_order graph with
      | Some groups => Some (execution_order, groups)
      | None => None
      end
  | None => None
  end.

End Groups.

(** ** The workers

    An entry of [worker_agents], with the keys that the allocation
    reads: [info.get("status")] and [info.get("skills", [])]. *)
Record WorkerInfo : Type := mkWorker {
  worker_status : option string;
  worker_skills : list string
}.

(** [info.get("status") == "idle"]. *)
Definition idle (info : WorkerInfo) : bool :=
  match worker_status info with
  | Some s => String.eqb s "idle"
  | None => false
  end.

(** [available_workers] of [_allocate_resources]. *)
Definition available_workers (worker_agents : list (string * WorkerInfo))
  : list string :=
  map fst (List.filter (fun entry => idle (snd entry)) worker_agents).

(** The [for subtask in subtasks] loop of [_allocate_resources]; [None]
    is an [IndexError]. *)
Fixpoint assign_loop (available : list string) (subtasks : list AgentTask)
         (worker_index : Z) (assignments : list (string * string))
  : option (list (string * string)) :=
  match subtasks with
  | [] => Some assignments
  | subtask :: rest =>
      match available !! Z.to_nat (worker_index mod Z.of_nat (length available)) with
      | Some worker_id =>
          assign_loop available rest (worker_index + 1)
                      (dict_set (task_id subtask) worker_id assignments)
      | None => None
      end
  end.

(** [_allocate_resources]. *)
Definition _allocate_resources (worker_agents : list (string * WorkerInfo))
           (subtasks : list AgentTask) : option (list (string * string)) :=
  match available_workers worker_agents with
  | [] => Some []
  | available => assign_loop available subtasks 0 []
  end.

(** [_find_suitable_worker]. *)
Definition _find_suitable_worker (worker_agents : list (string * WorkerInfo))
           (skill_requirement : string) : option string :=
  match List.find (fun entry => idle (snd entry)
                                && bool_decide (skill_requirement ∈ worker_skills (snd entry)))
                  worker_agents with
  | Some entry => Some (fst entry)
  | None =>
      match List.find (fun entry => idle (snd entry)) worker_agents with
      | Some entry => Some (fst entry)
      | None => None
      end
  end.

(** No task of the graph lists [node] as a dependency. *)
Definition unlisted (graph : Graph) (node : string) : bool :=
  forallb (fun item => match snd item with
                       | Some deps => negb (bool_decide (node ∈ deps))
                       | None => true
                       end) graph.

(** The number of times that the tasks of a graph list [node]. *)
Fixpoint listed (items : Graph) (node : string) : Z :=
  match items with
  | [] => 0
  | (_, Some deps) :: rest => Workflow.occurrences node deps + listed rest node
  | (_, None) :: rest => listed rest node
  end.

(** Every task of the graph has a list of dependencies. *)
Definition listed_deps (graph : Graph) : Prop :=
  forall item, item ∈ graph -> is_Some (snd item).

(** Every task of the list has a list of dependencies. *)
Definition with_dependencies (subtasks : list AgentTask) : Prop :=
  forall task, task ∈ subtasks -> is_Some (dependencies task).

(** Three subtasks in a chain: fetch, then parse, then report. *)
Definition pipeline : list AgentTask :=
  [mkTask "fetch" GENERAL_CHAT "" 1 (Some []);
   mkTask "parse" GENERAL_CHAT "" 1 (Some ["fetch"%string]);
   mkTask "report" GENERAL_CHAT "" 1 (Some ["parse"%string])].

(** Two idle workers and a busy one. *)
Definition crew : list (string * WorkerInfo) :=
  [("w1"%string, mkWorker (Some "idle"%string) ["search"%string]);
   ("w2"%string, mkWorker (Some "busy"%string) ["order"%string]);
   ("w3"%string, mkWorker (Some "idle"%string) ["order"%string])].

End Planner.

(* ===================================================================== *)
(** * workflow/workflow_models.py: the results of an execution            *)
(* ===================================================================== *)

Module StepResults.
Import Dict.

(** [ExecutionResult], with [success] and [data]. *)
Record ExecutionResult : Type := mkResult {
  success : bool;
  data : list (string * option string)
}.

(** [WorkflowExecution], with the attributes that [add_step_result]
    reads or writes. *)
Record WorkflowExecution : Type := mkExecution {
  context : list (string * option string);
  step_executions : list (string * ExecutionResult);
  completed_steps : Z;
  failed_steps : Z
}.

(** [d.update(other)]. *)
Definition update {V : Type} (d other : list (string * V))
  : list (string * V) :=
  fold_left (fun d kv => dict_set (fst kv) (snd kv) d) other d.

(** [add_step_result]. *)
Definition add_step_result (e : WorkflowExecution) (step_id : string)
           (result : ExecutionResult) : WorkflowExecution :=
  let step_executions := dict_set step_id result (step_executions e) in
  if success result
  then mkExecution (update (context e) (data result)) step_executions
                   (completed_steps e + 1) (failed_steps e)
  else mkExecution (context e) step_executions
                   (completed_steps e) (failed_steps e + 1).

(** [get_step_result]. *)
Definition get_step_result (e : WorkflowExecution) (step_id : string)
  : option ExecutionResult :=
  dict_get step_id (step_executions e).

(** [get_completed_step_ids]. *)
Definition get_completed_step_ids (e : WorkflowExecution) : list string :=
  map fst (List.filter (fun kv => success (snd kv)) (step_executions e)).

(** The calls of [add_step_result] made for a list of results. *)
Definition add_step_results (e : WorkflowExecution)
           (results : list (string * ExecutionResult)) : WorkflowExecution :=
  fold_left (fun e kv => add_step_result e (fst kv) (snd kv)) results e.

(** A new execution: the defaults of the dataclass. *)
Definition new_execution (context : list (string * option string))
  : WorkflowExecution :=
  mkExecution context [] 0 0.

End StepResults.

(* ===================================================================== *)
(** * Properties of the agent task queue                                  *)
(* ===================================================================== *)

Module AgentSpec.
Import Task Agent.

(** ** Insertion keeps the queue ordered and stable *)

Lemma insert_by_priority_perm task queue :
  insert_by_priority task queue ≡ₚ task :: queue.
Proof.
  induction queue as [|e rest IH]; simpl; [done|].
  destruct (priority e <? priority task); [done|].
  rewrite IH. apply Permutation_swap.
Qed.

Lemma insert_by_priority_sorted task queue :
  StronglySorted prio_ge queue ->
  StronglySorted prio_ge (insert_by_priority task queue).
Proof.
  induction 1 as [|e rest Hs IH Hall]; simpl.
  - repeat constructor.
  - destruct (Z.ltb_spec (priority e) (priority task)) as [Hlt|Hge].
    + constructor; [by constructor|].
      constructor; [unfold prio_ge; lia|].
      eapply Forall_impl; [exact Hall|]. unfold prio_ge. intros; simpl in *; lia.
    + constructor; [exact IH|].
      rewrite insert_by_priority_perm. constructor; [unfold prio_ge; lia|done].
Qed.

(** Tasks of one priority stay in arrival order: the new task goes
    behind every queued task of its own priority. *)
Lemma filter_priority_lower p (l : list AgentTask) :
  Forall (fun t => priority t < p) l ->
  filter (fun t => has_priority p t = true) l = [].
Proof.
  induction 1 as [|x l Hx _ IH]; [done|].
  rewrite filter_cons_False; [exact IH|].
  unfold has_priority. intros Heq%Z.eqb_eq. lia.
Qed.

(** Tasks of one priority stay in arrival order: the new task goes
    behind every queued task of its own priority. *)
Lemma insert_by_priority_stable p task queue :
  StronglySorted prio_ge queue ->
  filter (fun t => has_priority p t = true) (insert_by_priority task queue)
  = filter (fun t => has_priority p t = true) (queue ++ [task]).
Proof.
  induction 1 as [|e rest Hs IH Hall]; cbn [insert_by_priority app]; [done|].
  destruct (Z.ltb_spec (priority e) (priority task)) as [Hlt|Hge].
  - (* every queued task from here on has a lower priority than [task] *)
    assert (Hlow : Forall (fun t => priority t < priority task) (e :: rest)).
    { constructor; [done|]. eapply Forall_impl; [exact Hall|].
      unfold prio_ge. intros; simpl in *; lia. }
    change (e :: rest ++ [task]) with ((e :: rest) ++ [task]).
    rewrite filter_app.
    destruct (Z.eqb_spec (priority task) p) as [Hp|Hp].
    + subst p. rewrite (filter_priority_lower _ _ Hlow).
      rewrite !filter_cons_True by (by apply Z.eqb_eq).
      rewrite (filter_priority_lower _ _ Hlow).
      rewrite (filter_cons_True _ task []) by (by apply Z.eqb_eq).
      by rewrite filter_nil.
    + rewrite filter_cons_False by (by intros ?%Z.eqb_eq).
      rewrite (filter_cons_False _ task) by (by intros ?%Z.eqb_eq).
      by rewrite filter_nil, app_nil_r.
  - rewrite !(filter_cons _ e). rewrite IH. done.
Qed.

(** ** Sequences of [add_task] calls *)

Lemma add_task_accepts a t :
  has_unmet_dependency a t = false ->
  add_task a t = (true, with_task_queue a (insert_by_priority t (task_queue a))).
Proof. unfold add_task. by intros ->. Qed.

Lemma has_unmet_dependency_queue a q t :
  has_unmet_dependency (with_task_queue a q) t = has_unmet_dependency a t.
Proof. done. Qed.

Lemma add_tasks_spec (tasks : list AgentTask) : forall a,
  Forall (fun t => has_unmet_dependency a t = false) tasks ->
  StronglySorted prio_ge (task_queue a) ->
  Forall (fun ok => ok = true) (fst (add_tasks a tasks))
  /\ length (fst (add_tasks a tasks)) = length tasks
  /\ StronglySorted prio_ge (task_queue (snd (add_tasks a tasks)))
  /\ task_queue (snd (add_tasks a tasks)) ≡ₚ task_queue a ++ tasks
  /\ (forall p,
        filter (fun t => has_priority p t = true)
               (task_queue (snd (add_tasks a tasks)))
        = filter (fun t => has_priority p t = true) (task_queue a ++ tasks))
  /\ status (snd (add_tasks a tasks)) = status a
  /\ completed_tasks (snd (add_tasks a tasks)) = completed_tasks a.
Proof.
  induction tasks as [|t rest IH]; intros a Hdeps Hsorted.
  - cbn. rewrite app_nil_r. by repeat split.
  - apply Forall_cons in Hdeps as [Ht Hrest].
    cbn [add_tasks]. rewrite (add_task_accepts _ _ Ht).
    set (a1 := with_task_queue a (insert_by_priority t (task_queue a))).
    destruct (IH a1) as (Hoks & Hlen & Hs & Hperm & Hstable & Hst & Hcompl).
    { eapply Forall_impl; [exact Hrest|]. intros x Hx.
      unfold a1. by rewrite has_unmet_dependency_queue. }
    { by apply insert_by_priority_sorted. }
    destruct (add_tasks a1 rest) as [oks a2] eqn:Hadd. cbn [fst snd] in *.
    repeat split; try done.
    + by constructor.
    + cbn. by rewrite Hlen.
    + rewrite Hperm. cbn [a1 task_queue with_task_queue].
      rewrite insert_by_priority_perm.
      change (t :: rest) with ([t] ++ rest). rewrite (assoc_L (++)).
      apply Permutation_app_tail. apply Permutation_cons_append.
    + intros p. rewrite Hstable. cbn [a1 task_queue with_task_queue].
      rewrite !filter_app. rewrite (insert_by_priority_stable p t _ Hsorted).
      rewrite filter_app. rewrite <- (assoc_L (++)).
      by rewrite <- filter_app.
Qed.

(** ** The main loop takes the queue from the front *)

Lemma run_loop_drains process_task (q : list AgentTask) : forall a,
  status a = IDLE -> task_queue a = q ->
  completed_tasks (run_loop process_task (length q) a)
    = completed_tasks a ++ map (execution_of process_task (agent_id a)) q
  /\ task_queue (run_loop process_task (length q) a) = []
  /\ status (run_loop process_task (length q) a) = IDLE.
Proof.
  induction q as [|t rest IH]; intros a Hidle Hq.
  - cbn. by rewrite app_nil_r.
  - cbn [length run_loop]. unfold _process_tasks at 1 2 3.
    rewrite Hidle, Hq. cbn [AgentStatus_eqb negb].
    match goal with |- context [run_loop _ _ ?x] => destruct (IH x) as (Hc & Hqe & Hs) end;
      [done|done|].
    rewrite Hc, Hqe, Hs. cbn [completed_tasks agent_id].
    rewrite <- (assoc_L (++)). done.
Qed.

Lemma dequeue_order_front process_task a :
  status a = IDLE ->
  dequeue_order process_task a = map task_id (task_queue a).
Proof.
  intros Hidle. unfold dequeue_order.
  destruct (run_loop_drains process_task (task_queue a) a Hidle eq_refl)
    as (-> & _ & _).
  rewrite drop_app_length, map_map. done.
Qed.

(** C2.  Tasks accepted by [add_task] keep the queue ordered by
    non-increasing priority, tasks of one priority stay in the order in
    which they were added (behind the queued tasks of that priority), the
    queue holds exactly the old and the new tasks, and the main loop takes
    tasks from the front: the order of execution is the order of the queue.
    For priorities 1, 5, 3, 5, 2 added to a fresh agent, the execution
    order is 5, 5, 3, 2, 1 with the first priority-5 task before the
    second. *)
Theorem add_task_priority_order (a : BaseAgent) (tasks : list AgentTask)
    (process_task : AgentTask -> Outcome) :
  status a = IDLE ->
  StronglySorted prio_ge (task_queue a) ->
  Forall (fun t => has_unmet_dependency a t = false) tasks ->
  let a' := snd (add_tasks a tasks) in
  Forall (fun ok => ok = true) (fst (add_tasks a tasks))
  /\ StronglySorted prio_ge (task_queue a')
  /\ task_queue a' ≡ₚ task_queue a ++ tasks
  /\ (forall p,
        filter (fun t => has_priority p t = true) (task_queue a')
        = filter (fun t => has_priority p t = true) (task_queue a ++ tasks))
  /\ dequeue_order process_task a' = map task_id (task_queue a')
  /\ dequeue_order process_task (snd (add_tasks (init "agent") example_tasks))
     = ["t2"; "t4"; "t3"; "t5"; "t1"]%string.
Proof.
  intros Hidle Hsorted Hdeps a'.
  destruct (add_tasks_spec tasks a Hdeps Hsorted)
    as (Hoks & _ & Hs & Hperm & Hstable & Hst & _).
  split; [exact Hoks|]. split; [exact Hs|]. split; [exact Hperm|].
  split; [exact Hstable|]. split.
  - apply dequeue_order_front. subst a'. by rewrite Hst.
  - rewrite dequeue_order_front by done. vm_compute. done.
Qed.

Lemma add_task_priority_order_witness :
  dequeue_order (fun _ => Returned) (snd (add_tasks (init "agent") example_tasks))
  = map task_id (task_queue (snd (add_tasks (init "agent") example_tasks))).
Proof.
  refine (proj1 (proj2 (proj2 (proj2 (proj2
    (add_task_priority_order (init "agent") example_tasks (fun _ => Returned)
       _ _ _)))))).
  - reflexivity.
  - constructor.
  - unfold example_tasks. repeat constructor.
Defined.

(** C4.  A task that lists dependencies is refused (the flag is false and
    the agent, hence its queue, is unchanged) unless every listed id has a
    [TaskExecution] with status [COMPLETED] in [completed_tasks]; when they
    all have one, the task is accepted and inserted by priority. *)
Theorem add_task_dependency_gate (a : BaseAgent) (t : AgentTask)
    (deps : list string) :
  dependencies t = Some deps ->
  deps <> [] ->
  let satisfied :=
    forall d, d ∈ deps ->
      exists e, e ∈ completed_tasks a /\ exec_task_id e = d
                /\ exec_status e = COMPLETED in
  (~ satisfied -> add_task a t = (false, a))
  /\ (satisfied ->
      fst (add_task a t) = true
      /\ snd (add_task a t)
         = with_task_queue a (insert_by_priority t (task_queue a))
      /\ t ∈ task_queue (snd (add_task a t))).
Proof.
  intros Hdeps _ satisfied.
  assert (Hiff : forallb (_is_dependency_satisfied a) deps = true <-> satisfied).
  { unfold satisfied. rewrite forallb_forall. split.
    - intros H d Hd. apply list_elem_of_In in Hd. specialize (H d Hd).
      unfold _is_dependency_satisfied in H. apply existsb_exists in H.
      destruct H as (e & He & Hb). apply andb_true_iff in Hb as [H1 H2].
      exists e. split; [by apply list_elem_of_In|].
      split; [by apply String.eqb_eq|]. by destruct (exec_status e).
    - intros H d Hd. apply list_elem_of_In in Hd.
      destruct (H d Hd) as (e & He & Hid & Hst).
      unfold _is_dependency_satisfied. apply existsb_exists.
      exists e. split; [by apply list_elem_of_In|].
      rewrite Hid, Hst, String.eqb_refl. done. }
  unfold add_task, has_unmet_dependency. rewrite Hdeps.
  destruct (forallb (_is_dependency_satisfied a) deps) eqn:Hall; cbn [negb].
  - split; [intros Hn; exfalso; apply Hn; by apply Hiff|].
    intros _. cbn [fst snd with_task_queue task_queue].
    repeat split. rewrite insert_by_priority_perm. left.
  - split; [done|]. intros Hs. apply Hiff in Hs. done.
Qed.

Lemma add_task_dependency_gate_witness :
  fst (add_task gate_agent gate_task) = true
  /\ add_task (init "agent") gate_task = (false, init "agent").
Proof.
  split.
  - refine (proj1 (proj2 (add_task_dependency_gate gate_agent gate_task
                            ["X"%string] eq_refl _) _)); [done|].
    intros d ->%list_elem_of_singleton.
    exists (mkExec "X" "agent" COMPLETED true). split; [left|done].
  - refine (proj1 (add_task_dependency_gate (init "agent") gate_task
                     ["X"%string] eq_refl _) _); [done|].
    intros H. destruct (H "X"%string) as (e & He & _); [left|].
    cbn in He. by apply not_elem_of_nil in He.
Defined.

End AgentSpec.

(* ===================================================================== *)
(** * Properties of the tool wrapper                                      *)
(* ===================================================================== *)

Module ToolSpec.
Import Tool.

Section Run.

Variable Params : Type.
Variable validate_parameters : Params -> list string.
Variable _generate_cache_key : string -> Params -> option string.

Abbreviation run := (run Params validate_parameters _generate_cache_key).
Abbreviation path := (path Params validate_parameters _generate_cache_key).
Abbreviation run_calls := (run_calls Params validate_parameters _generate_cache_key).

(** ** The helpers leave the counters alone *)

Lemma check_rate_limit_frame t now :
  let t' := snd (_check_rate_limit t now) in
  counters t' = counters t /\ execute_calls t' = execute_calls t
  /\ cache t' = cache t /\ cache_timestamps t' = cache_timestamps t
  /\ config t' = config t /\ tool_name t' = tool_name t.
Proof.
  unfold _check_rate_limit.
  by destruct (rate_limit_per_minute (config t) <=? _).
Qed.

Lemma get_from_cache_frame t key now :
  let t' := snd (_get_from_cache t key now) in
  counters t' = counters t /\ execute_calls t' = execute_calls t
  /\ config t' = config t /\ tool_name t' = tool_name t
  /\ rate_limit_timestamps t' = rate_limit_timestamps t.
Proof.
  unfold _get_from_cache.
  destruct (negb (cache_enabled (config t))); [done|].
  destruct (cache t !! key); [|done].
  destruct (cache_timestamps t !! key); [|done].
  by destruct (_ <? _).
Qed.

(** A lookup never adds an entry. *)
Lemma get_from_cache_subset t key now k r :
  cache (snd (_get_from_cache t key now)) !! k = Some r -> cache t !! k = Some r.
Proof.
  unfold _get_from_cache.
  destruct (negb (cache_enabled (config t))); [done|].
  destruct (cache t !! key) eqn:Hk; [|done].
  destruct (cache_timestamps t !! key); [|done].
  destruct (_ <? _); [|done].
  cbn. intros H. apply lookup_delete_Some in H. tauto.
Qed.

(** A lookup returns what is stored. *)
Lemma get_from_cache_hit t key now r :
  fst (_get_from_cache t key now) = Some r ->
  cache t !! key = Some r /\ snd (_get_from_cache t key now) = t.
Proof.
  unfold _get_from_cache.
  destruct (negb (cache_enabled (config t))); [done|].
  destruct (cache t !! key) eqn:Hk; [|done].
  destruct (cache_timestamps t !! key); [|by intros [= ->]].
  destruct (_ <? _); [done|by intros [= ->]].
Qed.

(** ** One call of [run], path by path *)

Ltac split_run t kwargs clock :=
  unfold Tool.run, Tool.path;
  destruct (validate_parameters kwargs) as [|? ?] eqn:Hvalid;
  [ destruct (_check_rate_limit (started t (t_start clock)) (t_rate clock))
      as [allowed t1] eqn:Hrate;
    destruct allowed; cbn [negb];
    [ destruct (_generate_cache_key (tool_name t1) kwargs) as [cache_key|] eqn:Hkey;
      [ destruct (_get_from_cache t1 cache_key (t_lookup clock))
          as [cached t2] eqn:Hget;
        destruct cached as [cached|]; cbn [fst]
      | ]
    | ]
  | ].

(** What the two helpers preserve, for the tools named by [split_run]. *)
Ltac rate_frame :=
  match goal with
  | H : _check_rate_limit ?a ?now = (_, ?t1) |- _ =>
      let Hr := fresh "Hr" in
      pose proof (check_rate_limit_frame a now) as Hr;
      rewrite H in Hr; unfold counters in Hr; cbn in Hr;
      destruct Hr as (Hr & Hrcalls & Hrcache & Hrstamps & Hrconfig & Hrname);
      injection Hr as Hrexec Hrsucc Hrfail
  end.

Ltac cache_frame :=
  match goal with
  | H : _get_from_cache ?a ?key ?now = (_, ?t2) |- _ =>
      let Hg := fresh "Hg" in
      pose proof (get_from_cache_frame a key now) as Hg;
      rewrite H in Hg; unfold counters in Hg; cbn in Hg;
      destruct Hg as (Hg & Hgcalls & Hgconfig & Hgname & Hgrate);
      injection Hg as Hgexec Hgsucc Hgfail
  end.

Ltac close_counters :=
  unfold counters; cbn; repeat split; congruence.

Lemma run_counters t kwargs clock outcome :
  let t' := snd (run t kwargs clock outcome) in
  match path t kwargs clock with
  | InvalidParameters | RateLimited | NoCacheKey =>
      counters t' = (execution_count t, success_count t, failure_count t + 1)
      /\ execute_calls t' = execute_calls t
  | CacheHit =>
      counters t' = counters t /\ execute_calls t' = execute_calls t
  | Executed =>
      execute_calls t' = S (execute_calls t)
      /\ match outcome with
         | Returns result =>
             counters t'
             = if success result
               then (execution_count t + 1, success_count t + 1, failure_count t)
               else (execution_count t + 1, success_count t, failure_count t + 1)
         | IsCancelled => counters t' = counters t
         | TimesOut | Raises _ =>
             counters t' = (execution_count t, success_count t, failure_count t + 1)
         end
  end.
Proof.
  split_run t kwargs clock; try rate_frame; try cache_frame.
  - (* cache hit *) close_counters.
  - (* executed *)
    destruct outcome as [result| | |text]; try close_counters.
    unfold record_result, _save_to_cache. cbn [success].
    destruct (success result); cbn [negb orb]; [|close_counters].
    destruct (negb _ || false); close_counters.
  - (* the cache key cannot be built *) close_counters.
  - (* rate limited *) close_counters.
  - (* invalid parameters *) close_counters.
Qed.

Lemma run_counters_ok t kwargs clock outcome :
  counters_ok t -> counters_ok (snd (run t kwargs clock outcome)).
Proof.
  intros [H1 H2]. pose proof (run_counters t kwargs clock outcome) as H.
  unfold counters_ok, counters in *. cbn zeta in H.
  destruct (path t kwargs clock).
  1-4: destruct H as [[= -> -> ->] _]; lia.
  destruct H as [_ H].
  destruct outcome as [result| | |text]; [destruct (success result)| | |];
    injection H as -> -> ->; lia.
Qed.

Lemma run_calls_counters_ok calls : forall t,
  counters_ok t -> counters_ok (run_calls t calls).
Proof.
  induction calls as [|c rest IH]; intros t Ht; [done|].
  cbn. apply IH. by apply run_counters_ok.
Qed.

(** ** The state after a first, successful execution *)

Lemma first_call_state t kwargs clock result :
  cache_enabled (config t) = true ->
  path t kwargs clock = Executed ->
  success result = true ->
  let r1 := fst (run t kwargs clock (Returns result)) in
  let t1 := snd (run t kwargs clock (Returns result)) in
  exists cache_key,
    validate_parameters kwargs = []
    /\ _generate_cache_key (tool_name t) kwargs = Some cache_key
    /\ r1 = mkResult true (data result) (error_message result)
                     (t_end clock - t_start clock)
    /\ cache t1 !! cache_key = Some r1
    /\ cache_timestamps t1 !! cache_key = Some (t_save clock)
    /\ config t1 = config t /\ tool_name t1 = tool_name t
    /\ execute_calls t1 = S (execute_calls t).
Proof.
  intros Hen Hpath Hsucc. cbn zeta. revert Hpath.
  split_run t kwargs clock; try done; try rate_frame; try cache_frame.
  intros _. exists cache_key.
  unfold record_result, _save_to_cache. cbn [success]. rewrite Hsucc.
  assert (Hen2 : cache_enabled (config t2) = true) by congruence.
  cbn. rewrite Hen2. cbn.
  rewrite !lookup_insert_eq.
  repeat split; congruence.
Qed.

(** C10.  After any sequence of calls of [run] on a new tool the counters
    satisfy success_count <= execution_count <= success_count +
    failure_count, and one more call keeps it so; a call refused by the
    rate limiter and a call whose execution times out add one to
    failure_count and leave execution_count and success_count alone; a
    cache hit changes none of the three; and execution_count grows (by
    one) exactly when [execute] was reached and returned a result. *)
Theorem statistics_counters_invariant
    (name : string) (cfg : ToolConfig) (calls : list (Call Params))
    (kwargs : Params) (clock : Clock) (outcome : ExecOutcome) :
  let t := run_calls (init name cfg) calls in
  let t' := snd (run t kwargs clock outcome) in
  counters_ok t /\ counters_ok t'
  /\ (path t kwargs clock = RateLimited ->
      counters t' = (execution_count t, success_count t, failure_count t + 1))
  /\ (path t kwargs clock = Executed -> outcome = TimesOut ->
      counters t' = (execution_count t, success_count t, failure_count t + 1))
  /\ (path t kwargs clock = CacheHit -> counters t' = counters t)
  /\ (execution_count t' = execution_count t + 1 <->
      path t kwargs clock = Executed /\ exists result, outcome = Returns result)
  /\ (execution_count t' = execution_count t \/
      execution_count t' = execution_count t + 1).
Proof.
  intros t t'.
  assert (Ht : counters_ok t).
  { apply run_calls_counters_ok. unfold counters_ok. cbn. lia. }
  split; [exact Ht|]. split; [by apply run_counters_ok|].
  pose proof (run_counters t kwargs clock outcome) as H. cbn zeta in H.
  fold t' in H. unfold counters in *.
  destruct (path t kwargs clock).
  1-4: destruct H as [[= He Hs Hf] _]; rewrite ?He, ?Hs, ?Hf;
       repeat split; try done; try (intros; lia); try (intros [? _]; done);
       try (left; lia).
  destruct H as [_ H].
  destruct outcome as [result| | |text]; [destruct (success result)| | |];
    injection H as He Hs Hf; rewrite ?He, ?Hs, ?Hf;
    repeat split; try done; try (intros; lia); try (intros [_ [? ?]]; done);
    try (by eexists); try (left; lia); try (right; lia).
Qed.

(** C3, as the code has it.  When a call of [run] on a tool with the cache
    enabled reaches [execute] and gets a successful result, and the same
    arguments are passed again while the entry is no older than
    [cache_ttl_seconds], [execute] has been invoked exactly once after
    both calls; the second call is either answered from the cache, with
    the very result of the first call and no change to the cache, or it is
    refused by the rate limiter (which [run] consults before the cache)
    and returns the rate-limit error.  A call whose result has [success =
    false] never adds or replaces a cache entry. *)
Theorem cached_result_reused
    (t : BaseTool) (kwargs : Params) (clock1 clock2 : Clock)
    (result : ToolResult) (outcome2 : ExecOutcome) :
  cache_enabled (config t) = true ->
  path t kwargs clock1 = Executed ->
  success result = true ->
  t_lookup clock2 - t_save clock1 <= microseconds (cache_ttl_seconds (config t)) ->
  let r1 := fst (run t kwargs clock1 (Returns result)) in
  let t1 := snd (run t kwargs clock1 (Returns result)) in
  let r2 := fst (run t1 kwargs clock2 outcome2) in
  let t2 := snd (run t1 kwargs clock2 outcome2) in
  execute_calls t2 = S (execute_calls t)
  /\ (path t1 kwargs clock2 = CacheHit \/ path t1 kwargs clock2 = RateLimited)
  /\ (path t1 kwargs clock2 = CacheHit ->
      r2 = r1 /\ cache t2 = cache t1 /\ counters t2 = counters t1)
  /\ (path t1 kwargs clock2 = RateLimited ->
      r2 = error_result (RateLimitExceeded (rate_limit_per_minute (config t)))
                        (t_end clock2 - t_start clock2))
  /\ (forall t0 kwargs0 clock0 outcome0,
        success (fst (run t0 kwargs0 clock0 outcome0)) = false ->
        forall k r,
          cache (snd (run t0 kwargs0 clock0 outcome0)) !! k = Some r ->
          cache t0 !! k = Some r).
Proof.
  intros Hen Hpath Hsucc Hage r1 t1 r2 t2.
  destruct (first_call_state t kwargs clock1 result Hen Hpath Hsucc)
    as (key & Hvalid1 & Hkey1 & Hr1 & Hc1 & Hts1 & Hcfg1 & Hname1 & Hcalls1).
  fold r1 t1 in Hr1, Hc1, Hts1, Hcfg1, Hname1, Hcalls1.
  assert (Hsecond :
    (path t1 kwargs clock2 = CacheHit /\ r2 = r1 /\ cache t2 = cache t1
     /\ counters t2 = counters t1 /\ execute_calls t2 = execute_calls t1)
    \/ (path t1 kwargs clock2 = RateLimited
        /\ r2 = error_result (RateLimitExceeded (rate_limit_per_minute (config t)))
                             (t_end clock2 - t_start clock2)
        /\ execute_calls t2 = execute_calls t1)).
  { subst r2 t2. clearbody r1 t1. clear Hpath.
    unfold Tool.run, Tool.path. rewrite Hvalid1.
    destruct (_check_rate_limit (started t1 (t_start clock2)) (t_rate clock2))
      as [allowed t1'] eqn:Hrate.
    rate_frame.
    destruct allowed; cbn [negb].
    - left. rewrite Hrname, Hname1, Hkey1.
      unfold _get_from_cache. rewrite Hrconfig, Hcfg1, Hen. cbn [negb].
      rewrite Hrcache, Hrstamps, Hc1, Hts1.
      destruct (Z.ltb_spec (microseconds (cache_ttl_seconds (config t)))
                           (t_lookup clock2 - t_save clock1)) as [Hlt|_]; [lia|].
      cbn. unfold counters. cbn. repeat split; congruence.
    - right. cbn. rewrite Hrconfig, Hcfg1. repeat split; congruence. }
  split; [destruct Hsecond as [(_&_&_&_&->)|(_&_&->)]; exact Hcalls1|].
  split; [destruct Hsecond as [(->&_)|(->&_)]; [by left|by right]|].
  split; [intros Hp; destruct Hsecond as [(_&?&?&?&_)|(Hp'&_)];
          [done|congruence]|].
  split; [intros Hp; destruct Hsecond as [(Hp'&_)|(_&?&_)];
          [congruence|done]|].
  clear. intros t kwargs clock outcome.
  unfold Tool.run.
  destruct (validate_parameters kwargs) as [|? ?]; [|cbn; by intros _].
  destruct (_check_rate_limit (started t (t_start clock)) (t_rate clock))
    as [allowed t1] eqn:Hrate. rate_frame.
  destruct allowed; cbn [negb]; [|cbn; intros _ k r; by rewrite Hrcache].
  destruct (_generate_cache_key (tool_name t1) kwargs) as [key|];
    [|cbn; intros _ k r; by rewrite Hrcache].
  pose proof (get_from_cache_subset t1 key (t_lookup clock)) as Hsub.
  destruct (_get_from_cache t1 key (t_lookup clock)) as [cached t2].
  cbn [snd] in Hsub. rewrite Hrcache in Hsub.
  destruct cached as [cached|]; [cbn; intros _; exact Hsub|].
  destruct outcome as [result| | |text]; try (cbn; intros _; exact Hsub).
  unfold record_result. cbn [success].
  destruct (success result); [done|]. cbn. intros _. exact Hsub.
Qed.

End Run.

Lemma cached_result_reused_witness :
  let t0 := init "tool" default_config in
  let t1 := snd (unit_run t0 tt first_clock (Returns ok_result)) in
  execute_calls (snd (unit_run t1 tt second_clock TimesOut))
  = S (execute_calls t0).
Proof.
  refine (proj1 (cached_result_reused unit (fun _ => []) (fun name _ => Some name)
                   (init "tool" default_config) tt first_clock second_clock
                   ok_result TimesOut _ _ _ _)).
  - reflexivity.
  - vm_compute. reflexivity.
  - reflexivity.
  - vm_compute. discriminate.
Defined.

(** C3 as the specification words it fails where the rate limiter allows
    one call per minute: the first call executes and succeeds, the second
    comes ten seconds later, well inside the 300 seconds of the cache, and
    is answered with the rate-limit error instead of the cached result. *)
Lemma second_call_rate_limited :
  let t0 := init "tool" strict_config in
  let first := unit_run t0 tt first_clock (Returns ok_result) in
  let second := unit_run (snd first) tt second_clock (Returns ok_result) in
  cache_enabled (config t0) = true
  /\ unit_path t0 tt first_clock = Executed
  /\ success (fst first) = true
  /\ t_lookup second_clock - t_start first_clock
     <= microseconds (cache_ttl_seconds (config t0))
  /\ fst second <> fst first
  /\ fst second = error_result (RateLimitExceeded 1) 1000.
Proof.
  vm_compute. repeat split; try discriminate.
Qed.

End ToolSpec.

(* ===================================================================== *)
(** * Properties of insertion-ordered dictionaries                        *)
(* ===================================================================== *)

Module DictSpec.
Import Dict.

Section Dict.
Context {V : Type}.
Implicit Types (d : list (string * V)) (k : string) (v : V).

Lemma dict_get_nil k : dict_get k ([] : list (string * V)) = None.
Proof. done. Qed.

Lemma dict_get_cons k k' v d :
  dict_get k ((k', v) :: d) = if decide (k' = k) then Some v else dict_get k d.
Proof.
  unfold dict_get. cbn.
  destruct (String.eqb_spec k' k); by case_decide.
Qed.

Lemma dict_get_set k k' v d :
  dict_get k (dict_set k' v d)
  = if decide (k' = k) then Some v else dict_get k d.
Proof.
  induction d as [|[k0 v0] d IH]; cbn [dict_set].
  - rewrite dict_get_cons, dict_get_nil. done.
  - destruct (String.eqb_spec k0 k') as [->|Hne].
    + rewrite !dict_get_cons. by repeat case_decide.
    + rewrite !dict_get_cons, IH. repeat case_decide; congruence.
Qed.

Lemma dict_get_is_Some k d : is_Some (dict_get k d) <-> k ∈ dict_keys d.
Proof.
  induction d as [|[k0 v0] d IH].
  - rewrite dict_get_nil. cbn. split; [by intros [? ?]|by intros ?%not_elem_of_nil].
  - rewrite dict_get_cons. cbn. rewrite elem_of_cons.
    case_decide; [subst; split; eauto|]. rewrite IH. naive_solver.
Qed.

Lemma dict_get_None k d : dict_get k d = None <-> k ∉ dict_keys d.
Proof. rewrite <- dict_get_is_Some, eq_None_not_Some. done. Qed.

(** Assigning to a key that is present keeps the order of the keys. *)
Lemma dict_keys_set_present k v d :
  k ∈ dict_keys d -> dict_keys (dict_set k v d) = dict_keys d.
Proof.
  induction d as [|[k0 v0] d IH]; cbn; [by intros ?%not_elem_of_nil|].
  intros Hin. destruct (String.eqb_spec k0 k) as [->|Hne]; [done|].
  cbn. f_equal. apply IH. apply elem_of_cons in Hin. naive_solver.
Qed.

(** Assigning to a new key puts it last. *)
Lemma dict_keys_set_absent k v d :
  k ∉ dict_keys d -> dict_keys (dict_set k v d) = dict_keys d ++ [k].
Proof.
  induction d as [|[k0 v0] d IH]; cbn; [done|].
  intros Hin. apply not_elem_of_cons in Hin as [Hne Hin].
  destruct (String.eqb_spec k0 k) as [->|_]; [done|].
  cbn. f_equal. by apply IH.
Qed.

Lemma dict_keys_set_NoDup k v d :
  NoDup (dict_keys d) -> NoDup (dict_keys (dict_set k v d)).
Proof.
  intros Hnd. destruct (decide (k ∈ dict_keys d)) as [Hin|Hout].
  - by rewrite dict_keys_set_present.
  - rewrite dict_keys_set_absent by done.
    apply NoDup_app. split; [done|]. split; [|apply NoDup_singleton].
    intros x Hx ->%list_elem_of_singleton. done.
Qed.

Lemma dict_keys_set_elem k k' v d :
  k ∈ dict_keys (dict_set k' v d) <-> k = k' \/ k ∈ dict_keys d.
Proof.
  rewrite <- !dict_get_is_Some, dict_get_set.
  case_decide; [subst; split; eauto|]. naive_solver.
Qed.

(** With distinct keys, the items are exactly the lookups. *)
Lemma dict_get_item k v d :
  NoDup (dict_keys d) -> (k, v) ∈ d <-> dict_get k d = Some v.
Proof.
  induction d as [|[k0 v0] d IH]; intros Hnd.
  - rewrite dict_get_nil. split; [by intros ?%not_elem_of_nil|done].
  - cbn in Hnd. apply NoDup_cons in Hnd as [Hk0 Hnd].
    rewrite dict_get_cons, elem_of_cons, (IH Hnd).
    case_decide as Hk; [subst k0|].
    + split; [intros [[= ->]|Hget]; [done|]|intros [= ->]; by left].
      exfalso. apply Hk0. apply dict_get_is_Some. eauto.
    + split; [intros [[= -> ->]|Hget]; done|by right].
Qed.

End Dict.

End DictSpec.

(* ===================================================================== *)
(** * Properties of the workflow models                                   *)
(* ===================================================================== *)

Module WorkflowSpec.
Import Dict DictSpec Workflow.

(** ** Membership in the lists built by the standard list functions *)

Lemma elem_of_map {A B : Type} (f : A -> B) (l : list A) (y : B) :
  y ∈ map f l <-> exists x, y = f x /\ x ∈ l.
Proof.
  rewrite list_elem_of_In, in_map_iff. setoid_rewrite list_elem_of_In.
  split; intros (x & H1 & H2); by exists x.
Qed.

Lemma elem_of_flat_map {A B : Type} (f : A -> list B) (l : list A) (y : B) :
  y ∈ flat_map f l <-> exists x, x ∈ l /\ y ∈ f x.
Proof.
  rewrite list_elem_of_In, in_flat_map. by setoid_rewrite list_elem_of_In.
Qed.

Lemma elem_of_concat {A : Type} (ls : list (list A)) (y : A) :
  y ∈ concat ls <-> exists l, l ∈ ls /\ y ∈ l.
Proof.
  rewrite list_elem_of_In, in_concat. by setoid_rewrite list_elem_of_In.
Qed.

Lemma elem_of_List_filter {A : Type} (p : A -> bool) (l : list A) (x : A) :
  x ∈ List.filter p l <-> x ∈ l /\ p x = true.
Proof. by rewrite !list_elem_of_In, filter_In. Qed.

(** ** Counting *)

Section Count.
Context {A : Type}.
Implicit Types (p q : A -> bool) (l : list A).

Lemma count_nonneg p l : 0 <= count p l.
Proof. induction l as [|x l IH]; cbn; [done|]. destruct (p x); lia. Qed.

Lemma count_app p l1 l2 : count p (l1 ++ l2) = count p l1 + count p l2.
Proof. induction l1 as [|x l1 IH]; cbn; [done|]. rewrite IH. lia. Qed.

Lemma count_ext p q l :
  (forall x, x ∈ l -> p x = q x) -> count p l = count q l.
Proof.
  induction l as [|x l IH]; intros H; cbn; [done|].
  rewrite (H x) by left. rewrite IH; [done|]. intros y Hy. apply H. by right.
Qed.

Lemma count_zero p l : count p l = 0 <-> forall x, x ∈ l -> p x = false.
Proof.
  induction l as [|x l IH]; cbn.
  - split; [by intros _ x ?%not_elem_of_nil|done].
  - pose proof (count_nonneg p l). split.
    + intros H0 y Hy. apply elem_of_cons in Hy as [->|Hy].
      * destruct (p x); [lia|done].
      * apply IH; [|done]. destruct (p x); lia.
    + intros Hall. rewrite (Hall x) by left.
      apply IH. intros y Hy. apply Hall. by right.
Qed.

Lemma count_pos p l : 0 < count p l <-> exists x, x ∈ l /\ p x = true.
Proof.
  pose proof (count_nonneg p l). split.
  - intros Hpos. destruct (decide (count p l = 0)) as [H0|_]; [lia|].
    induction l as [|x l IH]; cbn in *; [lia|].
    destruct (p x) eqn:Hx; [exists x; split; [left|done]|].
    destruct IH as (y & Hy & Hpy); [apply count_nonneg|lia|].
    exists y. split; [by right|done].
  - intros (x & Hx & Hpx). destruct (decide (count p l = 0)) as [H0|]; [|lia].
    rewrite count_zero in H0. rewrite (H0 x Hx) in Hpx. done.
Qed.

(** Two predicates that exclude each other. *)
Lemma count_disjoint p q l :
  (forall x, x ∈ l -> p x = true -> q x = false) ->
  count (fun x => p x || q x) l = count p l + count q l.
Proof.
  induction l as [|x l IH]; intros H; cbn; [done|].
  rewrite IH by (intros y Hy; apply H; by right).
  destruct (p x) eqn:Hp; cbn; [rewrite (H x) by (done || left)|destruct (q x)]; lia.
Qed.

Lemma count_filter p q l :
  count p (List.filter q l) = count (fun x => q x && p x) l.
Proof.
  induction l as [|x l IH]; cbn; [done|].
  destruct (q x); cbn; rewrite IH; done.
Qed.

Lemma count_map {B : Type} (f : B -> A) p (l : list B) :
  count p (map f l) = count (fun x => p (f x)) l.
Proof. induction l as [|x l IH]; cbn; [done|]. by rewrite IH. Qed.

End Count.

(** ** The graph built by [get_execution_order] *)

Lemma successors_app E1 E2 d :
  successors (E1 ++ E2) d = successors E1 d ++ successors E2 d.
Proof. unfold successors. by rewrite List.filter_app, map_app. Qed.

Lemma in_degree_after_app E1 E2 P s :
  in_degree_after (E1 ++ E2) P s = in_degree_after E1 P s + in_degree_after E2 P s.
Proof. apply count_app. Qed.

Lemma represents_edge K E st dep id successors_dep degree :
  represents K E st -> dep ∈ K -> id ∈ K ->
  dict_get dep (fst st) = Some successors_dep ->
  dict_get id (snd st) = Some degree ->
  represents K (E ++ [(dep, id)])
             (dict_set dep (successors_dep ++ [id]) (fst st),
              dict_set id (degree + 1) (snd st)).
Proof.
  intros (Hin & Hout & Hnd) Hdep Hid Hs Hd.
  split; [|split].
  - intros k Hk. destruct (Hin k Hk) as [Hg Hi]. cbn [fst snd].
    rewrite !dict_get_set, successors_app, in_degree_after_app.
    unfold successors at 2, in_degree_after at 2. cbn.
    rewrite (bool_decide_eq_false_2 (dep ∈ [])) by apply not_elem_of_nil.
    split.
    + case_decide as Hk'; [subst k|].
      * rewrite String.eqb_refl. cbn. congruence.
      * destruct (String.eqb_spec dep k); [done|]. cbn. by rewrite app_nil_r.
    + case_decide as Hk'; [subst k|].
      * rewrite String.eqb_refl. cbn. f_equal. destruct (Hin id Hid). 
        assert (degree = in_degree_after E [] id) by congruence. lia.
      * destruct (String.eqb_spec id k); [done|]. cbn. rewrite Hi. f_equal. lia.
  - intros k Hk. destruct (Hout k Hk) as [Hg Hi]. cbn [fst snd].
    rewrite !dict_get_set.
    repeat case_decide; subst; done.
  - cbn [snd]. by apply dict_keys_set_NoDup.
Qed.

Lemma add_edges_represents K id (deps : list string) : forall E st,
  represents K E st -> id ∈ K ->
  exists st', add_edges id deps st = Some st'
              /\ represents K (E ++ edges_of K id deps) st'.
Proof.
  induction deps as [|dep rest IH]; intros E st Hrep Hid; cbn.
  - exists st. by rewrite app_nil_r.
  - destruct (decide (dep ∈ K)) as [Hdep|Hdep].
    + destruct Hrep as (Hin & Hout & Hnd).
      destruct (Hin dep Hdep) as [-> _]. destruct (Hin id Hid) as [_ ->].
      rewrite bool_decide_eq_true_2 by done.
      edestruct (IH (E ++ [(dep, id)])) as (st' & -> & Hrep');
        [eapply represents_edge; try done; [by apply Hin..]|done|].
      exists st'. split; [done|]. by rewrite <- (assoc_L (++)) in Hrep'.
    + destruct Hrep as (Hin & Hout & Hnd).
      destruct (Hout dep Hdep) as [-> _].
      rewrite bool_decide_eq_false_2 by done. cbn.
      by apply IH.
Qed.

Lemma build_graph_represents K (todo : list WorkflowStep) : forall E st,
  represents K E st ->
  (forall step, step ∈ todo -> step_id step ∈ K) ->
  exists st', build_graph todo st = Some st'
              /\ represents K
                   (E ++ flat_map (fun step =>
                           edges_of K (step_id step) (dependencies step)) todo)
                   st'.
Proof.
  induction todo as [|step rest IH]; intros E st Hrep Hids; cbn.
  - exists st. by rewrite app_nil_r.
  - destruct (add_edges_represents K (step_id step) (dependencies step) E st)
      as (st1 & -> & Hrep1); [done|apply Hids; left|].
    destruct (IH _ st1 Hrep1) as (st' & -> & Hrep');
      [intros; apply Hids; by right|].
    exists st'. split; [done|]. by rewrite <- (assoc_L (++)) in Hrep'.
Qed.

Lemma initial_dict_get {V : Type} (c : V) (l : list WorkflowStep) : forall d k,
  dict_get k (fold_left (fun d step => dict_set (step_id step) c d) l d)
  = if decide (k ∈ map step_id l) then Some c else dict_get k d.
Proof.
  induction l as [|x l IH]; intros d k; cbn [fold_left map].
  - case_decide as H; [by apply not_elem_of_nil in H|done].
  - rewrite IH, dict_get_set.
    repeat case_decide; try done; set_solver.
Qed.

Lemma initial_dict_NoDup {V : Type} (c : V) (l : list WorkflowStep) : forall d,
  NoDup (dict_keys d) ->
  NoDup (dict_keys (fold_left (fun d step => dict_set (step_id step) c d) l d)).
Proof.
  induction l as [|x l IH]; intros d Hnd; cbn [fold_left]; [done|].
  apply IH. by apply dict_keys_set_NoDup.
Qed.

Lemma initial_represents w :
  represents (step_ids w) [] (initial_graph w, initial_in_degree w).
Proof.
  unfold represents, initial_graph, initial_in_degree, step_ids. cbn [fst snd].
  split; [|split].
  - intros k Hk. rewrite !initial_dict_get. by rewrite !decide_True.
  - intros k Hk. rewrite !initial_dict_get. by rewrite !decide_False.
  - apply initial_dict_NoDup. constructor.
Qed.

(** [get_execution_order] builds the graph of [edges w]. *)
Lemma build_graph_edges w :
  exists st, build_graph (steps w) (initial_graph w, initial_in_degree w) = Some st
             /\ represents (step_ids w) (edges w) st.
Proof.
  destruct (build_graph_represents (step_ids w) (steps w) [] _ (initial_represents w))
    as (st & Hb & Hrep).
  - intros step Hstep. apply elem_of_map. eauto.
  - by exists st.
Qed.

(** ** One pass over a level *)

Lemma occurrences_cons k n ns :
  occurrences k (n :: ns) = (if decide (n = k) then 1 else 0) + occurrences k ns.
Proof.
  unfold occurrences. cbn. destruct (String.eqb_spec n k); by case_decide.
Qed.

Lemma occurrences_pos k ns : 0 < occurrences k ns <-> k ∈ ns.
Proof.
  unfold occurrences. rewrite count_pos. split.
  - intros (x & Hx & Heq). apply String.eqb_eq in Heq. by subst.
  - intros Hk. exists k. split; [done|apply String.eqb_refl].
Qed.

Lemma occurrences_nonneg k ns : 0 <= occurrences k ns.
Proof. apply count_nonneg. Qed.

(** The inner loop subtracts from each counter the number of times its
    key is met and appends to the queue the keys whose counter reaches
    zero; when no counter is driven below zero, those are the keys met
    whose counter ends at zero, each once. *)
Lemma relax_spec (ns : list string) : forall (d : list (string * Z)) q,
  (forall n, n ∈ ns -> is_Some (dict_get n d)) ->
  exists d' hits,
    relax ns (d, q) = Some (d', q ++ hits)
    /\ (forall k, dict_get k d' = (fun v => v - occurrences k ns) <$> dict_get k d)
    /\ ((forall k v, k ∈ ns -> dict_get k d = Some v -> occurrences k ns <= v) ->
        NoDup hits
        /\ forall k, k ∈ hits <-> k ∈ ns /\ dict_get k d = Some (occurrences k ns)).
Proof.
  induction ns as [|n rest IH]; intros d q Hkeys.
  - exists d, []. cbn [relax]. rewrite app_nil_r. split; [done|]. split.
    + intros k. destruct (dict_get k d); cbn; [f_equal; unfold occurrences; cbn; lia|done].
    + intros _. split; [constructor|]. intros k. split.
      * by intros ?%not_elem_of_nil.
      * by intros [?%not_elem_of_nil _].
  - destruct (Hkeys n) as [v Hv]; [left|].
    cbn [relax fst snd]. rewrite Hv.
    set (d1 := dict_set n (v - 1) d).
    set (q1 := if v - 1 =? 0 then q ++ [n] else q).
    destruct (IH d1 q1) as (d' & hits' & Hrun & Hget & Hhits).
    { intros m Hm. unfold d1. rewrite dict_get_set. case_decide; [eauto|].
      apply Hkeys. by right. }
    exists d', ((if v - 1 =? 0 then [n] else []) ++ hits').
    split; [|split].
    + rewrite Hrun. f_equal. f_equal. unfold q1.
      destruct (v - 1 =? 0); by rewrite <- ?(assoc_L (++)).
    + intros k. rewrite Hget. unfold d1. rewrite dict_get_set, occurrences_cons.
      case_decide as Hk; [subst k; rewrite Hv; cbn; f_equal; lia|].
      destruct (dict_get k d); cbn; [f_equal; lia|done].
    + intros Hle.
      assert (Hv1 : 1 + occurrences n rest <= v).
      { specialize (Hle n v). rewrite occurrences_cons, decide_True in Hle by done.
        apply Hle; [left|done]. }
      destruct Hhits as [Hnd Hmem].
      { intros k v' Hk. unfold d1. rewrite dict_get_set.
        case_decide as Hkn; [subst k; intros [= <-]; lia|].
        intros Hv'. specialize (Hle k v'). rewrite occurrences_cons, decide_False in Hle by done.
        apply Hle; [by right|done]. }
      assert (Hother : forall k, k <> n ->
                k ∈ hits' <-> k ∈ n :: rest /\ dict_get k d = Some (occurrences k (n :: rest))).
      { intros k Hk. rewrite Hmem. unfold d1.
        rewrite dict_get_set, decide_False by done.
        rewrite occurrences_cons, decide_False by done.
        rewrite elem_of_cons, Z.add_0_l. naive_solver. }
      pose proof (occurrences_nonneg n rest) as Hnn.
      destruct (Z.eqb_spec (v - 1) 0) as [Hz|Hnz].
      * assert (Hn : n ∉ hits').
        { rewrite Hmem. intros [Hin _]. apply occurrences_pos in Hin. lia. }
        split; [cbn [app]; by apply NoDup_cons|].
        intros k. cbn [app]. rewrite elem_of_cons.
        destruct (decide (k = n)) as [->|Hk].
        -- split; [intros _|by left]. split; [left|].
           rewrite Hv, occurrences_cons, decide_True by done. f_equal. lia.
        -- rewrite <- (Hother k Hk). naive_solver.
      * split; [done|]. intros k. cbn [app].
        destruct (decide (k = n)) as [->|Hk]; [|by apply Hother].
        rewrite Hmem. unfold d1. rewrite dict_get_set, decide_True by done.
        rewrite Hv, occurrences_cons, decide_True by done. split.
        -- intros [Hin [= Heq]]. split; [left|f_equal; lia].
        -- intros [_ [= Heq]]. split; [|f_equal; lia].
           apply occurrences_pos. lia.
Qed.

Lemma relax_app (a b : list string) : forall st,
  relax (a ++ b) st
  = match relax a st with Some st' => relax b st' | None => None end.
Proof.
  induction a as [|n a IH]; intros st; cbn; [done|].
  destruct (dict_get n (fst st)); [apply IH|done].
Qed.

(** A pass over a level is one run of the inner loop over the successors
    of its steps, in order. *)
Lemma process_level_relax graph E (level : list string) : forall st,
  (forall m, m ∈ level -> dict_get m graph = Some (successors E m)) ->
  process_level graph level st = relax (flat_map (successors E) level) st.
Proof.
  induction level as [|m level IH]; intros st Hg; cbn; [done|].
  rewrite (Hg m) by left. rewrite relax_app.
  destruct (relax (successors E m) st); [|done].
  apply IH. intros; apply Hg; by right.
Qed.

(** The successors of the steps of a level, counted per target. *)
Lemma occurrences_successors E (level : list string) k :
  NoDup level ->
  occurrences k (flat_map (successors E) level)
  = count (fun e => String.eqb (snd e) k && bool_decide (fst e ∈ level)) E.
Proof.
  induction 1 as [|m level Hm Hnd IH]; cbn.
  - symmetry. apply count_zero. intros e _.
    rewrite (bool_decide_eq_false_2 (e.1 ∈ [])) by apply not_elem_of_nil.
    apply andb_false_r.
  - unfold occurrences in *. rewrite count_app, IH.
    unfold successors. rewrite count_map, count_filter.
    rewrite <- count_disjoint.
    + apply count_ext. intros e _.
      destruct (String.eqb_spec (e.1) m) as [->|Hne].
      * rewrite (bool_decide_eq_true_2 (m ∈ m :: level)) by left.
        rewrite (bool_decide_eq_false_2 (m ∈ level)) by done.
        cbn. by rewrite andb_true_r, andb_false_r, orb_false_r.
      * cbn. f_equal. apply bool_decide_ext. rewrite elem_of_cons. naive_solver.
    + intros e _ [Hem _]%andb_true_iff. apply String.eqb_eq in Hem.
      rewrite (bool_decide_eq_false_2 (e.1 ∈ level)) by congruence.
      apply andb_false_r.
Qed.

(** Processing a level that is disjoint from the steps done so far. *)
Lemma in_degree_after_level E (done level : list string) s :
  (forall m, m ∈ level -> m ∉ done) ->
  in_degree_after E (done ++ level) s
  = in_degree_after E done s
    - count (fun e => String.eqb (snd e) s && bool_decide (fst e ∈ level)) E.
Proof.
  intros Hdisj. unfold in_degree_after.
  assert (Hsplit :
    count (fun e => String.eqb (e.2) s && negb (bool_decide (e.1 ∈ done))) E
    = count (fun e => String.eqb (e.2) s && negb (bool_decide (e.1 ∈ done ++ level))) E
      + count (fun e => String.eqb (e.2) s && bool_decide (e.1 ∈ level)) E); [|lia].
  rewrite <- count_disjoint.
  - apply count_ext. intros e _.
    destruct (String.eqb (e.2) s); cbn; [|done].
    destruct (decide (e.1 ∈ level)) as [Hl|Hl].
    + rewrite (bool_decide_eq_true_2 _ Hl), orb_true_r.
      by rewrite (bool_decide_eq_false_2 (e.1 ∈ done)) by by apply Hdisj.
    + rewrite (bool_decide_eq_false_2 _ Hl), orb_false_r. f_equal.
      apply bool_decide_ext. rewrite elem_of_app. naive_solver.
  - intros e _ [_ Hn]%andb_true_iff. apply negb_true_iff, bool_decide_eq_false in Hn.
    rewrite (bool_decide_eq_false_2 (e.1 ∈ level)); [apply andb_false_r|].
    intros Hl. apply Hn. apply elem_of_app. by right.
Qed.

(** ** Levels *)

Lemma level_index_elem (levels : list (list string)) s :
  s ∈ concat levels ->
  exists level, levels !! level_index levels s = Some level /\ s ∈ level.
Proof.
  induction levels as [|l levels IH]; cbn [concat level_index].
  - by intros ?%not_elem_of_nil.
  - intros Hs. case_bool_decide as Hl; [by exists l|].
    apply elem_of_app in Hs as [Hs|Hs]; [done|]. by apply IH.
Qed.

Lemma level_index_app_old (levels more : list (list string)) s :
  s ∈ concat levels -> level_index (levels ++ more) s = level_index levels s.
Proof.
  induction levels as [|l levels IH]; cbn [concat level_index app].
  - by intros ?%not_elem_of_nil.
  - intros Hs. case_bool_decide as Hl; [done|].
    apply elem_of_app in Hs as [Hs|Hs]; [done|]. by rewrite IH.
Qed.

Lemma level_index_app_new (levels : list (list string)) level s :
  s ∉ concat levels -> s ∈ level ->
  level_index (levels ++ [level]) s = length levels.
Proof.
  induction levels as [|l levels IH]; cbn [concat level_index app length].
  - intros _ Hs. by rewrite bool_decide_eq_true_2.
  - intros Hs Hl. apply not_elem_of_app in Hs as [Hs1 Hs2].
    rewrite bool_decide_eq_false_2 by done. by rewrite IH.
Qed.

Lemma level_index_bound (levels : list (list string)) s :
  s ∈ concat levels -> (level_index levels s < length levels)%nat.
Proof.
  intros Hs. destruct (level_index_elem levels s Hs) as (l & Hl & _).
  by apply lookup_lt_Some in Hl.
Qed.

(** ** The edges of a workflow *)

Lemma elem_of_edges_of K id deps d s :
  (d, s) ∈ edges_of K id deps <-> s = id /\ d ∈ deps /\ d ∈ K.
Proof.
  unfold edges_of. rewrite elem_of_flat_map. split.
  - intros (dep & Hdep & He). case_bool_decide; [|by apply not_elem_of_nil in He].
    apply list_elem_of_singleton in He as [= -> ->]. done.
  - intros (-> & Hd & HK). exists d. split; [done|].
    rewrite bool_decide_eq_true_2 by done. left.
Qed.

Lemma elem_of_edges w d s :
  (d, s) ∈ edges w <-> depends_on w s d /\ d ∈ step_ids w.
Proof.
  unfold edges, depends_on. rewrite elem_of_flat_map. split.
  - intros (step & Hstep & He). apply elem_of_edges_of in He as (-> & Hd & HK).
    split; [by exists step|done].
  - intros [(step & Hstep & <- & Hd) HK]. exists step. split; [done|].
    by apply elem_of_edges_of.
Qed.

Lemma edge_target w d s : (d, s) ∈ edges w -> s ∈ step_ids w.
Proof.
  intros [(step & Hstep & <- & _) _]%elem_of_edges. apply elem_of_map. eauto.
Qed.

Lemma in_degree_after_nonneg E done s : 0 <= in_degree_after E done s.
Proof. apply count_nonneg. Qed.

Lemma in_degree_after_zero E done s :
  in_degree_after E done s = 0 <-> forall d, (d, s) ∈ E -> d ∈ done.
Proof.
  unfold in_degree_after. rewrite count_zero. split.
  - intros H d Hd. specialize (H _ Hd). cbn in H.
    rewrite String.eqb_refl in H. cbn in H.
    apply negb_false_iff, bool_decide_eq_true in H. done.
  - intros H [d s'] He. cbn.
    destruct (String.eqb_spec s' s) as [->|]; [|done]. cbn.
    apply negb_false_iff, bool_decide_eq_true. by apply H.
Qed.

Lemma concat_snoc {A : Type} (ls : list (list A)) (l : list A) :
  concat (ls ++ [l]) = concat ls ++ l.
Proof. by rewrite concat_app; cbn; rewrite app_nil_r. Qed.

(** One iteration of the loop keeps the invariant. *)
Lemma kahn_step w graph in_degree queue levels :
  (forall m, m ∈ step_ids w -> dict_get m graph = Some (successors (edges w) m)) ->
  kahn_inv w in_degree queue levels ->
  queue <> [] ->
  exists in_degree' queue',
    process_level graph queue (in_degree, []) = Some (in_degree', queue')
    /\ kahn_inv w in_degree' queue' (levels ++ [queue]).
Proof.
  intros Hgraph (Hnd & Hsub & Hdeg & Hqueue & Hearlier & Hnonempty) Hne.
  set (E := edges w) in *. set (P := concat levels) in *.
  apply NoDup_app in Hnd as (HndP & Hdisj & HndQ).
  assert (HQids : forall m, m ∈ queue -> m ∈ step_ids w).
  { intros m Hm. apply Hsub, elem_of_app. by right. }
  rewrite (process_level_relax graph E) by (intros; by apply Hgraph, HQids).
  set (ns := flat_map (successors E) queue).
  assert (Hns : forall k, k ∈ ns <-> exists m, m ∈ queue /\ (m, k) ∈ E).
  { intros k. unfold ns. rewrite elem_of_flat_map. unfold successors.
    split.
    - intros (m & Hm & Hk). exists m. split; [done|].
      apply elem_of_map in Hk as ([a b] & -> & He).
      apply elem_of_List_filter in He as [He Heq]. cbn in Heq.
      apply String.eqb_eq in Heq. by subst.
    - intros (m & Hm & He). exists m. split; [done|]. apply elem_of_map.
      exists (m, k). split; [done|]. apply elem_of_List_filter.
      split; [done|]. apply String.eqb_refl. }
  assert (Hocc : forall k, in_degree_after E (P ++ queue) k
                           = in_degree_after E P k - occurrences k ns).
  { intros k. unfold ns. rewrite occurrences_successors by done.
    apply in_degree_after_level. intros m Hm HmP. by apply (Hdisj m). }
  destruct (relax_spec ns in_degree []) as (d' & hits & Hrun & Hget & Hhits).
  { intros n (m & Hm & He)%Hns. rewrite Hdeg by (by eapply edge_target). eauto. }
  destruct Hhits as [Hndh Hmem].
  { intros k v (m & Hm & He)%Hns. rewrite Hdeg by (by eapply edge_target).
    intros [= <-]. pose proof (Hocc k).
    pose proof (in_degree_after_nonneg E (P ++ queue) k). lia. }
  cbn [app] in Hrun. exists d', hits. split; [exact Hrun|].
  assert (Hhit : forall k, k ∈ hits <->
            (exists m, m ∈ queue /\ (m, k) ∈ E)
            /\ in_degree_after E (P ++ queue) k = 0).
  { intros k. rewrite Hmem, Hns. split.
    - intros [(m & Hm & He) Hk]. split; [eauto|].
      rewrite Hdeg in Hk by (by eapply edge_target).
      injection Hk as Hk. rewrite Hocc. lia.
    - intros [(m & Hm & He) Hk]. split; [eauto|].
      rewrite Hdeg by (by eapply edge_target). f_equal. rewrite Hocc in Hk. lia. }
  assert (Hfresh : forall k, k ∈ hits -> k ∉ P /\ k ∉ queue /\ k ∈ step_ids w).
  { intros k [(m & Hm & He) _]%Hhit.
    assert (Hk : k ∈ step_ids w) by (by eapply edge_target).
    split; [|split; [|done]].
    - intros HkP. destruct (Hearlier k m HkP He) as [HmP _]. by apply (Hdisj m).
    - intros HkQ. apply (Hqueue k Hk) in HkQ as [_ Hz].
      rewrite in_degree_after_zero in Hz. apply (Hdisj m); [by apply Hz|done]. }
  unfold kahn_inv. rewrite concat_snoc. fold P.
  split; [|split; [|split; [|split; [|split]]]].
  - apply NoDup_app. split; [|split; [|done]].
    + apply NoDup_app. done.
    + intros k [HkP|HkQ]%elem_of_app Hk; destruct (Hfresh k Hk) as (? & ? & ?); done.
  - intros k [Hk|Hk]%elem_of_app; [by apply Hsub|by apply Hfresh].
  - intros k Hk. rewrite Hget, Hdeg by done. cbn. f_equal. by rewrite Hocc.
  - intros k Hk. rewrite Hhit. split.
    + intros [(m & Hm & He) Hz]. split; [|done].
      destruct (Hfresh k) as (? & ? & _); [apply Hhit; eauto|].
      rewrite elem_of_app. naive_solver.
    + intros [HkPQ Hz]. split; [|done].
      apply not_elem_of_app in HkPQ as [HkP HkQ].
      assert (Hpos : in_degree_after E P k <> 0).
      { intros Hz'. apply HkQ. apply Hqueue; done. }
      assert (Ho : 0 < occurrences k ns).
      { pose proof (in_degree_after_nonneg E P k). rewrite Hocc in Hz. lia. }
      apply occurrences_pos in Ho. by apply Hns.
  - intros k d [HkP|HkQ]%elem_of_app He.
    + destruct (Hearlier k d HkP He) as [HdP Hlt]. split; [apply elem_of_app; by left|].
      by rewrite !level_index_app_old.
    + assert (HkP : k ∉ P) by (intros ?; by apply (Hdisj k)).
      assert (HdP : d ∈ P).
      { apply (Hqueue k (HQids k HkQ)) in HkQ as [_ Hz].
        rewrite in_degree_after_zero in Hz. by apply Hz. }
      split; [apply elem_of_app; by left|].
      rewrite level_index_app_old, level_index_app_new by done.
      by apply level_index_bound.
  - intros l [Hl|Hl]%elem_of_app; [by apply Hnonempty|].
    apply list_elem_of_singleton in Hl. by subst.
Qed.

(** ** The loop as a whole *)

Lemma NoDup_length_le (l k : list string) :
  NoDup l -> (forall x, x ∈ l -> x ∈ k) -> (length l <= length k)%nat.
Proof.
  intros Hnd Hsub. apply submseteq_length. by apply NoDup_submseteq.
Qed.

(** Enough rounds: one more than the steps not yet in a level. *)
Lemma kahn_loop_inv w graph :
  (forall m, m ∈ step_ids w -> dict_get m graph = Some (successors (edges w) m)) ->
  forall rounds in_degree queue levels,
    kahn_inv w in_degree queue levels ->
    (length (step_ids w) < rounds + length (concat levels))%nat ->
    exists levels' in_degree',
      kahn_loop rounds graph in_degree queue levels = Some levels'
      /\ kahn_inv w in_degree' [] levels'.
Proof.
  intros Hgraph. induction rounds as [|rounds IH]; intros d queue levels Hinv Hfuel.
  - destruct queue as [|m queue]; [exists levels, d; by split|]. exfalso.
    destruct Hinv as (Hnd & Hsub & _).
    pose proof (NoDup_length_le _ _ Hnd Hsub) as Hlen.
    rewrite length_app in Hlen. cbn in *. lia.
  - destruct queue as [|m queue]; [exists levels, d; by split|].
    cbn [kahn_loop].
    destruct (kahn_step w graph d (m :: queue) levels Hgraph Hinv)
      as (d' & queue' & -> & Hinv'); [done|].
    apply (IH d' queue' _ Hinv').
    rewrite concat_snoc, length_app. cbn. lia.
Qed.

Lemma NoDup_keys_filter {V : Type} (p : string * V -> bool) (d : list (string * V)) :
  NoDup (dict_keys d) -> NoDup (map fst (List.filter p d)).
Proof.
  unfold dict_keys. induction d as [|[k v] d IH]; cbn; [done|].
  intros [Hk Hnd]%NoDup_cons. destruct (p (k, v)); [|by apply IH].
  cbn. apply NoDup_cons. split; [|by apply IH].
  intros Hin. apply Hk. apply elem_of_map in Hin as (kv & -> & Hkv).
  apply elem_of_List_filter in Hkv as [Hkv _]. apply elem_of_map. eauto.
Qed.

(** The first queue holds the keys whose counter is zero. *)
Lemma initial_queue_elem (d : list (string * Z)) s :
  NoDup (dict_keys d) ->
  s ∈ map fst (List.filter (fun kv => snd kv =? 0) d) <-> dict_get s d = Some 0.
Proof.
  intros Hnd. rewrite elem_of_map. split.
  - intros ([k v] & -> & Hkv). apply elem_of_List_filter in Hkv as [Hkv Hz].
    cbn in *. apply Z.eqb_eq in Hz. subst v. by apply dict_get_item.
  - intros Hget. exists (s, 0). split; [done|]. apply elem_of_List_filter.
    split; [by apply dict_get_item|done].
Qed.

Lemma kahn_inv_initial w graph in_degree :
  represents (step_ids w) (edges w) (graph, in_degree) ->
  kahn_inv w in_degree
           (map fst (List.filter (fun kv => snd kv =? 0) in_degree)) [].
Proof.
  intros (Hin & Hout & Hnd). cbn [fst snd] in *.
  unfold kahn_inv. cbn [concat app].
  split; [by apply NoDup_keys_filter|].
  split.
  { intros s Hs%initial_queue_elem; [|done].
    destruct (decide (s ∈ step_ids w)) as [|Hno]; [done|].
    destruct (Hout s Hno) as [_ Hnone]. congruence. }
  split; [intros s Hs; by apply Hin|].
  split.
  { intros s Hs. rewrite initial_queue_elem by done.
    destruct (Hin s Hs) as [_ ->]. split.
    - intros [= <-]. split; [apply not_elem_of_nil|done].
    - intros [_ ->]. done. }
  split; [by intros s d ?%not_elem_of_nil|by intros l ?%not_elem_of_nil].
Qed.

(** [get_execution_order] returns, whatever the workflow, and its levels
    satisfy the invariant with an empty queue. *)
Lemma get_execution_order_inv w :
  exists levels in_degree,
    get_execution_order w = Some levels /\ kahn_inv w in_degree [] levels.
Proof.
  unfold get_execution_order.
  destruct (build_graph_edges w) as ([graph d] & -> & Hrep).
  apply (kahn_loop_inv w graph).
  - intros m Hm. destruct Hrep as (Hin & _). by apply Hin.
  - by eapply kahn_inv_initial.
  - unfold step_ids. rewrite length_map. cbn. lia.
Qed.

(** ** What the levels contain *)

Lemma depends_on_step w s d : depends_on w s d -> s ∈ step_ids w.
Proof. intros (step & Hstep & <- & _). apply elem_of_map. eauto. Qed.

Lemma tc_depends_on_step w s d : tc (depends_on w) s d -> s ∈ step_ids w.
Proof. destruct 1; by eapply depends_on_step. Qed.

Lemma tc_depends_on_needs w s d :
  tc (depends_on w) s d -> d ∈ step_ids w -> tc (needs w) s d.
Proof.
  induction 1 as [x y Hxy|x y z Hxy Hyz IH]; intros Hd.
  - apply tc_once. by apply elem_of_edges.
  - eapply tc_l; [|by apply IH]. apply elem_of_edges. split; [done|].
    by eapply tc_depends_on_step.
Qed.

Lemma levels_closed w in_degree levels s d :
  kahn_inv w in_degree [] levels ->
  s ∈ concat levels -> tc (needs w) s d ->
  d ∈ concat levels /\ (level_index levels d < level_index levels s)%nat.
Proof.
  intros (_ & _ & _ & _ & Hearlier & _) Hs Htc. revert Hs.
  induction Htc as [x y Hxy|x y z Hxy Hyz IH]; intros Hx.
  - by apply Hearlier.
  - destruct (Hearlier x y Hx Hxy) as [Hy Hlt].
    destruct (IH Hy) as [Hz Hlt']. split; [done|lia].
Qed.

Lemma levels_omit_cycles w in_degree levels s c :
  kahn_inv w in_degree [] levels ->
  on_cycle w c -> (s = c \/ tc (depends_on w) s c) -> s ∉ concat levels.
Proof.
  intros Hinv Hc Hsc Hs.
  assert (Hcid : c ∈ step_ids w) by (by eapply tc_depends_on_step).
  assert (Hcin : c ∈ concat levels).
  { destruct Hsc as [->|Hsc]; [done|].
    by destruct (levels_closed w in_degree levels s c Hinv Hs
                   (tc_depends_on_needs w s c Hsc Hcid)). }
  destruct (levels_closed w in_degree levels c c Hinv Hcin
              (tc_depends_on_needs w c c Hc Hcid)) as [_ Hlt]. lia.
Qed.

(** A finite set in which every element reaches another element of the
    set holds a cycle. *)
Lemma no_sink_cycle (R : relation string) (U : list string) :
  U <> [] ->
  (forall s, s ∈ U -> exists d, d ∈ U /\ tc R s d) ->
  exists x, tc R x x.
Proof.
  induction U as [|u U IH]; intros Hne Hnext; [done|].
  destruct (Hnext u) as (d & Hd & Hud); [left|].
  apply elem_of_cons in Hd as [->|Hd]; [by exists u|].
  apply IH; [by intros ->; apply not_elem_of_nil in Hd|].
  intros s Hs. destruct (Hnext s) as (d' & Hd' & Hsd'); [by right|].
  apply elem_of_cons in Hd' as [->|Hd']; [|by exists d'].
  exists d. split; [done|]. by etrans.
Qed.

(** Without a cycle every step gets a level. *)
Lemma levels_complete w in_degree levels :
  kahn_inv w in_degree [] levels -> acyclic w ->
  forall s, s ∈ step_ids w -> s ∈ concat levels.
Proof.
  intros (_ & _ & _ & Hqueue & _) Hacyclic s Hs.
  destruct (decide (s ∈ concat levels)) as [|Hout]; [done|]. exfalso.
  set (U := List.filter (fun x => negb (bool_decide (x ∈ concat levels)))
                        (step_ids w)).
  assert (HU : forall x, x ∈ U <-> x ∈ step_ids w /\ x ∉ concat levels).
  { intros x. unfold U. rewrite elem_of_List_filter, negb_true_iff.
    by rewrite bool_decide_eq_false. }
  destruct (no_sink_cycle (depends_on w) U) as (x & Hx).
  - intros HU0. assert (Hin : s ∈ U) by (by apply HU).
    rewrite HU0 in Hin. by apply not_elem_of_nil in Hin.
  - intros x [Hx Hxout]%HU.
    assert (Hpos : 0 < in_degree_after (edges w) (concat levels) x).
    { pose proof (in_degree_after_nonneg (edges w) (concat levels) x).
      destruct (decide (in_degree_after (edges w) (concat levels) x = 0)) as [Hz|]; [|lia].
      exfalso. assert (Hq : x ∈ @nil string) by (by apply Hqueue).
      by apply not_elem_of_nil in Hq. }
    apply count_pos in Hpos as ([d x'] & He & Hp). cbn in Hp.
    apply andb_true_iff in Hp as [Heq Hd]. apply String.eqb_eq in Heq. subst x'.
    apply negb_true_iff, bool_decide_eq_false in Hd.
    apply elem_of_edges in He as He'. destruct He' as [Hdep Hdid].
    exists d. split; [by apply HU|by apply tc_once].
  - by apply (Hacyclic x).
Qed.

(** ** The depth-first search of [_has_circular_dependency] *)

Lemma get_step_Some w s step :
  get_step w s = Some step -> step ∈ steps w /\ step_id step = s.
Proof.
  unfold get_step. intros [Hin Heq]%find_some.
  split; [by apply list_elem_of_In|by apply String.eqb_eq].
Qed.

Lemma get_step_NoDup w step :
  NoDup (step_ids w) -> step ∈ steps w -> get_step w (step_id step) = Some step.
Proof.
  unfold step_ids, get_step. induction (steps w) as [|x l IH]; cbn.
  - by intros _ ?%not_elem_of_nil.
  - intros [Hx Hnd]%NoDup_cons [->|Hin]%elem_of_cons.
    + by rewrite String.eqb_refl.
    + destruct (String.eqb_spec (step_id x) (step_id step)) as [Heq|_]; [|by apply IH].
      exfalso. apply Hx. rewrite Heq. apply elem_of_map. eauto.
Qed.

Lemma get_step_step_set w x step : get_step w x = Some step -> x ∈ step_set w.
Proof.
  intros [Hin <-]%get_step_Some. unfold step_set.
  apply elem_of_list_to_set, elem_of_map. eauto.
Qed.

Lemma step_set_size w : (size (step_set w) <= length (steps w))%nat.
Proof.
  unfold step_set, step_ids, size, set_size. cbn.
  rewrite <- (length_map step_id (steps w)).
  apply NoDup_length_le; [apply NoDup_elements|].
  intros x Hx. apply elem_of_elements in Hx. by apply elem_of_list_to_set in Hx.
Qed.

Lemma tc_first {A : Type} (R : relation A) x z :
  tc R x z -> exists y, R x y /\ (y = z \/ tc R y z).
Proof. destruct 1 as [x z H|x y z H1 H2]; eauto. Qed.

Lemma finished_reach w B n m :
  finished w B -> n ∈ B -> tc (step_needs w) n m -> m ∈ B.
Proof.
  intros [Hclosed _] Hn Htc. revert Hn.
  induction Htc as [x y Hxy|x y z Hxy Hyz IH]; intros Hx; eauto.
Qed.

Lemma finished_add w B x :
  finished w B -> x ∉ B -> (forall d, step_needs w x d -> d ∈ B) ->
  finished w (B ∪ {[x]}).
Proof.
  intros HB Hx Hdeps. split.
  - intros n d [Hn| ->%elem_of_singleton]%elem_of_union Hnd.
    + apply elem_of_union. left. destruct HB as [Hc _]. by eapply Hc.
    + apply elem_of_union. left. by apply Hdeps.
  - intros n [Hn| ->%elem_of_singleton]%elem_of_union Htc.
    + destruct HB as [_ Ha]. by apply (Ha n).
    + apply tc_first in Htc as (d & Hxd & [->|Hdx]).
      * apply Hx. by apply Hdeps.
      * apply Hx. eapply finished_reach; [done| |done]. by apply Hdeps.
Qed.

Lemma visit_deps_spec w vis n :
  (forall x st, visit_pre w n x st -> visit_post w x st (vis x st)) ->
  forall deps st,
    snd st ⊆ fst st -> finished w (fst st ∖ snd st) ->
    (size (step_set w ∖ fst st) < n)%nat ->
    exists b st', visit_deps vis deps st = Some (b, st')
      /\ fst st ⊆ fst st'
      /\ (b = false ->
          snd st' = snd st /\ finished w (fst st' ∖ snd st)
          /\ forall d, d ∈ deps -> d ∈ fst st' ∖ snd st).
Proof.
  intros Hvis. induction deps as [|dep rest IH]; intros st Hsub Hfin Hsize.
  - exists false, st. cbn. split; [done|]. split; [done|]. intros _.
    split; [done|]. split; [done|]. by intros d ?%not_elem_of_nil.
  - cbn [visit_deps]. case_decide as Hdep.
    + destruct (Hvis dep st) as (b & st1 & -> & Hgrow & Hfalse).
      { done. }
      destruct b; [exists true, st1; by split|].
      destruct (Hfalse eq_refl) as (Hstack & Hin & Hfin1).
      destruct (IH st1) as (b & st' & -> & Hgrow' & Hfalse').
      { rewrite Hstack. set_solver. }
      { by rewrite Hstack. }
      { eapply Nat.le_lt_trans; [|exact Hsize]. apply subseteq_size. set_solver. }
      exists b, st'. split; [done|]. split; [set_solver|].
      intros ->. destruct (Hfalse' eq_refl) as (Hstack' & Hfin' & Hall).
      rewrite Hstack in *. split; [done|]. split; [done|].
      intros d [->|Hd]%elem_of_cons; [set_solver|by apply Hall].
    + case_decide as Hrec; [exists true, st; by split|].
      destruct (IH st) as (b & st' & -> & Hgrow' & Hfalse'); try done.
      exists b, st'. split; [done|]. split; [done|].
      intros ->. destruct (Hfalse' eq_refl) as (Hstack' & Hfin' & Hall).
      split; [done|]. split; [done|].
      intros d [->|Hd]%elem_of_cons; [|by apply Hall].
      set_solver.
Qed.

Lemma visit_spec w (n : nat) :
  forall x st, visit_pre w n x st -> visit_post w x st (visit n w x st).
Proof.
  induction n as [|n IH]; intros x [V S] (HxV & Hsub & Hfin & Hsize);
    cbn [fst snd] in *.
  - lia.
  - cbn [visit fst snd].
    assert (HxS : x ∉ S) by set_solver.
    assert (Hset : ({[x]} ∪ V) ∖ ({[x]} ∪ S) = V ∖ S) by set_solver.
    assert (Hback : forall S' : gset string,
               S' = {[x]} ∪ S -> S' ∖ {[x]} = S) by set_solver.
    destruct (get_step w x) as [step|] eqn:Hstep.
    + destruct (visit_deps_spec w (visit n w) n IH (dependencies step)
                  ({[x]} ∪ V, {[x]} ∪ S))
        as (b & st' & -> & Hgrow & Hfalse); cbn [fst snd].
      { set_solver. }
      { by rewrite Hset. }
      { pose proof (get_step_step_set w x step Hstep) as Hx.
        assert (step_set w ∖ ({[x]} ∪ V) ⊂ step_set w ∖ V) as Hlt by set_solver.
        apply subset_size in Hlt. lia. }
      cbn [fst snd] in *.
      destruct b; [exists true, st'; split; [done|]; split; [set_solver|done]|].
      destruct (Hfalse eq_refl) as (Hstack & Hfin' & Hall).
      exists false, (fst st', snd st' ∖ {[x]}). split; [done|].
      cbn [fst snd]. split; [set_solver|]. intros _.
      split; [by apply Hback|]. split; [set_solver|].
      assert (Heq : fst st' ∖ S = (fst st' ∖ ({[x]} ∪ S)) ∪ {[x]}).
      { apply set_eq. intros y. destruct (decide (y = x)); set_solver. }
      rewrite Heq. apply finished_add; [done|set_solver|].
      intros d (step' & Hstep' & Hd). apply Hall. congruence.
    + exists false, ({[x]} ∪ V, ({[x]} ∪ S) ∖ {[x]}). split; [done|].
      cbn [fst snd]. split; [set_solver|]. intros _.
      split; [by apply Hback|]. split; [set_solver|].
      assert (Heq : ({[x]} ∪ V) ∖ S = (V ∖ S) ∪ {[x]}).
      { apply set_eq. intros y. destruct (decide (y = x)); set_solver. }
      rewrite Heq. apply finished_add; [done|set_solver|].
      intros d (step' & Hstep' & _). congruence.
Qed.

Lemma visit_steps_spec w (depth : nat) :
  (size (step_set w) < depth)%nat ->
  forall todo visited,
    (forall step, step ∈ todo -> step ∈ steps w) ->
    finished w visited ->
    exists b, visit_steps depth w todo visited = Some b
      /\ (b = false ->
          exists visited', visited ⊆ visited' /\ finished w visited'
            /\ forall step, step ∈ todo -> step_id step ∈ visited').
Proof.
  intros Hdepth. induction todo as [|step rest IH]; intros V Hsteps Hfin.
  - exists false. split; [done|]. intros _. exists V.
    split; [done|]. split; [done|]. by intros s ?%not_elem_of_nil.
  - cbn [visit_steps]. case_decide as Hnew.
    + destruct (visit_spec w depth (step_id step) (V, ∅))
        as (b & st' & -> & Hgrow & Hfalse).
      { split; [done|].
        cbn [fst snd]. split; [set_solver|].
        assert (V ∖ ∅ = V) as -> by set_solver. split; [done|].
        eapply Nat.le_lt_trans; [|exact Hdepth]. apply subseteq_size. set_solver. }
      destruct b; [by exists true|].
      destruct (Hfalse eq_refl) as (_ & Hin & Hfin'). cbn [fst snd] in *.
      assert (fst st' ∖ ∅ = fst st') as Heq by set_solver. rewrite Heq in Hfin'.
      destruct (IH (fst st')) as (b & -> & Hb); [intros; apply Hsteps; by right|done|].
      exists b. split; [done|]. intros ->.
      destruct (Hb eq_refl) as (V' & Hsub & HfinV' & Hall).
      exists V'. split; [set_solver|]. split; [done|].
      intros s [->|Hs]%elem_of_cons; [set_solver|by apply Hall].
    + destruct (IH V) as (b & -> & Hb); [intros; apply Hsteps; by right|done|].
      exists b. split; [done|]. intros ->.
      destruct (Hb eq_refl) as (V' & Hsub & HfinV' & Hall).
      exists V'. split; [done|]. split; [done|].
      intros s [->|Hs]%elem_of_cons; [|by apply Hall].
      set_solver.
Qed.

(** With a recursion limit above the number of steps,
    [_has_circular_dependency] returns, and when it returns [False] no id
    is on a cycle of the dependencies that [get_step] resolves. *)
Lemma has_circular_dependency_spec recursion_limit w :
  (length (steps w) < recursion_limit)%nat ->
  exists b, _has_circular_dependency recursion_limit w = Some b
    /\ (b = false -> forall s, ~ tc (step_needs w) s s).
Proof.
  intros Hlimit. unfold _has_circular_dependency.
  destruct (visit_steps_spec w recursion_limit) with
    (todo := steps w) (visited := (∅ : gset string)) as (b & Hb & Hfalse).
  - pose proof (step_set_size w). lia.
  - done.
  - split; set_solver.
  - exists b. split; [done|]. intros ->.
    destruct (Hfalse eq_refl) as (V' & _ & [_ Hacyc] & Hall).
    intros s Htc. apply (Hacyc s); [|done].
    apply tc_first in Htc as (d & (step & Hstep & _) & _).
    apply get_step_Some in Hstep as [Hin <-]. by apply Hall.
Qed.

(** ** A larger recursion limit does not change an answer *)

Lemma visit_deps_mono (vis vis' : string -> DfsState -> option (bool * DfsState)) :
  (forall x st r, vis x st = Some r -> vis' x st = Some r) ->
  forall deps st r,
    visit_deps vis deps st = Some r -> visit_deps vis' deps st = Some r.
Proof.
  intros Hvis. induction deps as [|dep rest IH]; intros st r; [done|].
  cbn [visit_deps]. case_decide; [|case_decide; [done|apply IH]].
  destruct (vis dep st) as [[b st1]|] eqn:Hcall; [|done].
  rewrite (Hvis _ _ _ Hcall). destruct b; [done|apply IH].
Qed.

Lemma visit_mono w (depth depth' : nat) :
  (depth <= depth')%nat ->
  forall x st r, visit depth w x st = Some r -> visit depth' w x st = Some r.
Proof.
  revert depth'. induction depth as [|depth IH]; intros depth' Hle x st r;
    [done|].
  destruct depth' as [|depth']; [lia|]. cbn [visit].
  destruct (get_step w x) as [step|]; [|done].
  destruct (visit_deps (visit depth w) _ _) as [res|] eqn:Hdeps; [|done].
  rewrite (visit_deps_mono _ (visit depth' w)
             (IH depth' ltac:(lia)) _ _ _ Hdeps).
  done.
Qed.

Lemma visit_steps_mono w (depth depth' : nat) :
  (depth <= depth')%nat ->
  forall todo visited b,
    visit_steps depth w todo visited = Some b ->
    visit_steps depth' w todo visited = Some b.
Proof.
  intros Hle. induction todo as [|step rest IH]; intros visited b; [done|].
  cbn [visit_steps]. case_decide; [|apply IH].
  destruct (visit depth w _ _) as [[b1 st1]|] eqn:Hcall; [|done].
  rewrite (visit_mono w _ _ Hle _ _ _ Hcall). destruct b1; [done|apply IH].
Qed.

Lemma has_circular_dependency_mono (limit limit' : nat) w b :
  (limit <= limit')%nat ->
  _has_circular_dependency limit w = Some b ->
  _has_circular_dependency limit' w = Some b.
Proof. intros Hle. by apply visit_steps_mono. Qed.

(** Whatever the recursion limit, the answer [False] means that no id is
    on a cycle of the dependencies that [get_step] resolves. *)
Lemma has_circular_dependency_false recursion_limit w :
  _has_circular_dependency recursion_limit w = Some false ->
  forall s, ~ tc (step_needs w) s s.
Proof.
  intros Hsearch.
  apply (has_circular_dependency_mono _
           (Nat.max recursion_limit (S (length (steps w))))) in Hsearch; [|lia].
  destruct (has_circular_dependency_spec
              (Nat.max recursion_limit (S (length (steps w)))) w)
    as (b & Hb & Hfalse); [lia|].
  rewrite Hsearch in Hb. injection Hb as <-. by apply Hfalse.
Qed.

Lemma depends_on_step_needs w s d :
  NoDup (step_ids w) -> depends_on w s d -> step_needs w s d.
Proof.
  intros Hnd (step & Hstep & Hid & Hd). exists step. split; [|done].
  rewrite <- Hid. by apply get_step_NoDup.
Qed.

Lemma on_cycle_step_needs w s :
  NoDup (step_ids w) -> on_cycle w s -> tc (step_needs w) s s.
Proof.
  intros Hnd. unfold on_cycle. generalize s at 2 4. intros s'.
  induction 1 as [x y Hxy|x y z Hxy Hyz IH].
  - apply tc_once. by apply depends_on_step_needs.
  - eapply tc_l; [|exact IH]. by apply depends_on_step_needs.
Qed.

Lemma size_list_to_set_le (l : list string) :
  (size (list_to_set l : gset string) <= length l)%nat.
Proof.
  unfold size, set_size. cbn. apply NoDup_length_le; [apply NoDup_elements|].
  intros x Hx. apply elem_of_elements in Hx. by apply elem_of_list_to_set in Hx.
Qed.

(** The test of [validate] for duplicated ids, [len(step_ids) !=
    len(set(step_ids))], finds them. *)
Lemma length_size_NoDup (l : list string) :
  length l = size (list_to_set l : gset string) -> NoDup l.
Proof.
  induction l as [|x l IH]; [constructor|].
  cbn [list_to_set length]. intros Hlen.
  pose proof (size_list_to_set_le l) as Hle.
  destruct (decide (x ∈ l)) as [Hin|Hout].
  - exfalso.
    assert ({[x]} ∪ list_to_set l = (list_to_set l : gset string)) as Heq
      by set_solver.
    rewrite Heq in Hlen. lia.
  - rewrite size_union, size_singleton in Hlen by set_solver.
    apply NoDup_cons. split; [done|]. apply IH. lia.
Qed.

(** [validate] returns when the recursion limit is above the number of
    steps. *)
Lemma validate_returns recursion_limit w :
  (length (steps w) < recursion_limit)%nat ->
  exists errors, validate recursion_limit w = Some errors.
Proof.
  intros Hlimit. unfold validate.
  destruct (has_circular_dependency_spec _ w Hlimit) as (b & -> & _).
  by eexists.
Qed.

Lemma validate_mono (limit limit' : nat) w errors :
  (limit <= limit')%nat ->
  validate limit w = Some errors -> validate limit' w = Some errors.
Proof.
  intros Hle. unfold validate.
  destruct (_has_circular_dependency limit w) as [b|] eqn:Hb; [|done].
  by rewrite (has_circular_dependency_mono _ _ _ _ Hle Hb).
Qed.

(** With a cycle in the workflow, the errors that [validate] returns
    contain the cycle error when the step ids are distinct, and the error
    for duplicated ids when they are not. *)
Lemma validate_cycle recursion_limit w errors :
  validate recursion_limit w = Some errors ->
  (NoDup (step_ids w) -> (exists s, on_cycle w s) ->
   CircularDependency ∈ errors)
  /\ (~ NoDup (step_ids w) -> DuplicateStepId ∈ errors).
Proof.
  unfold validate.
  destruct (_has_circular_dependency recursion_limit w) as [b|] eqn:Hb; [|done].
  intros [= <-]. split.
  - intros Hnd (s & Hs). destruct b.
    + rewrite !elem_of_app. do 4 right. left. left.
    + exfalso. apply (has_circular_dependency_false _ _ Hb s).
      by apply on_cycle_step_needs.
  - intros Hdup. rewrite !elem_of_app. do 2 right. left.
    case_bool_decide as Hlen; [|left].
    exfalso. by apply Hdup, length_size_NoDup.
Qed.

(** ** Deciding the hypotheses on a given workflow *)

Lemma resolvable_by_validate w : dependency_errors w = [] -> resolvable w.
Proof.
  unfold dependency_errors. intros Hnone step d Hstep Hd.
  destruct (decide (d ∈ step_ids w)) as [|Hno]; [done|]. exfalso.
  assert (Hin : DependencyNotFound (step_name step) d ∈ @nil ValidationError);
    [|by apply not_elem_of_nil in Hin].
  rewrite <- Hnone. apply elem_of_flat_map. exists step. split; [done|].
  apply elem_of_flat_map. exists d. split; [done|].
  rewrite bool_decide_eq_false_2 by done. left.
Qed.

Lemma acyclic_by_search recursion_limit w :
  NoDup (step_ids w) ->
  _has_circular_dependency recursion_limit w = Some false -> acyclic w.
Proof.
  intros Hnd Hsearch s Hs.
  apply (has_circular_dependency_false _ _ Hsearch s).
  by apply on_cycle_step_needs.
Qed.

(** ** The claims *)

(** C1.  For a workflow whose dependency ids all name steps and whose
    dependency graph has no cycle, [get_execution_order] returns levels
    that partition the step ids (no id twice, every step id in a level, no
    empty level) and every dependency of a step is in a level strictly
    before the level of the step; for A, B -> A, C -> A, D -> B, C the
    levels are [A], [B, C], [D].  [validate] returns a list of errors when
    the recursion limit allows more nested calls of the search than there
    are steps; whenever it returns for a workflow whose dependency graph
    has a cycle, the list contains the cycle error when the step ids are
    distinct and the error for duplicated ids when they are not.  For
    A -> B, B -> A it is the cycle error, with any limit that allows two
    nested calls. *)
Theorem execution_order_levels (w : Workflow) :
  (resolvable w -> acyclic w ->
   exists levels,
     get_execution_order w = Some levels
     /\ NoDup (concat levels)
     /\ (forall s, s ∈ concat levels <-> s ∈ step_ids w)
     /\ (forall level, level ∈ levels -> level <> [])
     /\ (forall step d, step ∈ steps w -> d ∈ dependencies step ->
           strictly_earlier levels d (step_id step)))
  /\ get_execution_order diamond
     = Some [["A"]; ["B"; "C"]; ["D"]]%string
  /\ (forall recursion_limit,
        (length (steps w) < recursion_limit)%nat ->
        exists errors, validate recursion_limit w = Some errors)
  /\ (forall recursion_limit errors,
        validate recursion_limit w = Some errors ->
        (exists s, on_cycle w s) ->
        (NoDup (step_ids w) -> CircularDependency ∈ errors)
        /\ (~ NoDup (step_ids w) -> DuplicateStepId ∈ errors))
  /\ (forall recursion_limit,
        (2 <= recursion_limit)%nat ->
        validate recursion_limit two_cycle = Some [CircularDependency]).
Proof.
  split; [|split; [by vm_compute|split; [|split]]].
  - intros Hres Hacyc.
    destruct (get_execution_order_inv w) as (levels & d & Hrun & Hinv).
    exists levels. split; [done|].
    pose proof (levels_complete w d levels Hinv Hacyc) as Hall.
    destruct Hinv as (Hnd & Hsub & _ & _ & Hearlier & Hne).
    rewrite app_nil_r in Hnd.
    split; [done|]. split; [|split; [done|]].
    + intros s. split; [|by apply Hall].
      intros Hs. apply Hsub. by rewrite app_nil_r.
    + intros step dep Hstep Hdep.
      assert (Hid : step_id step ∈ step_ids w) by (apply elem_of_map; eauto).
      assert (He : (dep, step_id step) ∈ edges w).
      { apply elem_of_edges. split; [by exists step|by eapply Hres]. }
      destruct (Hearlier _ _ (Hall _ Hid) He) as [Hd Hlt].
      destruct (level_index_elem levels dep Hd) as (ld & Hld & Hdl).
      destruct (level_index_elem levels (step_id step) (Hall _ Hid))
        as (ls & Hls & Hsl).
      by exists (level_index levels dep), (level_index levels (step_id step)), ld, ls.
  - intros recursion_limit. apply validate_returns.
  - intros recursion_limit errors Hv Hcyc.
    destruct (validate_cycle _ _ _ Hv) as [Hcycle Hdup].
    split; [|done]. intros Hnd. by apply Hcycle.
  - intros recursion_limit Hle.
    apply (validate_mono 2); [done|]. by vm_compute.
Qed.

Lemma diamond_ids_distinct : NoDup (step_ids diamond).
Proof. apply (bool_decide_unpack _). by vm_compute. Qed.

Lemma two_cycle_ids_distinct : NoDup (step_ids two_cycle).
Proof. apply (bool_decide_unpack _). by vm_compute. Qed.

Lemma two_cycle_on_cycle : on_cycle two_cycle "A".
Proof.
  apply tc_l with "B"%string; [|apply tc_once].
  - exists (mkStep "A" "a" ["B"%string]). split; [left|]. split; [done|left].
  - exists (mkStep "B" "b" ["A"%string]).
    split; [right; left|]. split; [done|left].
Qed.

Lemma execution_order_levels_witness :
  (exists levels,
     get_execution_order diamond = Some levels
     /\ NoDup (concat levels)
     /\ (forall s, s ∈ concat levels <-> s ∈ step_ids diamond)
     /\ (forall level, level ∈ levels -> level <> [])
     /\ (forall step d, step ∈ steps diamond -> d ∈ dependencies step ->
           strictly_earlier levels d (step_id step)))
  /\ (exists errors,
        validate 1000 two_cycle = Some errors /\ CircularDependency ∈ errors).
Proof.
  split.
  - refine (proj1 (execution_order_levels diamond) _ _).
    + apply resolvable_by_validate. vm_compute. reflexivity.
    + apply (acyclic_by_search 1000); [exact diamond_ids_distinct|].
      vm_compute. reflexivity.
  - destruct (proj1 (proj2 (proj2 (execution_order_levels two_cycle))) 1000%nat)
      as (errors & Hv); [cbn; lia|].
    exists errors. split; [exact Hv|].
    apply (proj1 (proj2 (proj2 (proj2 (execution_order_levels two_cycle))))
             1000%nat errors Hv);
      [|exact two_cycle_ids_distinct].
    exists "A"%string. exact two_cycle_on_cycle.
Defined.

(** C1 as the specification words it fails where two steps share an id:
    B and the second step A depend on each other, but [get_step] resolves
    A to the first step, which has no dependency, so the search finds no
    cycle and [validate] returns the error for duplicated ids alone.  It
    also fails where the search needs more nested calls than the
    interpreter allows: [validate] then returns nothing. *)
Lemma duplicate_id_hides_cycle :
  on_cycle shadowed_cycle "B"
  /\ validate 1000 shadowed_cycle = Some [DuplicateStepId]
  /\ on_cycle two_cycle "A"
  /\ validate 1 two_cycle = None.
Proof.
  split; [|split; [by vm_compute|split; [exact two_cycle_on_cycle|by vm_compute]]].
  apply tc_l with "A"%string; [|apply tc_once].
  - exists (mkStep "B" "b" ["A"%string]).
    split; [right; left|]. split; [done|left].
  - exists (mkStep "A" "again" ["B"%string]).
    split; [right; right; left|]. split; [done|left].
Qed.

(** C9.  [get_execution_order] returns for every workflow; its levels hold
    step ids only, no step that is on a cycle of dependencies and no step
    that needs such a step, directly or through other steps, is in any
    level; so with a cycle some step id is in no level, and no level with
    the remaining steps is appended.  For A -> B, B -> A there is no level
    at all. *)
Theorem execution_order_omits_cycles (w : Workflow) :
  exists levels,
    get_execution_order w = Some levels
    /\ (forall s, s ∈ concat levels -> s ∈ step_ids w)
    /\ (forall s c, on_cycle w c -> s = c \/ tc (depends_on w) s c ->
          s ∉ concat levels)
    /\ ((exists c, on_cycle w c) ->
        exists s, s ∈ step_ids w /\ s ∉ concat levels)
    /\ get_execution_order two_cycle = Some [].
Proof.
  destruct (get_execution_order_inv w) as (levels & d & Hrun & Hinv).
  exists levels. split; [done|].
  split; [|split; [|split; [|by vm_compute]]].
  - destruct Hinv as (_ & Hsub & _). intros s Hs. apply Hsub.
    by rewrite app_nil_r.
  - intros s c Hc Hsc. by eapply levels_omit_cycles.
  - intros (c & Hc). exists c. split; [by eapply tc_depends_on_step|].
    eapply levels_omit_cycles; [done..|by left].
Qed.

Lemma execution_order_omits_cycles_witness :
  exists levels,
    get_execution_order two_cycle = Some levels
    /\ ("A"%string ∉ concat levels)
    /\ exists s, s ∈ step_ids two_cycle /\ s ∉ concat levels.
Proof.
  destruct (execution_order_omits_cycles two_cycle)
    as (levels & Hrun & _ & Homit & Hstrict & _).
  exists levels. split; [exact Hrun|]. split.
  - apply (Homit "A"%string "A"%string two_cycle_on_cycle). by left.
  - apply Hstrict. exists "A"%string. exact two_cycle_on_cycle.
Defined.

End WorkflowSpec.

(* ===================================================================== *)
(** * Properties of the alert rules                                       *)
(* ===================================================================== *)

Module MonitorSpec.
Import Dict DictSpec Monitor.

Section Monitoring.

Variable Metrics : Type.
Variable workflow_id_of : Metrics -> string.
Variable eval_condition : string -> Metrics -> option bool.
Variable format_template : string -> Metrics -> option string.

Abbreviation should_trigger := (should_trigger Metrics eval_condition).
Abbreviation _trigger_alert :=
  (_trigger_alert Metrics workflow_id_of format_template).
Abbreviation check_rule :=
  (check_rule Metrics workflow_id_of eval_condition format_template).
Abbreviation _check_metric_alerts :=
  (_check_metric_alerts Metrics workflow_id_of eval_condition format_template).
Abbreviation monitoring_pass :=
  (monitoring_pass Metrics workflow_id_of eval_condition format_template).
Abbreviation monitoring_loop :=
  (monitoring_loop Metrics workflow_id_of eval_condition format_template).

Lemma should_trigger_cooldown rule context now last :
  last_triggered rule = Some last ->
  now - last < minutes (cooldown_minutes rule) ->
  should_trigger rule context now = false.
Proof.
  intros Hlast Hnow. unfold Monitor.should_trigger. rewrite Hlast.
  destruct (negb (enabled rule)); [done|].
  by rewrite (proj2 (Z.ltb_lt _ _) Hnow).
Qed.

Lemma should_trigger_elapsed rule context now last :
  enabled rule = true ->
  last_triggered rule = Some last ->
  minutes (cooldown_minutes rule) <= now - last ->
  should_trigger rule context now
  = match eval_condition (condition rule) context with
    | Some value => value
    | None => false
    end.
Proof.
  intros Hen Hlast Hnow. unfold Monitor.should_trigger. rewrite Hlast, Hen.
  cbn [negb]. by rewrite (proj2 (Z.ltb_ge _ _) Hnow).
Qed.

Lemma check_rule_quiet rid rule last before context r m key :
  last_triggered rule = Some last ->
  t_check (r rid) - last < minutes (cooldown_minutes rule) ->
  quiet rid rule before m ->
  quiet rid rule before (check_rule context r m key).
Proof.
  intros Hlast Hcool (Hkeys & Hrule & kept & new & Hev & Hkept & Hnew).
  unfold Monitor.check_rule.
  destruct (dict_get key (alert_rules Metrics m)) as [rule'|] eqn:Hkey;
    [|by repeat split; eauto].
  destruct (decide (key = rid)) as [->|Hne].
  - assert (rule' = rule) as -> by congruence.
    rewrite (should_trigger_cooldown rule context _ last Hlast Hcool).
    by repeat split; eauto.
  - destruct (should_trigger rule' context (t_check (r key)));
      [|by repeat split; eauto].
    pose proof (Hkeys key rule' Hkey) as Hid.
    unfold Monitor._trigger_alert, record_event. split; [|split].
    + intros k r'. cbn [alert_rules]. rewrite dict_get_set. case_decide as Hk.
      * intros [= <-]. by subst.
      * apply Hkeys.
    + cbn [alert_rules]. by rewrite dict_get_set, decide_False.
    + exists kept,
             (new ++ [mkEvent (rule_id rule', t_id (r key)) PERFORMANCE_ALERT
                           (t_event (r key)) (Some (workflow_id_of context))
                           (severity rule')
                           (format_message Metrics format_template rule' context)
                           ["alert"; rule_id rule']%string]).
      cbn [events]. rewrite Hev, (assoc_L (++)). split; [done|].
      split; [done|].
      intros e [He|He]%elem_of_app; [by apply Hnew|].
      apply list_elem_of_singleton in He. subst e. cbn. congruence.
Qed.

Lemma check_metric_alerts_quiet rid rule last before readings m :
  last_triggered rule = Some last ->
  (forall workflow,
     t_check (readings workflow rid) - last < minutes (cooldown_minutes rule)) ->
  quiet rid rule before m ->
  quiet rid rule before (_check_metric_alerts m readings).
Proof.
  intros Hlast Hcool. unfold Monitor._check_metric_alerts.
  generalize (metrics Metrics m). intros workflows. revert m.
  induction workflows as [|wm workflows IH]; intros m Hq; [done|].
  cbn [fold_left]. apply IH.
  generalize (dict_keys (alert_rules Metrics m)). intros keys. revert m Hq.
  induction keys as [|key keys IHk]; intros m Hq; [done|].
  cbn [fold_left]. apply IHk. by eapply check_rule_quiet.
Qed.

Lemma cleanup_old_events_quiet rid rule before m :
  quiet rid rule before m ->
  quiet rid rule before (_cleanup_old_events Metrics m).
Proof.
  intros (Hkeys & Hrule & kept & new & Hev & Hkept & Hnew).
  unfold Monitor._cleanup_old_events.
  destruct (max_events Metrics m <? Z.of_nat (length (events Metrics m)));
    [|by repeat split; eauto].
  split; [exact Hkeys|]. split; [exact Hrule|].
  unfold slice_from. cbn [events]. rewrite Hev.
  set (k := Z.to_nat _). clearbody k.
  exists (drop k kept), (drop (k - length kept) new).
  split; [apply drop_app|]. split.
  - etrans; [apply suffix_drop|exact Hkept].
  - intros e He. apply Hnew. by eapply subseteq_drop.
Qed.

Lemma monitoring_loop_quiet rid rule last before passes : forall m,
  last_triggered rule = Some last ->
  (forall readings workflow, readings ∈ passes ->
     t_check (readings workflow rid) - last < minutes (cooldown_minutes rule)) ->
  quiet rid rule before m ->
  quiet rid rule before (monitoring_loop m passes).
Proof.
  induction passes as [|readings passes IH]; intros m Hlast Hcool Hq; [done|].
  unfold Monitor.monitoring_loop. cbn [fold_left]. apply IH; [done| |].
  - intros; apply Hcool. by right.
  - apply cleanup_old_events_quiet.
    eapply check_metric_alerts_quiet; [done| |done].
    intros; apply Hcool. left.
Qed.

(** C7.  A rule that has fired at [last] (its [last_triggered], set by
    [_trigger_alert] to its reading of the clock) is not triggered by any
    evaluation whose clock reading is less than [cooldown_minutes] after
    [last], whatever its condition evaluates to; through any number of
    passes of the monitoring loop made in that time the rule is unchanged
    and no event of that rule is recorded (the events are then what the
    clean-up has kept of the earlier ones, followed by events of other
    rules); once the cooldown has elapsed, an enabled rule whose condition
    is true triggers again. *)
Theorem alert_cooldown
    (m : WorkflowMonitor Metrics) (rid : string) (rule0 : AlertRule)
    (context0 : Metrics) (fired : Readings) :
  well_keyed Metrics m ->
  dict_get rid (alert_rules Metrics m) = Some rule0 ->
  let m1 := _trigger_alert m rid rule0 context0 fired in
  let rule := set_last_triggered rule0 (t_fire fired) in
  let last := t_fire fired in
  dict_get rid (alert_rules Metrics m1) = Some rule
  /\ (exists e, events Metrics m1 = events Metrics m ++ [e]
                /\ event_type e = PERFORMANCE_ALERT
                /\ fst (event_id e) = rule_id rule0)
  /\ (forall context now,
        now - last < minutes (cooldown_minutes rule) ->
        should_trigger rule context now = false)
  /\ (forall passes,
        (forall readings workflow, readings ∈ passes ->
           t_check (readings workflow rid) - last
           < minutes (cooldown_minutes rule)) ->
        dict_get rid (alert_rules Metrics (monitoring_loop m1 passes)) = Some rule
        /\ exists kept new,
             events Metrics (monitoring_loop m1 passes) = kept ++ new
             /\ kept `suffix_of` events Metrics m1
             /\ forall e, e ∈ new -> fst (event_id e) <> rid)
  /\ (forall context now,
        enabled rule = true ->
        minutes (cooldown_minutes rule) <= now - last ->
        eval_condition (condition rule) context = Some true ->
        should_trigger rule context now = true).
Proof.
  intros Hkeys Hrule m1 rule last.
  assert (Hrule1 : dict_get rid (alert_rules Metrics m1) = Some rule).
  { unfold m1, Monitor._trigger_alert, record_event. cbn [alert_rules].
    by rewrite dict_get_set, decide_True. }
  assert (Hkeys1 : well_keyed Metrics m1).
  { intros k r'. unfold m1, Monitor._trigger_alert, record_event.
    cbn [alert_rules]. rewrite dict_get_set.
    case_decide as Hk; [|apply Hkeys]. intros [= <-]. subst k.
    cbn [rule_id set_last_triggered]. by apply Hkeys. }
  split; [exact Hrule1|]. split; [by eexists|].
  split; [intros; by eapply should_trigger_cooldown|]. split.
  - intros passes Hcool.
    destruct (monitoring_loop_quiet rid rule last (events Metrics m1) passes m1)
      as (_ & Hr & Hnew); try done.
    split; [done|split; [done|]]. exists (events Metrics m1), [].
    split; [by rewrite app_nil_r|]. split; [done|].
    by intros e ?%not_elem_of_nil.
  - intros context now Hen Hnow Hcond.
    rewrite (should_trigger_elapsed rule context now last); try done.
    by rewrite Hcond.
Qed.

End Monitoring.

Lemma alert_cooldown_witness :
  let m1 :=
    _trigger_alert Z the_workflow no_format example_monitor "high_error_rate"
                   error_rate_rule 50 (mkReadings 0 0 0 0) in
  should_trigger Z always_true error_rate_rule 50 60000000 = false
  /\ length (events Z (monitoring_loop Z the_workflow always_true no_format m1
                                       [one_minute_later; one_minute_later]))
     = 1%nat.
Proof.
  pose proof (alert_cooldown Z the_workflow always_true no_format
                example_monitor "high_error_rate" error_rate_rule 50
                (mkReadings 0 0 0 0)) as H.
  cbn zeta in H. destruct H as (_ & _ & Hnot & _).
  - intros key rule. unfold example_monitor. cbn [alert_rules].
    rewrite dict_get_cons, dict_get_nil. case_decide as Hkey; [|done].
    by intros [= <-].
  - reflexivity.
  - split; [apply Hnot; vm_compute; reflexivity|vm_compute; reflexivity].
Defined.

End MonitorSpec.

(* ===================================================================== *)
(** * Properties of starting a workflow                                   *)
(* ===================================================================== *)

Module EngineSpec.
Import Workflow Engine.

Section Start.

Variable execution_id_of : Z -> string.

Abbreviation start_workflow := (start_workflow execution_id_of).
Abbreviation start_workflow_body := (start_workflow_body execution_id_of).

(** C8, as the code has it.  Starting a stored workflow that is not
    active raises a [ValueError] inside [start_workflow], which the method
    itself catches: it prints the failure and returns [None] to the
    caller, creating no execution and leaving the engine as it was.
    Nothing propagates. *)
Theorem start_inactive_returns_none
    (e : WorkflowEngine) (workflow_id : string) (workflow : Workflow)
    (trigger : list (string * option string)) (by_whom : string) (now : Z) :
  workflows e !! workflow_id = Some workflow ->
  Workflow.status workflow <> ACTIVE ->
  start_workflow_body e workflow_id trigger by_whom now
  = inl (WorkflowNotActive (Workflow.status workflow))
  /\ start_workflow e workflow_id trigger by_whom now
     = (Returns None, [WorkflowNotActive (Workflow.status workflow)], e).
Proof.
  intros Hstored Hstatus.
  assert (Hbody : start_workflow_body e workflow_id trigger by_whom now
                  = inl (WorkflowNotActive (Workflow.status workflow))).
  { unfold Engine.start_workflow_body. rewrite Hstored.
    destruct (Workflow.status workflow); done. }
  split; [exact Hbody|]. unfold Engine.start_workflow. by rewrite Hbody.
Qed.

End Start.

Lemma start_inactive_returns_none_witness :
  Engine.start_workflow (fun _ => "exec"%string) draft_engine "wf" [] "manual" 0
  = (Returns None, [WorkflowNotActive DRAFT], draft_engine).
Proof.
  refine (proj2 (start_inactive_returns_none (fun _ => "exec"%string)
                   draft_engine "wf" diamond [] "manual" 0 _ _)).
  - vm_compute. reflexivity.
  - discriminate.
Defined.

(** C8 as the specification words it fails: the call on a draft workflow
    does not let an exception propagate, it returns a value. *)
Lemma start_inactive_not_raised :
  workflows draft_engine !! "wf"%string = Some diamond
  /\ Workflow.status diamond <> ACTIVE
  /\ forall raised : Exception,
       fst (fst (Engine.start_workflow (fun _ => "exec"%string) draft_engine
                   "wf" [] "manual" 0))
       <> Propagates raised.
Proof.
  split; [by vm_compute|]. split; [discriminate|].
  intros raised. vm_compute. discriminate.
Qed.

End EngineSpec.

(* ===================================================================== *)
(** * Properties of float rounding                                        *)
(* ===================================================================== *)

Module PyFloatSpec.
Import PyFloat.

Lemma digits2_pos_size p : digits2_pos p = Pos.size p.
Proof. induction p; cbn; congruence. Qed.

Lemma digits2_pos_bounds p :
  2 ^ (Zpos (digits2_pos p) - 1) <= Zpos p < 2 ^ Zpos (digits2_pos p).
Proof.
  rewrite digits2_pos_size. split.
  - pose proof (Pos.size_le p) as H.
    assert (Hz : Zpos (2 ^ Pos.size p) <= Zpos p~0) by exact H.
    rewrite Pos2Z.inj_pow in Hz.
    replace (Zpos (Pos.size p)) with (Zpos (Pos.size p) - 1 + 1) in Hz by lia.
    rewrite Z.pow_add_r in Hz by lia. change (2 ^ 1) with 2 in Hz. lia.
  - pose proof (Pos.size_gt p) as H.
    assert (Hz : Zpos p < Zpos (2 ^ Pos.size p)) by exact H.
    by rewrite Pos2Z.inj_pow in Hz.
Qed.

Lemma digits2_pos_unique p n :
  2 ^ (n - 1) <= Zpos p < 2 ^ n -> Zpos (digits2_pos p) = n.
Proof.
  intros [Hlo Hhi]. pose proof (digits2_pos_bounds p) as [Hlo' Hhi'].
  assert (0 < n).
  { destruct (Z.ltb_spec 0 n); [assumption|].
    assert (2 ^ n <= 2 ^ 0) by (destruct (Z.eqb_spec n 0); [subst; lia| rewrite Z.pow_neg_r by lia; lia]).
    change (2 ^ 0) with 1 in *. lia. }
  destruct (Z.lt_trichotomy (Zpos (digits2_pos p)) n) as [Hlt|[Heq|Hgt]]; [|assumption|].
  - assert (2 ^ Zpos (digits2_pos p) <= 2 ^ (n - 1)) by (apply Z.pow_le_mono_r; lia). lia.
  - assert (2 ^ n <= 2 ^ (Zpos (digits2_pos p) - 1)) by (apply Z.pow_le_mono_r; lia). lia.
Qed.

Lemma shr_1_m mrs : 0 <= shr_m mrs ->
  shr_m (shr_1 mrs) = shr_m mrs / 2 /\ 0 <= shr_m (shr_1 mrs).
Proof.
  destruct mrs as [m r s]. cbn [shr_m]. intros Hm.
  destruct m as [|[p|p|]|p]; cbn [shr_1 shr_m]; try lia.
  - split; [reflexivity|lia].
  - split; [|lia]. apply Z.div_unique with 1; lia.
  - split; [|lia]. apply Z.div_unique with 0; lia.
  - split; [reflexivity|lia].
Qed.

Lemma pow2_xO p : 2 ^ Zpos p~0 = 2 ^ Zpos p * 2 ^ Zpos p.
Proof.
  replace (Zpos p~0) with (Zpos p + Zpos p) by lia.
  apply Z.pow_add_r; lia.
Qed.

Lemma pow2_xI p : 2 ^ Zpos p~1 = 2 * (2 ^ Zpos p * 2 ^ Zpos p).
Proof.
  replace (Zpos p~1) with (1 + (Zpos p + Zpos p)) by lia.
  rewrite !Z.pow_add_r by lia. reflexivity.
Qed.

Lemma shr_m_iter p : forall mrs, 0 <= shr_m mrs ->
  shr_m (SpecFloat.iter_pos shr_1 p mrs) = shr_m mrs / 2 ^ Zpos p
  /\ 0 <= shr_m (SpecFloat.iter_pos shr_1 p mrs).
Proof.
  induction p as [p IH|p IH|]; intros mrs Hm; cbn [SpecFloat.iter_pos].
  - destruct (shr_1_m mrs Hm) as [H1 H1'].
    destruct (IH _ H1') as [H2 H2']. destruct (IH _ H2') as [H3 H3'].
    split; [|assumption]. rewrite H3, H2, H1.
    assert (0 < 2 ^ Zpos p) by (apply Z.pow_pos_nonneg; lia).
    rewrite !Z.div_div by lia. by rewrite pow2_xI.
  - destruct (IH _ Hm) as [H2 H2']. destruct (IH _ H2') as [H3 H3'].
    split; [|assumption]. rewrite H3, H2.
    assert (0 < 2 ^ Zpos p) by (apply Z.pow_pos_nonneg; lia).
    rewrite !Z.div_div by lia. by rewrite pow2_xO.
  - destruct (shr_1_m mrs Hm) as [H1 H1']. split; [|assumption].
    rewrite H1. reflexivity.
Qed.

Lemma round_nearest_even_bounds mx lx :
  mx <= round_nearest_even mx lx <= mx + 1.
Proof.
  destruct lx as [|[| |]]; cbn; try lia. destruct (Z.even mx); lia.
Qed.

(** The first shift of [binary_round_aux] on an exact mantissa of at
    least 53 bits keeps its 53 leading bits. *)
Lemma shr_fexp_exact (m : positive) (e : Z) :
  53 <= Zpos (digits2_pos m) ->
  -1074 <= e + (Zpos (digits2_pos m) - 53) ->
  exists mrs,
    shr_fexp prec emax (Zpos m) e loc_Exact
    = (mrs, e + (Zpos (digits2_pos m) - 53))
    /\ shr_m mrs = Zpos m / 2 ^ (Zpos (digits2_pos m) - 53).
Proof.
  intros Hd He. unfold shr_fexp, fexp, SpecFloat.emin, Zdigits2.
  change (3 - emax - prec) with (-1074). change prec with 53.
  rewrite Z.max_l by lia.
  replace (Zpos (digits2_pos m) + e - 53 - e) with (Zpos (digits2_pos m) - 53) by lia.
  destruct (Zpos (digits2_pos m) - 53) as [|k|k] eqn:Hk; [|  |lia].
  - eexists. split; [unfold shr; rewrite Z.add_0_r; reflexivity|].
    cbn [shr_record_of_loc shr_m]. change (2 ^ 0) with 1. by rewrite Z.div_1_r.
  - eexists. split; [unfold shr; reflexivity|].
    destruct (shr_m_iter k (shr_record_of_loc (Zpos m) loc_Exact)) as [Hm _];
      [cbn; lia|].
    rewrite Hm. reflexivity.
Qed.

Lemma binary_round_aux_lower (m : positive) (e : Z) :
  53 <= Zpos (digits2_pos m) ->
  -1074 <= e + (Zpos (digits2_pos m) - 53) ->
  at_least (Zpos m / 2 ^ (Zpos (digits2_pos m) - 53))
           (e + (Zpos (digits2_pos m) - 53))
           (binary_round_aux prec emax false (Zpos m) e loc_Exact).
Proof.
  intros Hd He.
  set (k := Zpos (digits2_pos m) - 53) in *.
  set (q := Zpos m / 2 ^ k).
  assert (Hq : 2 ^ 52 <= q < 2 ^ 53).
  { pose proof (digits2_pos_bounds m) as [Hlo Hhi].
    assert (Hk : 0 < 2 ^ k) by (apply Z.pow_pos_nonneg; lia).
    replace (Zpos (digits2_pos m) - 1) with (52 + k) in Hlo by lia.
    replace (Zpos (digits2_pos m)) with (53 + k) in Hhi by lia.
    rewrite Z.pow_add_r in Hlo, Hhi by lia. unfold q. split.
    - apply Z.div_le_lower_bound; lia.
    - apply Z.div_lt_upper_bound; lia. }
  unfold binary_round_aux.
  destruct (shr_fexp_exact m e Hd He) as (mrs1 & -> & Hm1). fold k in Hm1. fold q in Hm1.
  cbv beta iota. rewrite Hm1. fold k.
  pose proof (round_nearest_even_bounds q (loc_of_shr_record mrs1)) as Hr.
  destruct (round_nearest_even q (loc_of_shr_record mrs1)) as [|m1|m1] eqn:Hm; [lia| |lia].
  destruct (Z.ltb_spec (Zpos m1) (2 ^ 53)) as [Hlt|Hge].
  - assert (Hd1 : Zpos (digits2_pos m1) = 53) by (apply digits2_pos_unique; change (53 - 1) with 52; lia).
    destruct (shr_fexp_exact m1 (e + k)) as (mrs2 & -> & Hm2); [lia|lia|].
    cbv beta iota. rewrite Hm2, Hd1. change (53 - 53) with 0.
    change (2 ^ 0) with 1. rewrite Z.div_1_r, Z.add_0_r.
    destruct (e + k <=? emax - prec); [right|by left].
    exists m1, (e + k). split; [done|]. left. lia.
  - assert (Heq : Zpos m1 = 2 ^ 53) by lia.
    assert (Hd1 : Zpos (digits2_pos m1) = 54) by (apply digits2_pos_unique; rewrite Heq; done).
    destruct (shr_fexp_exact m1 (e + k)) as (mrs2 & -> & Hm2); [lia|lia|].
    cbv beta iota. rewrite Hm2, Hd1, Heq. change (2 ^ 53 / 2 ^ (54 - 53)) with (2 ^ 52).
    change (2 ^ 52) with (Zpos (2 ^ 52)). cbv iota.
    destruct (e + k + (54 - 53) <=? emax - prec); [right|by left].
    exists (2 ^ 52)%positive, (e + k + 1). split; [f_equal; lia|]. right. done.
Qed.

Lemma iter_xO_pow2 p n : Zpos (Pos.iter xO p n) = Zpos p * 2 ^ Zpos n.
Proof.
  induction n as [|n IH] using Pos.peano_ind.
  - cbn [Pos.iter]. change (2 ^ 1) with 2. lia.
  - rewrite Pos.iter_succ, Pos2Z.inj_xO, IH, Pos2Z.inj_succ, Z.pow_succ_r by lia. lia.
Qed.

Lemma at_least_normal_above q e x :
  2 ^ 52 <= q -> at_least q e x -> normal_above q e x.
Proof.
  intros Hq [->|(m' & e' & -> & [[-> Hm]|[-> Hm]])]; [by left|right..].
  - exists m', e. split; [done|]. split; [lia|]. right. lia.
  - exists m', (e + 1). split; [done|]. split; [rewrite Hm; done|]. left. lia.
Qed.

Lemma binary_round_shape p :
  binary_round prec emax false p 0
  = match Zpos (digits2_pos p) - 53 with
    | Zneg k =>
        binary_round_aux prec emax false (Zpos (Pos.iter xO p k)) (Zneg k) loc_Exact
    | _ => binary_round_aux prec emax false (Zpos p) 0 loc_Exact
    end.
Proof.
  unfold binary_round, shl_align.
  assert (Hf : fexp prec emax (Zpos (digits2_pos p) + 0) = Zpos (digits2_pos p) - 53)
    by (cbv [fexp SpecFloat.emin prec emax]; lia).
  rewrite Hf, Z.sub_0_r. by destruct (Zpos (digits2_pos p) - 53).
Qed.

(** The conversion of an integer of at least five. *)
Lemma of_int_ge_5 n : 5 <= n -> normal_above (5 * 2 ^ 50) (-50) (of_int n).
Proof.
  intros Hn. destruct n as [|p|p]; [lia| |lia].
  unfold of_int, binary_normalize. rewrite binary_round_shape.
  pose proof (digits2_pos_bounds p) as [Hlo Hhi].
  set (d := Zpos (digits2_pos p)) in *.
  assert (Hd3 : 3 <= d).
  { destruct (Z.ltb_spec d 3); [|done].
    assert (2 ^ d <= 2 ^ 2) by (apply Z.pow_le_mono_r; lia).
    change (2 ^ 2) with 4 in *. lia. }
  destruct (d - 53) as [|k|k] eqn:Hk.
  - pose proof (binary_round_aux_lower p 0) as H. fold d in H. rewrite Hk in H.
    specialize (H ltac:(lia) ltac:(lia)).
    apply at_least_normal_above in H.
    + destruct H as [->|(m' & e' & -> & Hm & He)]; [by left|right].
      exists m', e'. split; [done|]. split; [done|]. left. lia.
    + change (2 ^ 0) with 1. rewrite Z.div_1_r. replace (d - 1) with 52 in Hlo by lia. done.
  - pose proof (binary_round_aux_lower p 0) as H. fold d in H. rewrite Hk in H.
    assert (Hq : 2 ^ 52 <= Zpos p / 2 ^ Zpos k).
    { apply Z.div_le_lower_bound; [apply Z.pow_pos_nonneg; lia|].
      rewrite Z.mul_comm, <- Z.pow_add_r by lia.
      replace (52 + Zpos k) with (d - 1) by lia. done. }
    specialize (H ltac:(lia) ltac:(lia)).
    apply at_least_normal_above in H; [|done].
    destruct H as [->|(m' & e' & -> & Hm & He)]; [by left|right].
    exists m', e'. split; [done|]. split; [done|]. left. lia.
  - set (mz := Pos.iter xO p k).
    assert (Hmz : Zpos mz = Zpos p * 2 ^ Zpos k) by apply iter_xO_pow2.
    assert (Hpk : 0 < 2 ^ Zpos k) by (apply Z.pow_pos_nonneg; lia).
    assert (Hbounds : 2 ^ 52 <= Zpos mz < 2 ^ 53).
    { rewrite Hmz.
      replace 52 with (d - 1 + Zpos k) by lia. replace 53 with (d + Zpos k) by lia.
      rewrite !Z.pow_add_r by lia. split; [apply Z.mul_le_mono_nonneg_r|apply Z.mul_lt_mono_pos_r]; lia. }
    assert (Hdz : Zpos (digits2_pos mz) = 53) by (by apply digits2_pos_unique).
    pose proof (binary_round_aux_lower mz (Z.neg k)) as H. rewrite Hdz in H.
    change (53 - 53) with 0 in H. change (2 ^ 0) with 1 in H.
    rewrite Z.div_1_r, Z.add_0_r in H.
    specialize (H ltac:(lia) ltac:(lia)).
    apply at_least_normal_above in H; [|lia].
    destruct H as [->|(m' & e' & -> & Hm & He)]; [by left|right].
    exists m', e'. split; [done|]. split; [done|].
    destruct (Z.eq_dec d 3) as [Hd|Hd].
    + assert (Z.neg k = -50) as Hk50 by lia. rewrite Hk50 in He.
      destruct He as [He|[-> He]]; [by left|right]. split; [done|].
      etrans; [|exact He]. rewrite Hmz. assert (Zpos k = 50) as -> by lia. lia.
    + left. lia.
Qed.

Lemma mul_0_05_above_0_2 n :
  5 <= n -> SFltb (decimal 2 10) (mul (of_int n) (decimal 5 100)) = true.
Proof.
  intros Hn.
  assert (decimal 2 10 = S754_finite false 7205759403792794 (-55)) as -> by (by vm_compute).
  assert (decimal 5 100 = S754_finite false 7205759403792794 (-57)) as -> by (by vm_compute).
  destruct (of_int_ge_5 n Hn) as [->|(mx & ex & -> & Hmx & Hex)]; [done|].
  unfold mul, SFmul. cbn [xorb].
  set (P := (mx * 7205759403792794)%positive).
  assert (HP : Zpos P = Zpos mx * 7205759403792794) by done.
  pose proof (digits2_pos_bounds P) as [Hlo Hhi].
  set (d := Zpos (digits2_pos P)) in *.
  assert (Hd : 105 <= d /\ (ex = -50 -> 106 <= d)).
  { split.
    - destruct (Z.ltb_spec d 105); [|done].
      assert (2 ^ d <= 2 ^ 104) by (apply Z.pow_le_mono_r; lia).
      change (2 ^ 52) with 4503599627370496 in Hmx.
      change (2 ^ 104) with 20282409603651670423947251286016 in *. lia.
    - intros ->. destruct Hex as [?|[_ H5]]; [lia|].
      destruct (Z.ltb_spec d 106); [|done].
      assert (2 ^ d <= 2 ^ 105) by (apply Z.pow_le_mono_r; lia).
      change (5 * 2 ^ 50) with 5629499534213120 in H5.
      change (2 ^ 105) with 40564819207303340847894502572032 in *. lia. }
  pose proof (binary_round_aux_lower P (ex + -57)) as H. fold d in H.
  specialize (H ltac:(lia) ltac:(lia)).
  destruct H as [->|(m' & e' & -> & He')]; [done|].
  unfold SFltb, SFcompare.
  assert (-55 < e') as Hlt by lia.
  by rewrite (proj2 (Z.compare_lt_iff _ _) Hlt).
Qed.

(** Five words or more saturate the length bonus: [n * 0.05] is above
    [0.2] in floating point, whatever the rounding of [n] and of the
    product. *)
Lemma length_bonus_saturated n :
  5 <= n ->
  PyFloat.min (mul (of_int n) (decimal 5 100)) (decimal 2 10) = decimal 2 10.
Proof.
  intros Hn. unfold PyFloat.min. by rewrite mul_0_05_above_0_2.
Qed.

End PyFloatSpec.

(* ===================================================================== *)
(** * Properties of the confidence score                                  *)
(* ===================================================================== *)

Module NLPSpec.
Import Task NLP.

(** C5.  The confidence is the float denoted by the two-decimal number
    min(0.5 + (0.2 for a classified intent) + min(0.05 x words, 0.2) +
    (0.1 for a keyword), 1.0): the floating-point sum of the code, rounded
    by [round(., 2)], agrees with the exact sum for every text and intent.
    With ten words, a classified intent and the stem for "analyze" the
    confidence is 1.0. *)
Theorem confidence_formula
    (text : list Z) (intent_type : IntentType) (task_type : TaskType) :
  let word_count := Z.of_nat (length (split text)) in
  let has_keyword := existsb (fun word => contains word text) keywords in
  _calculate_confidence text intent_type task_type
  = PyFloat.decimal (specified_hundredths intent_type word_count has_keyword) 100
  /\ (word_count = 10 -> intent_type <> UNKNOWN ->
      contains [48516; 49437] text = true ->
      _calculate_confidence text intent_type task_type = PyFloat.decimal 10 10)
  /\ _calculate_confidence ten_words QUESTION GENERAL_CHAT
     = S754_finite false 4503599627370496 (-52).
Proof.
  intros word_count has_keyword.
  assert (Hmain :
    _calculate_confidence text intent_type task_type
    = PyFloat.decimal (specified_hundredths intent_type word_count has_keyword) 100).
  { unfold _calculate_confidence. fold word_count has_keyword.
    assert (Hwc : 0 <= word_count) by (unfold word_count; lia).
    clearbody word_count has_keyword.
    destruct (Z.lt_ge_cases word_count 5) as [Hsmall|Hlarge].
    - assert (Hcases : word_count = 0 \/ word_count = 1 \/ word_count = 2
                       \/ word_count = 3 \/ word_count = 4) by lia.
      destruct Hcases as [->|[->|[->|[->| ->]]]];
        destruct intent_type, has_keyword; by vm_compute.
    - rewrite (PyFloatSpec.length_bonus_saturated word_count Hlarge).
      unfold specified_hundredths. rewrite (Z.min_r (word_count * 5) 20) by lia.
      destruct intent_type, has_keyword; by vm_compute. }
  split; [exact Hmain|]. split; [|by vm_compute].
  intros Hten Hintent Hkw. rewrite Hmain, Hten.
  assert (has_keyword = true) as ->.
  { unfold has_keyword, keywords. cbn [existsb]. by rewrite Hkw. }
  destruct intent_type; [by vm_compute..|done].
Qed.

Lemma confidence_formula_witness :
  _calculate_confidence ten_words COMMAND DATA_ANALYSIS = PyFloat.decimal 10 10.
Proof.
  refine (proj1 (proj2 (confidence_formula ten_words COMMAND DATA_ANALYSIS)) _ _ _).
  - vm_compute. reflexivity.
  - discriminate.
  - vm_compute. reflexivity.
Defined.

End NLPSpec.

(* ===================================================================== *)
(** * More properties of the workflow models                              *)
(* ===================================================================== *)

Module WorkflowEditSpec.
Import Dict DictSpec Workflow WorkflowSpec WorkflowEdit.

(** ** The search reports only cycles that exist *)

Lemma visit_deps_sound w vis x :
  (forall d st, (forall y, y ∈ snd st -> tc (step_needs w) y d) ->
                sound_answer w st (vis d st)) ->
  forall deps st,
    (forall d, d ∈ deps -> step_needs w x d) ->
    (forall y, y ∈ snd st -> y = x \/ tc (step_needs w) y x) ->
    sound_answer w st (visit_deps vis deps st).
Proof.
  intros Hvis. induction deps as [|dep rest IH]; intros st Hdeps Hstack b st'.
  - cbn. intros [= <- <-]. split; [done|set_solver].
  - assert (Hedge : step_needs w x dep) by (apply Hdeps; left).
    cbn [visit_deps]. case_decide as Hnew.
    + destruct (vis dep st) as [[b1 st1]|] eqn:Hcall; [|done].
      assert (Hreach : forall y, y ∈ snd st -> tc (step_needs w) y dep).
      { intros y [->|Hy]%Hstack; [by apply tc_once|by eapply tc_r]. }
      destruct (Hvis dep st Hreach b1 st1 Hcall) as [Ht Hf].
      destruct b1; [intros [= <- <-]; by split|]. specialize (Hf eq_refl).
      intros Hrest.
      destruct (IH st1) with (b := b) (st' := st') as [Ht' Hf']; try done.
      { intros; apply Hdeps; by right. }
      { intros y Hy. apply Hstack. set_solver. }
      split; [done|]. intros Hb. specialize (Hf' Hb). set_solver.
    + case_decide as Hrec.
      * intros [= <- <-]. split; [|done]. intros _.
        destruct (Hstack dep Hrec) as [->|Hreach].
        -- exists x. by apply tc_once.
        -- exists dep. by eapply tc_r.
      * apply IH; [intros; apply Hdeps; by right|done].
Qed.

Lemma visit_sound w (n : nat) :
  forall x st, (forall y, y ∈ snd st -> tc (step_needs w) y x) ->
               sound_answer w st (visit n w x st).
Proof.
  induction n as [|n IH]; intros x st Hstack b st'; [done|].
  cbn [visit]. destruct (get_step w x) as [step|] eqn:Hstep.
  - destruct (visit_deps (visit n w) (dependencies step)
                ({[x]} ∪ fst st, {[x]} ∪ snd st)) as [[b1 st1]|] eqn:Hloop;
      [|by destruct b].
    assert (Hedges : forall d, d ∈ dependencies step -> step_needs w x d)
      by (intros d Hd; by exists step).
    assert (Hstack' : forall y, y ∈ ({[x]} ∪ snd st : gset string) ->
                                y = x \/ tc (step_needs w) y x).
    { intros y [->%elem_of_singleton|Hy]%elem_of_union;
        [by left|right; by apply Hstack]. }
    destruct (visit_deps_sound w (visit n w) x IH (dependencies step)
                ({[x]} ∪ fst st, {[x]} ∪ snd st) Hedges Hstack' b1 st1 Hloop)
      as [Ht Hf].
    destruct b1; intros [= <- <-]; [by split|]. split; [done|]. intros _.
    specialize (Hf eq_refl). cbn [snd] in *. set_solver.
  - intros [= <- <-]. split; [done|]. intros _. cbn [snd]. set_solver.
Qed.

Lemma visit_steps_sound w (depth : nat) :
  forall todo visited,
    visit_steps depth w todo visited = Some true -> has_cycle w.
Proof.
  induction todo as [|step rest IH]; intros visited; [done|].
  cbn [visit_steps]. case_decide as Hnew; [|apply IH].
  destruct (visit depth w (step_id step) (visited, ∅)) as [[b1 st1]|] eqn:Hcall;
    [|done].
  assert (Hempty : forall y, y ∈ snd (visited, (∅ : gset string)) ->
                             tc (step_needs w) y (step_id step))
    by (cbn [snd]; set_solver).
  destruct (visit_sound w depth (step_id step) (visited, ∅) Hempty b1 st1 Hcall)
    as [Ht _].
  destruct b1; [intros _; by apply Ht|apply IH].
Qed.

Lemma step_needs_depends_on w s d : step_needs w s d -> depends_on w s d.
Proof.
  intros (step & [Hin Hid]%get_step_Some & Hd). by exists step.
Qed.

Lemma has_cycle_on_cycle w : has_cycle w -> exists s, on_cycle w s.
Proof.
  intros (s & Hs). exists s. unfold on_cycle. revert Hs.
  generalize s at 1 3. intros s'.
  induction 1 as [x y Hxy|x y z Hxy Hyz IH].
  - apply tc_once. by apply step_needs_depends_on.
  - eapply tc_l; [|exact IH]. by apply step_needs_depends_on.
Qed.

(** An answer [True] of [_has_circular_dependency] comes with a cycle,
    and with distinct step ids its answer [False] excludes one. *)
Lemma has_circular_dependency_iff recursion_limit w b :
  _has_circular_dependency recursion_limit w = Some b ->
  (b = true -> exists s, on_cycle w s)
  /\ (NoDup (step_ids w) -> (exists s, on_cycle w s) -> b = true).
Proof.
  intros Hb. split.
  - intros ->. apply has_cycle_on_cycle.
    by eapply visit_steps_sound.
  - intros Hnd (s & Hs). destruct b; [done|]. exfalso.
    apply (has_circular_dependency_false _ _ Hb s).
    by apply on_cycle_step_needs.
Qed.

(** X1.  [_has_circular_dependency] returns when the recursion limit
    allows more nested calls of [visit] than the workflow has steps, and
    an answer given within one limit is the answer within every larger
    one.  Whenever it returns, it answers [True] only when some step is
    on a cycle of dependencies, and when the step ids are distinct it
    answers [True] for every workflow that has such a cycle.  Within too
    small a limit the [RecursionError] leaves the method: for a chain of
    three steps searched from its last step, two nested calls are not
    enough and three are. *)
Theorem circular_dependency_exact (w : Workflow) (recursion_limit : nat) :
  ((length (steps w) < recursion_limit)%nat ->
   exists b, _has_circular_dependency recursion_limit w = Some b)
  /\ (forall b,
        _has_circular_dependency recursion_limit w = Some b ->
        (b = true -> exists s, on_cycle w s)
        /\ (NoDup (step_ids w) -> (b = true <-> exists s, on_cycle w s))
        /\ forall larger, (recursion_limit <= larger)%nat ->
             _has_circular_dependency larger w = Some b)
  /\ _has_circular_dependency 2 descent = None
  /\ _has_circular_dependency 3 descent = Some false.
Proof.
  split; [|split; [|by vm_compute]].
  - intros Hlimit.
    destruct (has_circular_dependency_spec _ w Hlimit) as (b & Hb & _).
    by exists b.
  - intros b Hb.
    destruct (has_circular_dependency_iff _ _ _ Hb) as [Hsound Hcomplete].
    split; [done|]. split.
    + intros Hnd. split; [done|by apply Hcomplete].
    + intros larger Hle. by eapply has_circular_dependency_mono.
Qed.

(** ** What [validate] accepts *)

Lemma flat_map_nil {A B : Type} (f : A -> list B) (l : list A) :
  flat_map f l = [] <-> forall x, x ∈ l -> f x = [].
Proof.
  induction l as [|x l IH]; cbn.
  - split; [by intros _ x ?%not_elem_of_nil|done].
  - rewrite app_nil, IH. split.
    + intros [Hx Hl] y [->|Hy]%elem_of_cons; [done|by apply Hl].
    + intros H. split; [apply H; left|intros y Hy; apply H; by right].
Qed.

Lemma dependency_errors_nil w : dependency_errors w = [] <-> resolvable w.
Proof.
  split; [apply resolvable_by_validate|].
  intros Hres. unfold dependency_errors. apply flat_map_nil. intros step Hstep.
  apply flat_map_nil. intros d Hd.
  by rewrite bool_decide_eq_true_2 by (by eapply Hres).
Qed.

Lemma variable_errors_nil w :
  variable_errors w = [] <->
  forall var, var ∈ variables w -> var_required var = true ->
    get_variable_value w (var_name var) <> None.
Proof.
  unfold variable_errors. rewrite flat_map_nil. split.
  - intros H var Hvar Hreq Hnone.
    specialize (H (var_name var)). rewrite Hnone in H.
    discriminate H. apply elem_of_map. exists var. split; [done|].
    by apply elem_of_List_filter.
  - intros H n (var & -> & [Hvar Hreq]%elem_of_List_filter)%elem_of_map.
    specialize (H var Hvar Hreq).
    by destruct (get_variable_value w (var_name var)).
Qed.

Lemma distinct_ids_test (l : list string) :
  length l = size (list_to_set l : gset string) <-> NoDup l.
Proof.
  split; [apply length_size_NoDup|]. intros Hnd. by rewrite size_list_to_set.
Qed.

Lemma validate_nil recursion_limit w b :
  _has_circular_dependency recursion_limit w = Some b ->
  validate recursion_limit w = Some [] <-> well_formed w.
Proof.
  intros Hb. unfold validate, well_formed. rewrite Hb.
  destruct (has_circular_dependency_iff _ _ _ Hb) as [Hsound Hcomplete].
  rewrite <- dependency_errors_nil, <- variable_errors_nil, <- distinct_ids_test.
  split.
  - intros [= H]. repeat (apply app_nil in H as [? H]).
    split; [by destruct (String.eqb_spec (name w) "")|].
    split; [by destruct (steps w)|].
    assert (Hnd : length (step_ids w)
                  = size (list_to_set (step_ids w) : gset string))
      by (by case_bool_decide).
    split; [done|]. split; [done|]. split; [|done].
    intros s Hs. destruct b; [done|]. apply distinct_ids_test in Hnd.
    by assert (false = true) by (apply Hcomplete; eauto).
  - intros (Hname & Hsteps & Hnd & Hdeps & Hacyc & Hvars).
    rewrite Hdeps, Hvars, bool_decide_eq_true_2 by done.
    destruct (String.eqb_spec (name w) ""); [done|].
    destruct (steps w); [done|].
    destruct b; [|done]. destruct (Hsound eq_refl) as (s & Hs).
    by apply Hacyc in Hs.
Qed.

(** A workflow for which [validate] returns no error is well formed,
    whatever the recursion limit. *)
Lemma validate_accepts recursion_limit w :
  validate recursion_limit w = Some [] -> well_formed w.
Proof.
  intros Hv.
  destruct (_has_circular_dependency recursion_limit w) as [b|] eqn:Hb.
  - by apply (validate_nil _ _ _ Hb).
  - unfold validate in Hv. by rewrite Hb in Hv.
Qed.

(** With a recursion limit above the number of steps, [validate] returns
    no error exactly for the well-formed workflows. *)
Lemma validate_accepts_iff recursion_limit w :
  (length (steps w) < recursion_limit)%nat ->
  validate recursion_limit w = Some [] <-> well_formed w.
Proof.
  intros Hlimit.
  destruct (has_circular_dependency_spec _ w Hlimit) as (b & Hb & _).
  by apply (validate_nil _ _ _ Hb).
Qed.

(** X2.  Whenever [validate] returns the empty list, the workflow has a
    name, at least one step, distinct step ids, dependencies that all
    name steps and lie on no cycle, and a value for every required
    variable.  When the recursion limit allows more nested calls of the
    search than the workflow has steps, [validate] returns, and it
    returns the empty list exactly for these workflows.  Within a smaller
    limit it can raise for such a workflow: it does for a chain of three
    steps searched from its last step when two nested calls are
    allowed. *)
Theorem validate_empty_iff_well_formed (w : Workflow) (recursion_limit : nat) :
  (validate recursion_limit w = Some [] -> well_formed w)
  /\ ((length (steps w) < recursion_limit)%nat ->
      (exists errors, validate recursion_limit w = Some errors)
      /\ (validate recursion_limit w = Some [] <-> well_formed w))
  /\ well_formed descent
  /\ validate 2 descent = None.
Proof.
  split; [apply validate_accepts|]. split; [|split; [|by vm_compute]].
  - intros Hlimit. split; [by apply validate_returns|].
    by apply validate_accepts_iff.
  - apply (validate_accepts 3). by vm_compute.
Qed.

(** ** A validated workflow is scheduled completely *)

Lemma levels_partition w :
  resolvable w -> acyclic w ->
  exists levels,
    get_execution_order w = Some levels
    /\ NoDup (concat levels)
    /\ (forall s, s ∈ concat levels <-> s ∈ step_ids w)
    /\ (forall level, level ∈ levels -> level <> [])
    /\ (forall step d, step ∈ steps w -> d ∈ dependencies step ->
          strictly_earlier levels d (step_id step)).
Proof.
  intros Hres Hacyc.
  destruct (get_execution_order_inv w) as (levels & d & Hrun & Hinv).
  exists levels. split; [done|].
  pose proof (levels_complete w d levels Hinv Hacyc) as Hall.
  destruct Hinv as (Hnd & Hsub & _ & _ & Hearlier & Hne).
  rewrite app_nil_r in Hnd.
  split; [done|]. split; [|split; [done|]].
  - intros s. split; [|by apply Hall].
    intros Hs. apply Hsub. by rewrite app_nil_r.
  - intros step dep Hstep Hdep.
    assert (Hid : step_id step ∈ step_ids w) by (apply elem_of_map; eauto).
    assert (He : (dep, step_id step) ∈ edges w).
    { apply elem_of_edges. split; [by exists step|by eapply Hres]. }
    destruct (Hearlier _ _ (Hall _ Hid) He) as [Hd Hlt].
    destruct (level_index_elem levels dep Hd) as (ld & Hld & Hdl).
    destruct (level_index_elem levels (step_id step) (Hall _ Hid))
      as (ls & Hls & Hsl).
    by exists (level_index levels dep), (level_index levels (step_id step)), ld, ls.
Qed.

(** X3.  A workflow for which [validate] returns no error is scheduled
    completely by [get_execution_order]: there is at least one level, no
    level is empty, every step id is in exactly one level, and every
    dependency of a step is in a strictly earlier level. *)
Theorem validated_workflow_scheduled (w : Workflow) (recursion_limit : nat) :
  validate recursion_limit w = Some [] ->
  exists levels,
    get_execution_order w = Some levels
    /\ levels <> []
    /\ (forall level, level ∈ levels -> level <> [])
    /\ NoDup (concat levels)
    /\ (forall s, s ∈ concat levels <-> s ∈ step_ids w)
    /\ (forall step d, step ∈ steps w -> d ∈ dependencies step ->
          strictly_earlier levels d (step_id step)).
Proof.
  intros (_ & Hsteps & _ & Hres & Hacyc & _)%validate_accepts.
  destruct (levels_partition w Hres Hacyc)
    as (levels & Hrun & Hnd & Hall & Hne & Hearlier).
  exists levels. split; [done|]. split; [|done].
  intros ->. destruct (steps w) as [|step rest] eqn:Hw; [done|].
  assert (Hin : step_id step ∈ step_ids w)
    by (unfold step_ids; rewrite Hw; left).
  apply Hall in Hin. by apply not_elem_of_nil in Hin.
Qed.

Lemma validated_workflow_scheduled_witness :
  exists levels,
    get_execution_order chain = Some levels
    /\ levels <> []
    /\ NoDup (concat levels)
    /\ (forall s, s ∈ concat levels <-> s ∈ step_ids chain).
Proof.
  destruct (validated_workflow_scheduled chain 1000)
    as (levels & Hrun & Hne & _ & Hnd & Hall & _).
  - vm_compute. reflexivity.
  - by exists levels.
Defined.

(** ** Dependencies that name no step *)

Lemma add_edges_keys id (deps : list string) : forall st st',
  add_edges id deps st = Some st' ->
  forall k, k ∈ dict_keys (fst st') <-> k ∈ dict_keys (fst st).
Proof.
  induction deps as [|dep rest IH]; intros st st'; cbn [add_edges].
  - by intros [= <-].
  - destruct (dict_get dep (fst st)) as [succ|] eqn:Hdep; [|apply IH].
    destruct (dict_get id (snd st)) as [degree|]; [|done].
    intros Hrest k. rewrite (IH _ _ Hrest). cbn [fst].
    rewrite dict_keys_set_elem. split; [|by right].
    intros [->|?]; [|done]. apply dict_get_is_Some. eauto.
Qed.

Lemma add_edges_dangling (K : list string) id (deps : list string) : forall st,
  (forall k, k ∈ K <-> k ∈ dict_keys (fst st)) ->
  add_edges id (List.filter (fun d => bool_decide (d ∈ K)) deps) st
  = add_edges id deps st.
Proof.
  induction deps as [|dep rest IH]; intros st HK; [done|].
  cbn [List.filter add_edges]. case_bool_decide as Hdep.
  - cbn [add_edges].
    destruct (dict_get dep (fst st)) as [succ|] eqn:Hget.
    + destruct (dict_get id (snd st)) as [degree|]; [|done].
      apply IH. intros k. cbn [fst]. rewrite dict_keys_set_elem, HK.
      split; [by right|]. intros [->|?]; [|done].
      apply dict_get_is_Some. eauto.
    + by apply IH.
  - assert (dict_get dep (fst st) = None) as ->.
    { apply dict_get_None. by rewrite <- HK. }
    by apply IH.
Qed.

Lemma build_graph_dangling (K : list string) (todo : list WorkflowStep) :
  forall st,
    (forall k, k ∈ K <-> k ∈ dict_keys (fst st)) ->
    build_graph
      (map (fun step =>
              mkStep (step_id step) (step_name step)
                     (List.filter (fun d => bool_decide (d ∈ K))
                                  (dependencies step))) todo) st
    = build_graph todo st.
Proof.
  induction todo as [|step rest IH]; intros st HK; [done|].
  cbn [map build_graph step_id dependencies].
  rewrite add_edges_dangling by done.
  destruct (add_edges (step_id step) (dependencies step) st) as [st'|] eqn:Hst;
    [|done].
  apply IH. intros k. by rewrite (add_edges_keys _ _ _ _ Hst).
Qed.

Lemma initial_dict_map {V : Type} (c : V) (f : WorkflowStep -> WorkflowStep)
      (l : list WorkflowStep) :
  (forall step, step_id (f step) = step_id step) ->
  forall d,
    fold_left (fun d step => dict_set (step_id step) c d) (map f l) d
    = fold_left (fun d step => dict_set (step_id step) c d) l d.
Proof.
  intros Hf. induction l as [|x l IH]; intros d; [done|].
  cbn [map fold_left]. by rewrite Hf, IH.
Qed.

(** X4.  [get_execution_order] ignores the dependencies that name no
    step: it returns for a workflow what it returns for the same workflow
    without them. *)
Theorem execution_order_ignores_dangling (w : Workflow) :
  get_execution_order (without_dangling w) = get_execution_order w.
Proof.
  unfold get_execution_order, without_dangling, initial_graph,
    initial_in_degree. cbn [steps with_steps].
  rewrite !initial_dict_map by done. rewrite length_map.
  rewrite build_graph_dangling; [done|].
  intros k. cbn [fst]. rewrite <- dict_get_is_Some.
  fold (initial_graph w).
  destruct (initial_represents w) as (Hin & Hout & _). cbn [fst] in *.
  destruct (decide (k ∈ step_ids w)) as [Hk|Hk].
  - destruct (Hin k Hk) as [-> _]. split; [eauto|done].
  - destruct (Hout k Hk) as [-> _]. split; [done|by intros [? ?]].
Qed.


(** ** Adding and removing steps *)

Lemma find_app {A : Type} (p : A -> bool) (l1 l2 : list A) :
  List.find p (l1 ++ l2)
  = match List.find p l1 with Some x => Some x | None => List.find p l2 end.
Proof. induction l1 as [|x l1 IH]; cbn; [done|]. by destruct (p x). Qed.

Lemma get_step_None w id : get_step w id = None <-> id ∉ step_ids w.
Proof.
  unfold get_step, step_ids. induction (steps w) as [|x l IH]; cbn.
  - split; [intros _; apply not_elem_of_nil|done].
  - rewrite not_elem_of_cons.
    destruct (String.eqb_spec (step_id x) id) as [->|Hne]; [naive_solver|].
    rewrite IH. naive_solver.
Qed.

(** X5.  [add_step] appends the step without looking at the ids: under
    every id [get_step] still finds the step it found before, and it
    finds the new step only under an id that no earlier step has.  When
    the id of the new step is already used, [validate] reports the
    duplicate whenever it returns, as it does when the recursion limit
    allows more nested calls of its search than there are steps. *)
Theorem add_step_keeps_earlier_steps (w : Workflow) (step : WorkflowStep) :
  step_ids (add_step w step) = step_ids w ++ [step_id step]
  /\ (forall id,
        get_step (add_step w step) id
        = match get_step w id with
          | Some earlier => Some earlier
          | None => if String.eqb (step_id step) id then Some step else None
          end)
  /\ (step_id step ∉ step_ids w ->
      get_step (add_step w step) (step_id step) = Some step)
  /\ (step_id step ∈ step_ids w ->
      get_step (add_step w step) (step_id step) = get_step w (step_id step)
      /\ get_step w (step_id step) <> None
      /\ (forall recursion_limit errors,
            validate recursion_limit (add_step w step) = Some errors ->
            DuplicateStepId ∈ errors)
      /\ (forall recursion_limit,
            (length (steps (add_step w step)) < recursion_limit)%nat ->
            exists errors,
              validate recursion_limit (add_step w step) = Some errors
              /\ DuplicateStepId ∈ errors)).
Proof.
  assert (Hids : step_ids (add_step w step) = step_ids w ++ [step_id step]).
  { unfold step_ids, add_step. cbn. by rewrite map_app. }
  assert (Hget : forall id,
            get_step (add_step w step) id
            = match get_step w id with
              | Some earlier => Some earlier
              | None => if String.eqb (step_id step) id then Some step else None
              end).
  { intros id. unfold get_step, add_step. cbn. by rewrite find_app. }
  split; [done|]. split; [done|]. split.
  - intros Hfresh%get_step_None. by rewrite Hget, Hfresh, String.eqb_refl.
  - intros Hused.
    destruct (get_step w (step_id step)) as [earlier|] eqn:Hearlier;
      [|by apply (proj1 (get_step_None _ _)) in Hearlier].
    split; [by rewrite Hget, Hearlier|]. split; [done|].
    assert (Hdup : forall recursion_limit errors,
              validate recursion_limit (add_step w step) = Some errors ->
              DuplicateStepId ∈ errors).
    { intros recursion_limit errors Hv.
      apply (validate_cycle _ _ _ Hv). rewrite Hids.
      intros [_ [Hno _]]%NoDup_app. apply (Hno _ Hused). left. }
    split; [done|]. intros recursion_limit Hlimit.
    destruct (validate_returns _ _ Hlimit) as (errors & Hv).
    exists errors. split; [done|]. by eapply Hdup.
Qed.

Lemma remove_first_None id (l : list WorkflowStep) :
  remove_first id l = None <-> id ∉ map step_id l.
Proof.
  induction l as [|x l IH]; cbn.
  - split; [intros _; apply not_elem_of_nil|done].
  - rewrite not_elem_of_cons.
    destruct (String.eqb_spec (step_id x) id) as [->|Hne]; [naive_solver|].
    destruct (remove_first id l); naive_solver.
Qed.

Lemma remove_first_Some id (l l' : list WorkflowStep) :
  remove_first id l = Some l' ->
  exists before step after,
    l = before ++ step :: after /\ l' = before ++ after
    /\ step_id step = id /\ id ∉ map step_id before.
Proof.
  revert l'. induction l as [|x l IH]; intros l'; cbn; [done|].
  destruct (String.eqb_spec (step_id x) id) as [Heq|Hne].
  - intros [= <-]. exists [], x, l. repeat split; try done. apply not_elem_of_nil.
  - destruct (remove_first id l) as [rest|]; [|done]. intros [= <-].
    destruct (IH rest eq_refl) as (before & step & after & -> & -> & Hid & Hno).
    exists (x :: before), step, after. repeat split; try done.
    cbn. rewrite not_elem_of_cons. split; [congruence|done].
Qed.

Lemma with_steps_same w : with_steps w (steps w) = w.
Proof. by destruct w. Qed.

Lemma find_other_id id id' (before after : list WorkflowStep) step :
  step_id step = id -> id' <> id ->
  List.find (fun s => String.eqb (step_id s) id') (before ++ step :: after)
  = List.find (fun s => String.eqb (step_id s) id') (before ++ after).
Proof.
  intros Hid Hne. rewrite !find_app. cbn.
  destruct (String.eqb_spec (step_id step) id'); [congruence|done].
Qed.

(** X6.  [remove_step] returns [False] and changes nothing when no step
    has the id; otherwise it returns [True] and removes the first step
    with the id, and only that one: the steps under other ids are found as
    before, and when the ids were distinct no step is found under the
    removed id.  Removing a step just added under a new id gives the
    workflow back. *)
Theorem remove_step_removes_first (w : Workflow) (id : string) :
  (id ∉ step_ids w -> remove_step w id = (false, w))
  /\ (id ∈ step_ids w ->
      exists before step after,
        steps w = before ++ step :: after
        /\ step_id step = id /\ id ∉ map step_id before
        /\ remove_step w id = (true, with_steps w (before ++ after)))
  /\ (forall id', id' <> id ->
        get_step (snd (remove_step w id)) id' = get_step w id')
  /\ (NoDup (step_ids w) -> get_step (snd (remove_step w id)) id = None)
  /\ (forall step, step_id step = id -> id ∉ step_ids w ->
        remove_step (add_step w step) id = (true, w)).
Proof.
  unfold remove_step. split; [|split; [|split; [|split]]].
  - intros Hno. by rewrite (proj2 (remove_first_None id (steps w)) Hno).
  - intros Hin. destruct (remove_first id (steps w)) as [l'|] eqn:Hrm;
      [|by apply (proj1 (remove_first_None _ _)) in Hrm].
    destruct (remove_first_Some _ _ _ Hrm)
      as (before & step & after & Hw & -> & Hid & Hno).
    by exists before, step, after.
  - intros id' Hne. destruct (remove_first id (steps w)) as [l'|] eqn:Hrm;
      [|done].
    destruct (remove_first_Some _ _ _ Hrm)
      as (before & step & after & Hw & -> & Hid & Hno).
    unfold get_step. cbn. rewrite Hw. symmetry. by apply (find_other_id id).
  - intros Hnd. destruct (remove_first id (steps w)) as [l'|] eqn:Hrm.
    + destruct (remove_first_Some _ _ _ Hrm)
        as (before & step & after & Hw & -> & Hid & Hno).
      apply get_step_None. unfold step_ids in *. cbn. rewrite Hw in Hnd.
      rewrite map_app in *. cbn in Hnd. rewrite Hid in Hnd.
      apply NoDup_app in Hnd as (_ & _ & [Hafter _]%NoDup_cons).
      rewrite elem_of_app. naive_solver.
    + cbn. apply get_step_None. by apply remove_first_None.
  - intros step Hid Hfresh. unfold add_step. cbn.
    assert (remove_first id (steps w ++ [step]) = Some (steps w)) as ->.
    { apply remove_first_None in Hfresh. revert Hfresh.
      induction (steps w) as [|x l IH]; cbn.
      - by rewrite Hid, String.eqb_refl.
      - destruct (String.eqb (step_id x) id); [done|].
        destruct (remove_first id l); [done|]. intros _. by rewrite IH. }
    f_equal. by destruct w.
Qed.

Lemma validate_dependency_error recursion_limit w step d :
  (length (steps w) < recursion_limit)%nat ->
  step ∈ steps w -> d ∈ dependencies step -> d ∉ step_ids w ->
  exists errors, validate recursion_limit w = Some errors
                 /\ DependencyNotFound (step_name step) d ∈ errors.
Proof.
  intros Hlimit Hstep Hd Hno.
  destruct (validate_returns _ w Hlimit) as (errors & Hv).
  exists errors. split; [done|]. revert Hv. unfold validate.
  destruct (_has_circular_dependency recursion_limit w); [|done]. intros [= <-].
  rewrite !elem_of_app. do 3 right. left.
  apply elem_of_flat_map. exists step. split; [done|].
  apply elem_of_flat_map. exists d. split; [done|].
  rewrite bool_decide_eq_false_2 by done. left.
Qed.

(** X7.  [remove_step] does not touch the dependencies of the other
    steps: when the ids are distinct and another step lists the removed
    id, that step is still there afterwards, and [validate], called where
    the recursion limit allows more nested calls of its search than
    there are steps left, reports its dependency as not found. *)
Theorem remove_step_leaves_dependents (w : Workflow) (id : string)
        (other : WorkflowStep) (recursion_limit : nat) :
  NoDup (step_ids w) -> id ∈ step_ids w ->
  other ∈ steps w -> step_id other <> id -> id ∈ dependencies other ->
  (length (steps (snd (remove_step w id))) < recursion_limit)%nat ->
  let w' := snd (remove_step w id) in
  other ∈ steps w'
  /\ id ∉ step_ids w'
  /\ exists errors, validate recursion_limit w' = Some errors
                    /\ DependencyNotFound (step_name other) id ∈ errors.
Proof.
  intros Hnd Hin Hother Hne Hdep Hlimit w'.
  assert (Hsteps : other ∈ steps w' /\ id ∉ step_ids w').
  { unfold w', remove_step.
    destruct (remove_first id (steps w)) as [l'|] eqn:Hrm;
      [|by apply (proj1 (remove_first_None _ _)) in Hrm].
    destruct (remove_first_Some _ _ _ Hrm)
      as (before & step & after & Hw & -> & Hid & Hno).
    unfold step_ids in *. cbn. rewrite Hw in Hother, Hnd.
    rewrite map_app in *. cbn in Hnd. rewrite Hid in Hnd.
    apply NoDup_app in Hnd as (_ & _ & [Hafter _]%NoDup_cons).
    split; [|rewrite elem_of_app; naive_solver].
    rewrite elem_of_app in *. rewrite elem_of_cons in Hother.
    destruct Hother as [?|[->|?]]; [by left|done|by right]. }
  destruct Hsteps as [Hstill Hgone]. split; [done|]. split; [done|].
  by apply validate_dependency_error.
Qed.

Lemma remove_step_leaves_dependents_witness :
  exists errors, validate 1000 (snd (remove_step chain "A")) = Some errors
                 /\ DependencyNotFound "b" "A" ∈ errors.
Proof.
  refine (proj2 (proj2 (remove_step_leaves_dependents chain "A"
                          (mkStep "B" "b" ["A"%string]) 1000 _ _ _ _ _ _))).
  - apply (bool_decide_unpack _). by vm_compute.
  - apply (bool_decide_unpack _). by vm_compute.
  - unfold chain, example_workflow. cbn [steps]. right. left.
  - discriminate.
  - left.
  - vm_compute. lia.
Defined.

(** ** Workflow variables *)

Lemma set_first_None n v (l : list WorkflowVariable) :
  set_first n v l = None <-> n ∉ map var_name l.
Proof.
  induction l as [|x l IH]; cbn.
  - split; [intros _; apply not_elem_of_nil|done].
  - rewrite not_elem_of_cons.
    destruct (String.eqb_spec (var_name x) n) as [->|Hne]; [naive_solver|].
    destruct (set_first n v l); naive_solver.
Qed.

Lemma set_first_Some n v (l l' : list WorkflowVariable) :
  set_first n v l = Some l' ->
  map var_name l' = map var_name l
  /\ map var_required l' = map var_required l
  /\ forall n',
       List.find (fun var => String.eqb (var_name var) n') l'
       = if String.eqb n n'
         then (fun var => mkVariable (var_name var) v (var_required var))
                <$> List.find (fun var => String.eqb (var_name var) n') l
         else List.find (fun var => String.eqb (var_name var) n') l.
Proof.
  revert l'. induction l as [|x l IH]; intros l'; cbn [set_first]; [done|].
  destruct (String.eqb_spec (var_name x) n) as [Heq|Hne].
  - intros [= <-]. split; [done|]. split; [done|]. intros n'.
    subst n. cbn [List.find var_name].
    by destruct (String.eqb (var_name x) n').
  - destruct (set_first n v l) as [rest|]; [|done]. intros [= <-].
    destruct (IH rest eq_refl) as (Hnames & Hreq & Hfind).
    split; [cbn; by rewrite Hnames|]. split; [cbn; by rewrite Hreq|].
    intros n'. cbn [List.find]. rewrite Hfind.
    destruct (String.eqb_spec (var_name x) n') as [Hx|Hx]; [|done].
    destruct (String.eqb_spec n n'); [congruence|done].
Qed.

(** X8.  After [set_variable_value(name, value)], [get_variable_value]
    returns that value under the name and what it returned before under
    every other name; the variable with the name is updated in place when
    there is one (keeping its required flag) and appended otherwise, so no
    name is ever added twice. *)
Theorem set_variable_then_get (w : Workflow) (n : string) (v : option string) :
  let w' := set_variable_value w n v in
  get_variable_value w' n = v
  /\ (forall n', n' <> n -> get_variable_value w' n' = get_variable_value w n')
  /\ map var_name (variables w')
     = (if bool_decide (n ∈ map var_name (variables w))
        then map var_name (variables w)
        else map var_name (variables w) ++ [n])
  /\ steps w' = steps w.
Proof.
  unfold set_variable_value, get_variable_value.
  destruct (set_first n v (variables w)) as [l'|] eqn:Hset; cbn.
  - destruct (set_first_Some _ _ _ _ Hset) as (Hnames & _ & Hfind).
    assert (Hin : n ∈ map var_name (variables w)).
    { destruct (decide (n ∈ map var_name (variables w))) as [|Hno]; [done|].
      apply set_first_None with (v := v) in Hno. congruence. }
    split; [|split; [|split; [|done]]].
    + rewrite Hfind, String.eqb_refl.
      destruct (List.find _ (variables w)) as [var|] eqn:Hvar; [done|].
      exfalso. apply elem_of_map in Hin as (var & -> & Hvar').
      apply list_elem_of_In in Hvar'.
      apply (find_none _ _ Hvar) in Hvar'. cbn in Hvar'.
      by rewrite String.eqb_refl in Hvar'.
    + intros n' Hne. rewrite Hfind.
      by destruct (String.eqb_spec n n'); [congruence|].
    + by rewrite bool_decide_eq_true_2.
  - apply set_first_None in Hset.
    split; [|split; [|split; [|done]]].
    + rewrite find_app. cbn. rewrite String.eqb_refl.
      destruct (List.find _ (variables w)) as [var|] eqn:Hvar; [|done].
      exfalso. apply find_some in Hvar as [Hin Heq%String.eqb_eq].
      apply Hset. apply elem_of_map. exists var.
      split; [done|by apply list_elem_of_In].
    + intros n' Hne. rewrite find_app. cbn.
      destruct (String.eqb_spec n n'); [congruence|].
      by destruct (List.find _ (variables w)).
    + rewrite bool_decide_eq_false_2 by done. by rewrite map_app.
Qed.

End WorkflowEditSpec.

(* ===================================================================== *)
(** * More properties of the tool wrapper                                 *)
(* ===================================================================== *)

Module ToolRetrySpec.
Import Tool ToolSpec ToolRetry.

Section Run.

Variable Params : Type.
Variable validate_parameters : Params -> list string.
Variable _generate_cache_key : string -> Params -> option string.

Abbreviation run := (run Params validate_parameters _generate_cache_key).
Abbreviation path := (path Params validate_parameters _generate_cache_key).
Abbreviation run_calls := (run_calls Params validate_parameters _generate_cache_key).

(** ** The limiter, call by call *)

(** The cases of [run], with the equations of its tests. *)
Ltac by_path t kwargs clock :=
  unfold Tool.run, Tool.path;
  destruct (validate_parameters kwargs) as [|? ?] eqn:Hvalid;
  [ destruct (_check_rate_limit (started t (t_start clock)) (t_rate clock))
      as [allowed t1] eqn:Hrate;
    destruct allowed; cbn [negb];
    [ destruct (_generate_cache_key (tool_name t1) kwargs) as [cache_key|] eqn:Hkey;
      [ destruct (_get_from_cache t1 cache_key (t_lookup clock))
          as [cached t2] eqn:Hget;
        destruct cached as [cached|]; cbn [fst]
      | ]
    | ]
  | ].

Lemma check_rate_limit_started t start now :
  _check_rate_limit (started t start) now
  = if rate_limit_per_minute (config t) <=? Z.of_nat (length (kept t now))
    then (false, set_rate_limit_timestamps (started t start) (kept t now))
    else (true, set_rate_limit_timestamps (started t start)
                  (kept t now ++ [now])).
Proof. done. Qed.

Lemma record_result_frame t key result clock :
  let t' := snd (record_result t key result clock) in
  rate_limit_timestamps t' = rate_limit_timestamps t
  /\ config t' = config t /\ tool_name t' = tool_name t.
Proof.
  unfold record_result, _save_to_cache. cbn [success].
  destruct (success result); cbn [negb orb]; [|done].
  by destruct (negb _ || false).
Qed.

Lemma run_rate_limit t kwargs clock outcome :
  let t' := snd (run t kwargs clock outcome) in
  let now := t_rate clock in
  config t' = config t /\ tool_name t' = tool_name t
  /\ match path t kwargs clock with
     | InvalidParameters => rate_limit_timestamps t' = rate_limit_timestamps t
     | RateLimited =>
         rate_limit_timestamps t' = kept t now
         /\ rate_limit_per_minute (config t) <= Z.of_nat (length (kept t now))
     | NoCacheKey | CacheHit | Executed =>
         rate_limit_timestamps t' = kept t now ++ [now]
         /\ Z.of_nat (length (kept t now)) < rate_limit_per_minute (config t)
     end.
Proof.
  cbn zeta. by_path t kwargs clock.
  all: try (rewrite check_rate_limit_started in Hrate;
            destruct (Z.leb_spec (rate_limit_per_minute (config t))
                                 (Z.of_nat (length (kept t (t_rate clock)))))
              as [Hfull|Hfree];
            try discriminate; injection Hrate as <-).
  all: try (pose proof (get_from_cache_frame
                          (set_rate_limit_timestamps (started t (t_start clock))
                             (kept t (t_rate clock) ++ [t_rate clock]))
                          cache_key (t_lookup clock)) as Hg;
            rewrite Hget in Hg; cbn in Hg;
            destruct Hg as (_ & _ & Hgconfig & Hgname & Hgrate)).
  - (* cache hit *) cbn. by repeat split.
  - (* executed *)
    destruct outcome as [result| | |text]; try (cbn; by repeat split).
    destruct (record_result_frame
                (mkTool (tool_name t2) (config t2) (status t2) (last_used t2)
                   (execution_count t2) (success_count t2) (failure_count t2)
                   (total_execution_time t2) (cache t2) (cache_timestamps t2)
                   (rate_limit_timestamps t2) (S (execute_calls t2)))
                cache_key result clock) as (-> & -> & ->).
    cbn. by repeat split.
  - (* the cache key cannot be built *) cbn. by repeat split.
  - (* rate limited *) cbn. by repeat split.
  - (* invalid parameters *) cbn. by repeat split.
Qed.

(** X9.  The limiter records every call that passes validation and is
    allowed, also those answered from the cache or stopped because no
    cache key can be built, and an allowed call found fewer than
    [rate_limit_per_minute] calls in the last minute; a call with invalid
    parameters leaves the record alone, and a refused call only drops the
    entries older than a minute. *)
Theorem limiter_records_allowed_calls
    (t : BaseTool) (kwargs : Params) (clock : Clock) (outcome : ExecOutcome) :
  let t' := snd (run t kwargs clock outcome) in
  let now := t_rate clock in
  match path t kwargs clock with
  | InvalidParameters => rate_limit_timestamps t' = rate_limit_timestamps t
  | RateLimited =>
      rate_limit_timestamps t' = kept t now
      /\ rate_limit_per_minute (config t) <= Z.of_nat (length (kept t now))
  | NoCacheKey | CacheHit | Executed =>
      rate_limit_timestamps t' = kept t now ++ [now]
      /\ Z.of_nat (length (kept t now)) < rate_limit_per_minute (config t)
  end.
Proof. apply run_rate_limit. Qed.

(** ** Executions within one minute *)

Lemma since_kept a t now :
  a <= now < a + microseconds 60 ->
  List.filter (fun ts => a <=? ts) (kept t now) = since a t.
Proof.
  intros Hnow. unfold kept, since, microseconds in *.
  induction (rate_limit_timestamps t) as [|ts l IH]; [done|].
  cbn [List.filter].
  destruct (Z.ltb_spec (now - 60 * 1000000) ts), (Z.leb_spec a ts);
    cbn [List.filter]; try lia.
  - destruct (Z.leb_spec a ts); [|lia]. by rewrite IH.
  - destruct (Z.leb_spec a ts); [lia|]. by rewrite IH.
  - done.
Qed.

Lemma length_List_filter {A : Type} (p : A -> bool) (l : list A) :
  (length (List.filter p l) <= length l)%nat.
Proof. induction l as [|x l IH]; cbn; [done|]. destruct (p x); cbn; lia. Qed.

Lemma run_since a t kwargs clock outcome :
  a <= t_rate clock < a + microseconds 60 ->
  let t' := snd (run t kwargs clock outcome) in
  match path t kwargs clock with
  | InvalidParameters | RateLimited => since a t' = since a t
  | NoCacheKey | CacheHit | Executed =>
      since a t' = since a t ++ [t_rate clock]
      /\ Z.of_nat (length (since a t)) < rate_limit_per_minute (config t)
  end.
Proof.
  intros Hnow. cbn zeta.
  destruct (run_rate_limit t kwargs clock outcome) as (_ & _ & Hrate).
  cbn zeta in Hrate.
  pose proof (since_kept a t (t_rate clock) Hnow) as Hkept.
  pose proof (length_List_filter (fun ts => a <=? ts) (kept t (t_rate clock)))
    as Hlen. rewrite Hkept in Hlen.
  assert (Hadd : forall ts,
            ts = kept t (t_rate clock) ++ [t_rate clock] ->
            List.filter (fun ts => a <=? ts) ts = since a t ++ [t_rate clock]).
  { intros ts ->. rewrite List.filter_app, Hkept. cbn.
    destruct (Z.leb_spec a (t_rate clock)); [done|lia]. }
  unfold since at 1 3 5.
  destruct (path t kwargs clock).
  - by rewrite Hrate.
  - destruct Hrate as [-> _]. exact Hkept.
  - destruct Hrate as [Hts Hfree]. split; [by apply Hadd|lia].
  - destruct Hrate as [Hts Hfree]. split; [by apply Hadd|lia].
  - destruct Hrate as [Hts Hfree]. split; [by apply Hadd|lia].
Qed.

Lemma run_calls_window a (calls : list (Call Params)) : forall t,
  (forall c, c ∈ calls ->
     a <= t_rate (call_clock Params c) < a + microseconds 60) ->
  let t' := run_calls t calls in
  config t' = config t
  /\ Z.of_nat (execute_calls t') - Z.of_nat (execute_calls t)
     <= Z.of_nat (length (since a t')) - Z.of_nat (length (since a t))
  /\ (length (since a t') = length (since a t)
      \/ Z.of_nat (length (since a t')) <= rate_limit_per_minute (config t)).
Proof.
  induction calls as [|c rest IH]; intros t Hwindow; cbn zeta.
  - cbn. split; [done|]. split; [lia|by left].
  - cbn [Tool.run_calls].
    set (t1 := snd (run t (call_kwargs Params c) (call_clock Params c)
                        (call_outcome Params c))).
    destruct (IH t1) as (Hconfig & Hexec & Hsince);
      [intros; apply Hwindow; by right|].
    assert (Hc : a <= t_rate (call_clock Params c) < a + microseconds 60)
      by (apply Hwindow; left).
    pose proof (run_since a t (call_kwargs Params c) (call_clock Params c)
                  (call_outcome Params c) Hc) as Hstep.
    pose proof (run_counters Params validate_parameters _generate_cache_key
                  t (call_kwargs Params c) (call_clock Params c)
                  (call_outcome Params c)) as Hcount.
    destruct (run_rate_limit t (call_kwargs Params c) (call_clock Params c)
                (call_outcome Params c)) as (Hcfg1 & _ & _).
    cbn zeta in Hstep, Hcount, Hcfg1. fold t1 in Hstep, Hcount, Hcfg1.
    rewrite Hcfg1 in *. split; [done|].
    destruct (path t (call_kwargs Params c) (call_clock Params c)).
    + destruct Hcount as [_ Hcalls]. rewrite Hstep in *. rewrite Hcalls in *.
      by split.
    + destruct Hcount as [_ Hcalls]. rewrite Hstep in *. rewrite Hcalls in *.
      by split.
    + destruct Hcount as [_ Hcalls]. destruct Hstep as [Hs Hfree].
      rewrite Hcalls in *. rewrite Hs, length_app in *. cbn [length] in *.
      split; [lia|]. right. lia.
    + destruct Hcount as [_ Hcalls]. destruct Hstep as [Hs Hfree].
      rewrite Hcalls in *. rewrite Hs, length_app in *. cbn [length] in *.
      split; [lia|]. right. lia.
    + destruct Hcount as [Hcalls _]. destruct Hstep as [Hs Hfree].
      rewrite Hcalls in *. rewrite Hs, length_app in *. cbn [length] in *.
      split; [lia|]. right. lia.
Qed.

(** X10.  Among calls of [run] whose readings of the clock for the
    limiter lie within one minute, [execute] is reached at most
    [rate_limit_per_minute] times (never, when that limit is not
    positive), whatever the state of the tool before them. *)
Theorem executions_per_minute_bounded
    (t : BaseTool) (calls : list (Call Params)) (a : Z) :
  (forall c, c ∈ calls ->
     a <= t_rate (call_clock Params c) < a + microseconds 60) ->
  Z.of_nat (execute_calls (run_calls t calls))
  <= Z.of_nat (execute_calls t) + Z.max 0 (rate_limit_per_minute (config t)).
Proof.
  intros Hwindow.
  destruct (run_calls_window a calls t Hwindow) as (_ & Hexec & Hsince).
  destruct Hsince as [Hsame|Hfull]; lia.
Qed.

(** ** What the cache holds *)

Lemma cache_ok_same t t' :
  cache t' = cache t -> cache_timestamps t' = cache_timestamps t ->
  cache_ok t -> cache_ok t'.
Proof. unfold cache_ok. by intros -> ->. Qed.

Lemma get_from_cache_ok t key now :
  cache_ok t -> cache_ok (snd (_get_from_cache t key now)).
Proof.
  intros [Hdom Hsucc]. unfold _get_from_cache.
  destruct (negb (cache_enabled (config t))); [done|].
  destruct (cache t !! key) eqn:Hk; [|done].
  destruct (cache_timestamps t !! key); [|done].
  destruct (_ <? _); [|done]. split; cbn.
  - intros k. destruct (decide (k = key)) as [->|Hne].
    + rewrite !lookup_delete_eq. split; by intros [? ?].
    + rewrite !lookup_delete_ne by done. apply Hdom.
  - intros k r [_ Hr]%lookup_delete_Some. by eapply Hsucc.
Qed.

Lemma save_to_cache_ok t key result now :
  cache_ok t -> cache_ok (_save_to_cache t key result now).
Proof.
  intros [Hdom Hsucc]. unfold _save_to_cache.
  destruct (negb (cache_enabled (config t))); [done|].
  destruct (success result) eqn:Hres; [|done]. split; cbn.
  - intros k. destruct (decide (k = key)) as [->|Hne].
    + rewrite !lookup_insert_eq. split; eauto.
    + rewrite !lookup_insert_ne by done. apply Hdom.
  - intros k r. destruct (decide (k = key)) as [->|Hne].
    + rewrite lookup_insert_eq. by intros [= <-].
    + rewrite lookup_insert_ne by done. apply Hsucc.
Qed.

Lemma record_result_ok t key result clock :
  cache_ok t -> cache_ok (snd (record_result t key result clock)).
Proof.
  intros Hok. unfold record_result. cbn [success].
  destruct (success result) eqn:Hres; [|by eapply cache_ok_same].
  cbn [snd]. apply save_to_cache_ok; [|done..]. by eapply cache_ok_same.
Qed.

Lemma run_cache_ok t kwargs clock outcome :
  cache_ok t ->
  cache_ok (snd (run t kwargs clock outcome))
  /\ (path t kwargs clock = CacheHit ->
      success (fst (run t kwargs clock outcome)) = true).
Proof.
  intros Hok. by_path t kwargs clock.
  all: try (pose proof (check_rate_limit_frame (started t (t_start clock))
                          (t_rate clock)) as Hr;
            rewrite Hrate in Hr; cbn in Hr;
            destruct Hr as (_ & _ & Hrcache & Hrstamps & _ & _);
            assert (Hok1 : cache_ok t1) by (by eapply cache_ok_same)).
  all: try (pose proof (get_from_cache_ok t1 cache_key (t_lookup clock) Hok1)
              as Hok2; rewrite Hget in Hok2; cbn [snd] in Hok2).
  - (* cache hit *)
    split; [by eapply cache_ok_same|]. intros _. cbn [fst].
    pose proof (get_from_cache_hit t1 cache_key (t_lookup clock) cached) as Hhit.
    rewrite Hget in Hhit. destruct (Hhit eq_refl) as [Hstored _].
    destruct Hok1 as [_ Hsucc]. by eapply Hsucc.
  - (* executed *)
    split; [|done].
    destruct outcome as [result| | |text]; try by eapply cache_ok_same.
    apply record_result_ok. by eapply cache_ok_same.
  - split; [by eapply cache_ok_same|done].
  - split; [by eapply cache_ok_same|done].
  - split; [by eapply cache_ok_same|done].
Qed.

Lemma run_calls_cache_ok (calls : list (Call Params)) : forall t,
  cache_ok t -> cache_ok (run_calls t calls).
Proof.
  induction calls as [|c rest IH]; intros t Hok; [done|].
  cbn [Tool.run_calls]. apply IH. by apply run_cache_ok.
Qed.

(** X11.  Through any sequence of calls of [run] on a new tool, the cache
    holds successful results only, a key has a cached result exactly when
    it has a timestamp (so that every entry expires), and a call answered
    from the cache returns a successful result. *)
Theorem cache_holds_only_successes
    (name : string) (cfg : ToolConfig) (calls : list (Call Params))
    (kwargs : Params) (clock : Clock) (outcome : ExecOutcome) :
  let t := run_calls (init name cfg) calls in
  (forall k r, cache t !! k = Some r -> success r = true)
  /\ (forall k, is_Some (cache t !! k) <-> is_Some (cache_timestamps t !! k))
  /\ (path t kwargs clock = CacheHit ->
      success (fst (run t kwargs clock outcome)) = true).
Proof.
  intros t.
  assert (Hok : cache_ok t).
  { apply run_calls_cache_ok. split; cbn.
    - intros k. rewrite !lookup_empty. split; by intros [? ?].
    - intros k r. by rewrite lookup_empty. }
  split; [apply Hok|]. split; [apply Hok|].
  by apply run_cache_ok.
Qed.

(** ** An entry older than the time to live *)

(** X12.  When a call of [run] has executed and cached a successful
    result, a call with the same arguments whose cache lookup comes more
    than [cache_ttl_seconds] after the entry was saved is not answered
    from the cache: unless the limiter refuses it, [execute] is invoked a
    second time, the old entry is dropped, and the key is cached again
    only if the new result is a success. *)
Theorem expired_entry_not_served
    (t : BaseTool) (kwargs : Params) (clock1 clock2 : Clock)
    (result : ToolResult) (outcome2 : ExecOutcome) :
  cache_enabled (config t) = true ->
  path t kwargs clock1 = Executed ->
  success result = true ->
  microseconds (cache_ttl_seconds (config t)) < t_lookup clock2 - t_save clock1 ->
  let t1 := snd (run t kwargs clock1 (Returns result)) in
  let r2 := fst (run t1 kwargs clock2 outcome2) in
  let t2 := snd (run t1 kwargs clock2 outcome2) in
  (path t1 kwargs clock2 = Executed \/ path t1 kwargs clock2 = RateLimited)
  /\ (path t1 kwargs clock2 = Executed ->
      execute_calls t2 = S (S (execute_calls t))
      /\ exists key,
           _generate_cache_key (tool_name t) kwargs = Some key
           /\ match outcome2 with
              | Returns result2 =>
                  r2 = mkResult (success result2) (data result2)
                                (error_message result2)
                                (t_end clock2 - t_start clock2)
                  /\ cache t2 !! key = if success result2 then Some r2 else None
              | _ => success r2 = false /\ cache t2 !! key = None
              end).
Proof.
  intros Hen Hpath Hsucc Hage t1 r2 t2.
  destruct (first_call_state Params validate_parameters _generate_cache_key
              t kwargs clock1 result Hen Hpath Hsucc)
    as (key & Hvalid1 & Hkey1 & Hr1 & Hc1 & Hts1 & Hcfg1 & Hname1 & Hcalls1).
  fold t1 in Hr1, Hc1, Hts1, Hcfg1, Hname1, Hcalls1.
  subst r2 t2. clearbody t1. clear Hpath.
  unfold Tool.run, Tool.path. rewrite Hvalid1.
  destruct (_check_rate_limit (started t1 (t_start clock2)) (t_rate clock2))
    as [allowed t1'] eqn:Hrate.
  pose proof (check_rate_limit_frame (started t1 (t_start clock2))
                (t_rate clock2)) as Hr.
  rewrite Hrate in Hr. cbn in Hr.
  destruct Hr as (_ & Hrcalls & Hrcache & Hrstamps & Hrconfig & Hrname).
  destruct allowed; cbn [negb]; [|split; [by right|done]].
  rewrite Hrname, Hname1, Hkey1.
  unfold _get_from_cache. rewrite Hrconfig, Hcfg1, Hen. cbn [negb].
  rewrite Hrcache, Hrstamps, Hc1, Hts1.
  rewrite (proj2 (Z.ltb_lt _ _) Hage). cbn [fst].
  split; [by left|]. intros _.
  assert (Hgone : delete key (cache t1) !! key = None)
    by apply lookup_delete_eq.
  destruct outcome2 as [result2| | |text]; cbn.
  - unfold record_result, _save_to_cache. cbn [success].
    destruct (success result2); cbn.
    + rewrite Hrconfig, Hcfg1, Hen. cbn.
      split; [congruence|]. exists key. split; [done|].
      by rewrite lookup_insert_eq.
    + split; [congruence|]. by exists key.
  - split; [congruence|]. by exists key.
  - split; [congruence|]. by exists key.
  - split; [congruence|]. by exists key.
Qed.

(** ** Retries *)

Variable attempts : nat -> Clock * ExecOutcome.

Abbreviation retry_loop :=
  (retry_loop Params validate_parameters _generate_cache_key attempts).
Abbreviation run_with_retry :=
  (run_with_retry Params validate_parameters _generate_cache_key attempts).
Abbreviation before_attempt :=
  (before_attempt Params validate_parameters _generate_cache_key attempts).
Abbreviation attempt_result :=
  (attempt_result Params validate_parameters _generate_cache_key attempts).

Lemma retry_loop_step n a t0 kwargs last :
  retry_loop (S n) a (before_attempt t0 kwargs a) kwargs last
  = if success (fst (attempt_result t0 kwargs a))
    then attempt_result t0 kwargs a
    else retry_loop n (S a) (before_attempt t0 kwargs (S a)) kwargs
                    (Some (fst (attempt_result t0 kwargs a))).
Proof.
  cbn [ToolRetry.retry_loop ToolRetry.before_attempt].
  unfold ToolRetry.attempt_result.
  by destruct (try_run _ _ _ _ _ _ _) as [result t'].
Qed.

Lemma retry_loop_first_success t0 kwargs (n : nat) : forall a last i,
  (a <= i < a + n)%nat ->
  (forall j, (a <= j < i)%nat -> success (fst (attempt_result t0 kwargs j)) = false) ->
  success (fst (attempt_result t0 kwargs i)) = true ->
  retry_loop n a (before_attempt t0 kwargs a) kwargs last
  = attempt_result t0 kwargs i.
Proof.
  induction n as [|n IH]; intros a last i Hi Hfail Hok; [lia|].
  rewrite retry_loop_step.
  destruct (decide (i = a)) as [->|Hne]; [by rewrite Hok|].
  rewrite Hfail by lia. apply IH; [lia| |done].
  intros j Hj. apply Hfail. lia.
Qed.

Lemma retry_loop_all_fail t0 kwargs (n : nat) : forall a last,
  (forall j, (a <= j < a + n)%nat ->
     success (fst (attempt_result t0 kwargs j)) = false) ->
  retry_loop n a (before_attempt t0 kwargs a) kwargs last
  = (match n with
     | O => match last with
            | Some result => result
            | None => error_result (ToolMessage "모든 재시도 실패") 0
            end
     | S k => fst (attempt_result t0 kwargs (a + k))
     end, before_attempt t0 kwargs (a + n)).
Proof.
  induction n as [|n IH]; intros a last Hfail.
  - cbn. by rewrite Nat.add_0_r.
  - rewrite retry_loop_step, Hfail by lia.
    rewrite IH by (intros j Hj; apply Hfail; lia).
    replace (S a + n)%nat with (a + S n)%nat by lia. f_equal.
    destruct n as [|k]; [by rewrite Nat.add_0_r|].
    by replace (S a + k)%nat with (a + S k)%nat by lia.
Qed.

Lemma first_success_or_none (f : nat -> bool) (n : nat) :
  (exists i, (i < n)%nat /\ f i = true /\ forall j, (j < i)%nat -> f j = false)
  \/ (forall j, (j < n)%nat -> f j = false).
Proof.
  induction n as [|n [(i & Hi & Hok & Hfail)|Hnone]].
  - right. lia.
  - left. exists i. split; [lia|done].
  - destruct (f n) eqn:Hn.
    + left. exists n. split; [lia|done].
    + right. intros j Hj. destruct (decide (j = n)) as [->|]; [done|].
      apply Hnone. lia.
Qed.

(** X13.  [run_with_retry] calls [run] at most [max_retries + 1] times:
    it returns the result of the first call that succeeds and makes no
    call after it; when none of them succeeds it returns the result of
    the last one; and when [max_retries] is negative it makes no call and
    returns an error result.  So its result is a success exactly when one
    of the first [max_retries + 1] calls succeeds. *)
Theorem run_with_retry_attempts (t : BaseTool) (kwargs : Params) :
  let n := Z.to_nat (max_retries (config t) + 1) in
  let ok i := success (fst (attempt_result t kwargs i)) in
  (forall i, (i < n)%nat -> (forall j, (j < i)%nat -> ok j = false) ->
             ok i = true ->
             run_with_retry t kwargs = attempt_result t kwargs i)
  /\ ((forall j, (j < n)%nat -> ok j = false) ->
      run_with_retry t kwargs
      = (match n with
         | O => error_result (ToolMessage "모든 재시도 실패") 0
         | S k => fst (attempt_result t kwargs k)
         end, before_attempt t kwargs n))
  /\ (success (fst (run_with_retry t kwargs)) = true
      <-> exists i, (i < n)%nat /\ ok i = true).
Proof.
  intros n ok. unfold ToolRetry.run_with_retry. fold n.
  assert (Hfirst : forall i, (i < n)%nat ->
            (forall j, (j < i)%nat -> ok j = false) -> ok i = true ->
            retry_loop n 0 t kwargs None = attempt_result t kwargs i).
  { intros i Hi Hfail Hok.
    apply (retry_loop_first_success t kwargs n 0 None i); [lia| |done].
    intros j Hj. apply Hfail. lia. }
  assert (Hnone : (forall j, (j < n)%nat -> ok j = false) ->
            retry_loop n 0 t kwargs None
            = (match n with
               | O => error_result (ToolMessage "모든 재시도 실패") 0
               | S k => fst (attempt_result t kwargs k)
               end, before_attempt t kwargs n)).
  { intros Hfail. apply (retry_loop_all_fail t kwargs n 0 None).
    intros j Hj. apply Hfail. lia. }
  split; [done|]. split; [done|]. split.
  - intros Hsucc.
    destruct (first_success_or_none ok n) as [(i & Hi & Hok & Hfail)|Hfail];
      [by exists i|].
    rewrite (Hnone Hfail) in Hsucc. cbn [fst] in Hsucc.
    destruct n as [|k]; [done|].
    assert (Hk : ok k = false) by (apply Hfail; lia).
    unfold ok in Hk. congruence.
  - intros (i & Hi & Hok).
    destruct (first_success_or_none ok n) as [(i' & Hi' & Hok' & Hfail)|Hfail].
    + by rewrite (Hfirst i' Hi' Hfail Hok').
    + specialize (Hfail i Hi). congruence.
Qed.

End Run.

Lemma executions_per_minute_bounded_witness :
  Z.of_nat (execute_calls
              (run_calls unit (fun _ => []) (fun name _ => Some name)
                         (init "tool" strict_config) burst))
  <= 0 + 1.
Proof.
  apply (executions_per_minute_bounded unit (fun _ => []) (fun name _ => Some name)
           (init "tool" strict_config) burst 0).
  intros c Hc. unfold burst in Hc.
  repeat (apply elem_of_cons in Hc as [->|Hc];
          [vm_compute; split; [discriminate|reflexivity]|]).
  by apply not_elem_of_nil in Hc.
Defined.

Lemma expired_entry_not_served_witness :
  let t0 := init "tool" default_config in
  let t1 := snd (unit_run t0 tt first_clock (Returns ok_result)) in
  unit_path t1 tt late_clock = Executed
  \/ unit_path t1 tt late_clock = RateLimited.
Proof.
  refine (proj1 (expired_entry_not_served unit (fun _ => []) (fun name _ => Some name)
                   (init "tool" default_config) tt first_clock late_clock
                   ok_result TimesOut _ _ _ _)).
  - reflexivity.
  - vm_compute. reflexivity.
  - reflexivity.
  - vm_compute. reflexivity.
Defined.

Lemma run_with_retry_attempts_witness :
  unit_retry (init "tool" default_config) tt
  = attempt_result unit (fun _ => []) (fun name _ => Some name) flaky
                   (init "tool" default_config) tt 2.
Proof.
  refine (proj1 (run_with_retry_attempts unit (fun _ => [])
                   (fun name _ => Some name) flaky
                   (init "tool" default_config) tt) 2%nat _ _ _).
  - vm_compute. lia.
  - intros j Hj. destruct j as [|[|j]]; [by vm_compute..|lia].
  - by vm_compute.
Defined.

End ToolRetrySpec.

(* ===================================================================== *)
(** * More properties of the agent                                        *)
(* ===================================================================== *)

Module AgentOpsSpec.
Import Task Agent AgentSpec AgentOps.

(** ** The counters and the records *)





Lemma process_tasks_cases process_task a :
  _process_tasks process_task a = a
  \/ exists task q,
       task_queue a = task :: q
       /\ task_queue (_process_tasks process_task a) = q
       /\ completed_tasks (_process_tasks process_task a)
          = completed_tasks a ++ [execution_of process_task (agent_id a) task].
Proof.
  unfold _process_tasks.
  destruct (negb (AgentStatus_eqb (status a) IDLE)); [by left|].
  destruct (task_queue a) as [|task q]; [by left|].
  right. by exists task, q.
Qed.



(** ** No task is lost or run twice *)

Lemma StronglySorted_tail {A : Type} (R : A -> A -> Prop) x (l : list A) :
  StronglySorted R (x :: l) -> StronglySorted R l.
Proof. by inversion 1. Qed.

Lemma add_task_cases a task :
  add_task a task = (false, a)
  \/ (fst (add_task a task) = true
      /\ task_queue (snd (add_task a task))
         = insert_by_priority task (task_queue a)
      /\ completed_tasks (snd (add_task a task)) = completed_tasks a).
Proof.
  unfold add_task. destruct (has_unmet_dependency a task); [by left|by right].
Qed.

Lemma run_ops_conserves process_task (ops : list Op) : forall a,
  let a' := run_ops process_task a ops in
  map task_id (task_queue a') ++ map exec_task_id (completed_tasks a')
  ≡ₚ (map task_id (task_queue a) ++ map exec_task_id (completed_tasks a))
     ++ map task_id (accepted process_task a ops)
  /\ completed_tasks a `prefix_of` completed_tasks a'
  /\ (StronglySorted prio_ge (task_queue a) ->
      StronglySorted prio_ge (task_queue a')).
Proof.
  induction ops as [|op rest IH]; intros a; cbn zeta.
  - cbn. by rewrite app_nil_r.
  - change (run_ops process_task a (op :: rest))
      with (run_ops process_task (apply_op process_task a op) rest).
    destruct (IH (apply_op process_task a op)) as (Hperm & Hpre & Hsorted).
    destruct op as [task|]; cbn [apply_op accepted] in *.
    + destruct (add_task_cases a task) as [Hno|(Hyes & Hqueue & Hdone)].
      * rewrite Hno in *. by cbn [fst snd app] in *.
      * rewrite Hyes, Hqueue, Hdone in *. split; [|split; [done|]].
        -- rewrite Hperm. cbn [map app].
           etrans; [|apply Permutation_middle].
           apply (Permutation_app_tail _ (l := _ ++ _) (l' := _ :: _ ++ _)).
           apply (Permutation_app_tail _ (l' := _ :: _)).
           apply (Permutation_map task_id (insert_by_priority_perm task _)).
        -- intros Hs. by apply Hsorted, insert_by_priority_sorted.
    + destruct (process_tasks_cases process_task a)
        as [Hsame|(task & q & Hqueue & Hrest & Hdone)].
      * by rewrite Hsame in *.
      * rewrite Hrest, Hdone in *. rewrite Hqueue. split; [|split].
        -- rewrite Hperm. apply Permutation_app_tail.
           rewrite map_app. cbn [map exec_task_id execution_of app].
           rewrite (assoc_L (++)). symmetry. apply Permutation_cons_append.
        -- etrans; [|exact Hpre]. by apply prefix_app_r.
        -- intros Hs. by eapply Hsorted, StronglySorted_tail.
Qed.

(** X15.  Through any interleaving of calls of [add_task] and passes of
    the main loop, no task is lost and none is run twice: the ids of the
    queue and of the execution records afterwards are those before,
    together with the ids of the tasks that [add_task] accepted; the old
    records are kept in place, and a queue ordered by priority stays
    ordered. *)
Theorem agent_conserves_tasks
    (process_task : AgentTask -> Outcome) (a : BaseAgent) (ops : list Op) :
  let a' := run_ops process_task a ops in
  map task_id (task_queue a') ++ map exec_task_id (completed_tasks a')
  ≡ₚ (map task_id (task_queue a) ++ map exec_task_id (completed_tasks a))
     ++ map task_id (accepted process_task a ops)
  /\ completed_tasks a `prefix_of` completed_tasks a'
  /\ (StronglySorted prio_ge (task_queue a) ->
      StronglySorted prio_ge (task_queue a')).
Proof. apply run_ops_conserves. Qed.

(** ** A processed task and the tasks that depend on it *)




End AgentOpsSpec.

(* ===================================================================== *)
(** * More properties of the monitor                                      *)
(* ===================================================================== *)

Module MonitorQuerySpec.
Import Dict DictSpec Monitor MonitorQuery.

(** ** Deleting a key *)

Lemma dict_keys_del {V : Type} k (d : list (string * V)) :
  NoDup (dict_keys d) ->
  NoDup (dict_keys (dict_del k d))
  /\ forall k', k' ∈ dict_keys (dict_del k d) <-> k' <> k /\ k' ∈ dict_keys d.
Proof.
  induction d as [|[k0 v0] d IH]; cbn.
  - intros _. split; [constructor|]. intros k'.
    split; [by intros ?%not_elem_of_nil|by intros [_ ?%not_elem_of_nil]].
  - intros [Hk0 Hnd]%NoDup_cons. destruct (IH Hnd) as [IHnd IHin].
    destruct (String.eqb_spec k0 k) as [->|Hne].
    + split; [done|]. intros k'. rewrite elem_of_cons. split.
      * intros Hin. split; [by intros ->|by right].
      * by intros [Hne [->|Hin]].
    + cbn. split.
      * apply NoDup_cons. split; [|done]. rewrite IHin. by intros [_ ?].
      * intros k'. rewrite !elem_of_cons, IHin. split.
        -- intros [->|[? ?]]; [by split; [|left]|by split; [|right]].
        -- intros [? [->|?]]; [by left|by right].
Qed.

Lemma dict_get_del {V : Type} k k' (d : list (string * V)) :
  NoDup (dict_keys d) ->
  dict_get k' (dict_del k d)
  = if decide (k = k') then None else dict_get k' d.
Proof.
  induction d as [|[k0 v0] d IH]; cbn [dict_del]; intros Hnd.
  - by case_decide.
  - cbn in Hnd. apply NoDup_cons in Hnd as [Hk0 Hnd].
    destruct (String.eqb_spec k0 k) as [->|Hne].
    + rewrite dict_get_cons. case_decide as Hk; [|done]. subst k'.
      by apply dict_get_None.
    + rewrite !dict_get_cons, (IH Hnd).
      repeat case_decide; congruence.
Qed.

Section Query.

Variable Metrics : Type.

Abbreviation init := (init Metrics).
Abbreviation registry_ok := (registry_ok Metrics).
Abbreviation remove_alert_rule := (remove_alert_rule Metrics).
Abbreviation apply_rule_op := (apply_rule_op Metrics).
Abbreviation add_alert_rule := (add_alert_rule Metrics).
Abbreviation get_events := (get_events Metrics).
Abbreviation get_alert_summary := (get_alert_summary Metrics).
Abbreviation recent_alerts := (recent_alerts Metrics).
Abbreviation _cleanup_old_events := (_cleanup_old_events Metrics).

(** ** The rules are stored under their ids *)

Lemma add_alert_rule_ok m rule : registry_ok m -> registry_ok (add_alert_rule m rule).
Proof.
  intros [Hkeys Hnd]. split.
  - intros k r. unfold Monitor.add_alert_rule. cbn [alert_rules].
    rewrite dict_get_set. case_decide as Hk; [|apply Hkeys].
    by intros [= <-].
  - cbn. by apply dict_keys_set_NoDup.
Qed.

Lemma remove_alert_rule_ok m rule_id :
  registry_ok m -> registry_ok (snd (remove_alert_rule m rule_id)).
Proof.
  intros [Hkeys Hnd]. unfold MonitorQuery.remove_alert_rule.
  destruct (dict_get rule_id (alert_rules Metrics m)); [|done]. split.
  - intros k r. cbn [snd alert_rules]. rewrite dict_get_del by done.
    case_decide; [done|apply Hkeys].
  - cbn. by apply dict_keys_del.
Qed.

Lemma init_ok : registry_ok init.
Proof.
  unfold MonitorQuery.init, default_rules. cbn [fold_left].
  repeat apply add_alert_rule_ok. split; [done|constructor].
Qed.

Lemma rule_ops_ok (ops : list RuleOp) : forall m,
  registry_ok m -> registry_ok (fold_left apply_rule_op ops m).
Proof.
  induction ops as [|op rest IH]; intros m Hm; [done|].
  cbn [fold_left]. apply IH. destruct op; cbn.
  - by apply add_alert_rule_ok.
  - by apply remove_alert_rule_ok.
Qed.

(** X17.  In a monitor built by [__init__] and any sequence of
    [add_alert_rule] and [remove_alert_rule], every rule is stored under
    its own id and no id is stored twice.  There, [add_alert_rule] makes
    the rule the one found under its id (replacing a rule with that id and
    its cooldown), [remove_alert_rule] returns [True] exactly when the id
    was stored and leaves no rule under it, and neither changes what is
    found under another id. *)
Theorem alert_rules_registry (ops : list RuleOp) (rule : AlertRule)
        (rule_id other : string) :
  let m := fold_left apply_rule_op ops init in
  well_keyed Metrics m
  /\ NoDup (dict_keys (alert_rules Metrics m))
  /\ dict_get (Monitor.rule_id rule) (alert_rules Metrics (add_alert_rule m rule))
     = Some rule
  /\ (other <> Monitor.rule_id rule ->
      dict_get other (alert_rules Metrics (add_alert_rule m rule))
      = dict_get other (alert_rules Metrics m))
  /\ (fst (remove_alert_rule m rule_id) = true
      <-> rule_id ∈ dict_keys (alert_rules Metrics m))
  /\ dict_get rule_id (alert_rules Metrics (snd (remove_alert_rule m rule_id)))
     = None
  /\ (other <> rule_id ->
      dict_get other (alert_rules Metrics (snd (remove_alert_rule m rule_id)))
      = dict_get other (alert_rules Metrics m))
  /\ events Metrics (snd (remove_alert_rule m rule_id)) = events Metrics m.
Proof.
  intros m.
  destruct (rule_ops_ok ops init init_ok) as [Hkeys Hnd]. fold m in Hkeys, Hnd.
  split; [done|]. split; [done|].
  unfold Monitor.add_alert_rule. cbn [alert_rules].
  split; [by rewrite dict_get_set, decide_True|].
  split; [intros Hne; by rewrite dict_get_set, decide_False|].
  unfold MonitorQuery.remove_alert_rule.
  destruct (dict_get rule_id (alert_rules Metrics m)) as [r|] eqn:Hget;
    cbn [fst snd alert_rules events].
  - split; [split; [intros _|done]; apply dict_get_is_Some; eauto|].
    split; [by rewrite dict_get_del, decide_True|].
    split; [|done]. intros Hne. by rewrite dict_get_del, decide_False.
  - split; [split; [done|]; by intros [? ?]%dict_get_is_Some; congruence|].
    split; [done|]. by split.
Qed.

Lemma length_List_filter_le {A : Type} (p : A -> bool) (l : list A) :
  (length (List.filter p l) <= length l)%nat.
Proof. induction l as [|x l IH]; cbn; [done|]. destruct (p x); cbn; lia. Qed.

(** ** [get_events] *)

Lemma filter_filter {A : Type} (p q : A -> bool) (l : list A) :
  List.filter q (List.filter p l) = List.filter (fun x => p x && q x) l.
Proof.
  induction l as [|x l IH]; [done|]. cbn.
  destruct (p x); cbn; [destruct (q x)|]; by rewrite IH.
Qed.

Lemma filter_if_filter {A : Type} (test : option (A -> bool)) (p : A -> bool)
      (l : list A) :
  filter_if test (List.filter p l)
  = List.filter (fun x => p x && match test with
                                 | Some t => t x
                                 | None => true
                                 end) l.
Proof.
  destruct test as [t|]; cbn; [apply filter_filter|].
  apply filter_ext. intros x. by rewrite andb_true_r.
Qed.

Lemma filtered_events_matches q (l : list MonitoringEvent) :
  filtered_events q l = List.filter (matches q) l.
Proof.
  unfold filtered_events.
  rewrite <- (filter_true l) at 1. rewrite !filter_if_filter.
  apply filter_ext. intros e. unfold matches. cbn [andb].
  destruct (given (q_workflow_id q)), (q_event_type q), (q_severity q),
    (q_start_time q), (q_end_time q); done.
Qed.

Lemma unfiltered_matches q e : unfiltered q = true -> matches q e = true.
Proof.
  unfold unfiltered, matches.
  by destruct (given (q_workflow_id q)), (q_event_type q), (q_severity q),
    (q_start_time q), (q_end_time q).
Qed.

Lemma insert_newest_first_perm e (l : list MonitoringEvent) :
  insert_newest_first e l ≡ₚ e :: l.
Proof.
  induction l as [|x l IH]; cbn; [done|].
  destruct (timestamp x <=? timestamp e); [done|].
  rewrite IH. apply Permutation_swap.
Qed.

Lemma sort_newest_first_perm (l : list MonitoringEvent) :
  sort_newest_first l ≡ₚ l.
Proof.
  induction l as [|x l IH]; [done|]. cbn [sort_newest_first foldr].
  rewrite insert_newest_first_perm. by constructor.
Qed.

Lemma insert_newest_first_sorted e (l : list MonitoringEvent) :
  newest_first l -> newest_first (insert_newest_first e l).
Proof.
  unfold newest_first. induction 1 as [|x l Hs IH Hall]; cbn.
  - repeat constructor.
  - destruct (Z.leb_spec (timestamp x) (timestamp e)) as [Hle|Hgt].
    + constructor; [by constructor|]. constructor; [done|].
      eapply Forall_impl; [exact Hall|]. cbn. intros. lia.
    + constructor; [done|].
      rewrite insert_newest_first_perm. constructor; [lia|done].
Qed.

Lemma sort_newest_first_sorted (l : list MonitoringEvent) :
  newest_first (sort_newest_first l).
Proof.
  induction l as [|x l IH]; [constructor|].
  by apply insert_newest_first_sorted.
Qed.

Lemma newest_first_app (l1 l2 : list MonitoringEvent) :
  newest_first (l1 ++ l2) ->
  newest_first l1
  /\ forall x e, x ∈ l1 -> e ∈ l2 -> timestamp e <= timestamp x.
Proof.
  unfold newest_first. induction l1 as [|y l1 IH]; cbn.
  - intros _. split; [constructor|]. by intros x e ?%not_elem_of_nil.
  - intros [Hs Hall]%StronglySorted_inv. destruct (IH Hs) as [Hs1 Hcross].
    rewrite Forall_app in Hall. destruct Hall as [Hall1 Hall2].
    split; [by constructor|].
    intros x e [->|Hx]%elem_of_cons He; [|by apply Hcross].
    rewrite Forall_forall in Hall2. by apply Hall2.
Qed.

Lemma slice_to_take {A : Type} (stop : option Z) (l : list A) :
  exists k, slice_to stop l = take k l
            /\ (stop = None -> (length l <= k)%nat)
            /\ (forall n, stop = Some n -> 0 <= n -> k = Z.to_nat n).
Proof.
  destruct stop as [n|]; cbn.
  - eexists. split; [done|]. split; [done|]. intros n' [= <-] Hn.
    by destruct (Z.ltb_spec n 0); [lia|].
  - exists (length l). split; [by rewrite firstn_all|]. split; [done|done].
Qed.

(** X18.  [get_events] returns events of the monitor that pass every
    filter given, the newest first; the events that pass and are not
    returned are not newer than any that is; with [limit = None] all of
    them are returned, and with a limit that is not negative as many of
    them as there are, up to the limit. *)
Theorem get_events_newest_matching (m : WorkflowMonitor Metrics) (q : Query) :
  let found := fst (get_events m q) in
  let passing := List.filter (matches q) (events Metrics m) in
  newest_first found
  /\ (forall e, e ∈ found -> e ∈ events Metrics m /\ matches q e = true)
  /\ (exists rest,
        found ++ rest ≡ₚ passing
        /\ forall x e, x ∈ found -> e ∈ rest -> timestamp e <= timestamp x)
  /\ (q_limit q = None -> found ≡ₚ passing)
  /\ (forall n, q_limit q = Some n -> 0 <= n ->
        length found = Nat.min (Z.to_nat n) (length passing)).
Proof.
  cbn zeta. unfold MonitorQuery.get_events. cbn [fst].
  rewrite filtered_events_matches.
  set (passing := List.filter (matches q) (events Metrics m)).
  set (sorted := sort_newest_first passing).
  destruct (slice_to_take (q_limit q) sorted) as (k & -> & Hnone & Hsome).
  assert (Hsplit : take k sorted ++ drop k sorted = sorted)
    by apply take_drop.
  assert (Hsorted : newest_first (take k sorted ++ drop k sorted)).
  { rewrite Hsplit. apply sort_newest_first_sorted. }
  apply newest_first_app in Hsorted as [Hfound Hcross].
  assert (Hperm : take k sorted ++ drop k sorted ≡ₚ passing).
  { rewrite Hsplit. apply sort_newest_first_perm. }
  split; [done|]. split; [|split; [|split]].
  - intros e He.
    assert (Hin : e ∈ passing).
    { rewrite <- Hperm. apply elem_of_app. by left. }
    by apply WorkflowSpec.elem_of_List_filter in Hin.
  - by exists (drop k sorted).
  - intros Hall. specialize (Hnone Hall).
    rewrite firstn_all2 by done. apply sort_newest_first_perm.
  - intros n Hn Hpos. rewrite (Hsome n Hn Hpos), length_take.
    unfold sorted. by rewrite (Permutation_length (sort_newest_first_perm _)).
Qed.

(** X19.  When [get_events] is called with no filter (every filter
    argument absent or empty), it sorts the list of events of the monitor
    itself: afterwards the monitor holds the same events, the newest
    first.  With a filter, the monitor is left as it was. *)
Theorem get_events_sorts_stored_events
    (m : WorkflowMonitor Metrics) (q : Query) :
  let m' := snd (get_events m q) in
  (unfiltered q = false -> m' = m)
  /\ (unfiltered q = true ->
      events Metrics m' ≡ₚ events Metrics m
      /\ newest_first (events Metrics m')
      /\ alert_rules Metrics m' = alert_rules Metrics m
      /\ metrics Metrics m' = metrics Metrics m
      /\ forall n, q_limit q = Some n -> 0 <= n ->
           fst (get_events m q) = take (Z.to_nat n) (events Metrics m')).
Proof.
  cbn zeta. unfold MonitorQuery.get_events. cbn [fst snd].
  rewrite filtered_events_matches.
  destruct (unfiltered q) eqn:Hq; (split; [done|]); [|done]. intros _.
  cbn [events alert_rules metrics].
  assert (Hall : List.filter (matches q) (events Metrics m) = events Metrics m).
  { rewrite <- (filter_true (events Metrics m)) at 2.
    apply filter_ext. intros e. by apply unfiltered_matches. }
  rewrite Hall.
  split; [apply sort_newest_first_perm|].
  split; [apply sort_newest_first_sorted|]. split; [done|]. split; [done|].
  intros n -> Hn. cbn. by destruct (Z.ltb_spec n 0); [lia|].
Qed.

(** ** Sorting the store and then cleaning it up *)

Lemma insert_oldest e (l : list MonitoringEvent) :
  Forall (fun y => timestamp e < timestamp y) l ->
  insert_newest_first e l = l ++ [e].
Proof.
  induction 1 as [|y l Hy _ IH]; [done|]. cbn.
  destruct (Z.leb_spec (timestamp y) (timestamp e)); [lia|]. by rewrite IH.
Qed.

Lemma sort_chronological (l : list MonitoringEvent) :
  chronological l -> sort_newest_first l = rev l.
Proof.
  unfold chronological. induction 1 as [|x l _ IH Hall]; [done|].
  cbn [sort_newest_first foldr rev]. fold (sort_newest_first l).
  rewrite IH. apply insert_oldest.
  apply Forall_forall. intros y Hy%list_elem_of_In%in_rev.
  rewrite Forall_forall in Hall. by apply Hall, list_elem_of_In.
Qed.

(** X20.  [_cleanup_old_events] keeps the last [max_events] events of the
    list, which are the newest ones when the events are in the order of
    their record.  After a call of [get_events] without filter, which has
    put the newest first, the same clean-up keeps the oldest [max_events]
    events and drops the newest. *)
Theorem cleanup_after_unfiltered_query
    (m : WorkflowMonitor Metrics) (q : Query) :
  chronological (events Metrics m) ->
  0 < max_events Metrics m < Z.of_nat (length (events Metrics m)) ->
  unfiltered q = true ->
  let keep := Z.to_nat (max_events Metrics m) in
  let n := length (events Metrics m) in
  events Metrics (_cleanup_old_events m) = drop (n - keep) (events Metrics m)
  /\ events Metrics (_cleanup_old_events (snd (get_events m q)))
     = rev (take keep (events Metrics m)).
Proof.
  intros Hchron Hmax Hq keep n.
  assert (Hslice : forall l : list MonitoringEvent,
            length l = n ->
            slice_from (- max_events Metrics m) l = drop (n - keep) l).
  { intros l Hl. unfold slice_from. rewrite Hl.
    destruct (Z.ltb_spec (- max_events Metrics m) 0); [|lia].
    f_equal. unfold keep, n. lia. }
  split.
  - unfold Monitor._cleanup_old_events.
    destruct (Z.ltb_spec (max_events Metrics m)
                         (Z.of_nat (length (events Metrics m)))); [|lia].
    cbn [events]. by apply Hslice.
  - unfold MonitorQuery.get_events. rewrite Hq. cbn [snd].
    rewrite filtered_events_matches.
    assert (Hall : List.filter (matches q) (events Metrics m) = events Metrics m).
    { rewrite <- (filter_true (events Metrics m)) at 2.
      apply filter_ext. intros e. by apply unfiltered_matches. }
    rewrite Hall, (sort_chronological _ Hchron).
    unfold Monitor._cleanup_old_events. cbn [events max_events].
    rewrite length_rev.
    destruct (Z.ltb_spec (max_events Metrics m)
                         (Z.of_nat (length (events Metrics m)))); [|lia].
    cbn [events]. rewrite Hslice by apply length_rev.
    rewrite skipn_rev. do 2 f_equal. unfold keep, n in *. lia.
Qed.

(** X21.  [_cleanup_old_events] only drops events from the front of the
    list.  With a positive [max_events] it leaves the last [max_events]
    events, or all of them when there are not more; with [max_events = 0]
    it drops nothing, however many events there are; and with a negative
    [max_events] it drops that many events from the front at every
    call. *)
Theorem cleanup_keeps_last_events (m : WorkflowMonitor Metrics) :
  let m' := _cleanup_old_events m in
  let n := length (events Metrics m) in
  events Metrics m' `suffix_of` events Metrics m
  /\ alert_rules Metrics m' = alert_rules Metrics m
  /\ (0 < max_events Metrics m ->
      events Metrics m'
      = drop (n - Z.to_nat (max_events Metrics m)) (events Metrics m)
      /\ length (events Metrics m')
         = Nat.min n (Z.to_nat (max_events Metrics m)))
  /\ (max_events Metrics m = 0 -> m' = m)
  /\ (max_events Metrics m < 0 ->
      events Metrics m'
      = drop (Z.to_nat (- max_events Metrics m)) (events Metrics m)).
Proof.
  cbn zeta. unfold Monitor._cleanup_old_events, slice_from.
  destruct (Z.ltb_spec (max_events Metrics m)
                       (Z.of_nat (length (events Metrics m)))) as [Hover|Hfits];
    cbn [events alert_rules].
  - split; [apply suffix_drop|]. split; [done|].
    split; [|split].
    + intros Hpos. destruct (Z.ltb_spec (- max_events Metrics m) 0); [|lia].
      replace (Z.to_nat (Z.max 0 (Z.of_nat (length (events Metrics m))
                                  + - max_events Metrics m)))
        with (length (events Metrics m) - Z.to_nat (max_events Metrics m))%nat
        by lia.
      split; [done|]. rewrite length_drop. lia.
    + intros Hzero. destruct m as [evs mets rules cap]. cbn in *. by subst cap.
    + intros Hneg. by destruct (Z.ltb_spec (- max_events Metrics m) 0); [lia|].
  - split; [done|]. split; [done|]. split; [|split; [done|lia]].
    intros Hpos.
    replace (length (events Metrics m) - Z.to_nat (max_events Metrics m))%nat
      with 0%nat by lia.
    split; [done|lia].
Qed.

(** ** The summary of the alerts *)

Lemma tally_snoc {K : Type} `{EqDecision K} (key : MonitoringEvent -> option K)
      k l e :
  tally key k (l ++ [e])
  = tally key k l + (if decide (key e = Some k) then 1 else 0).
Proof.
  unfold tally. rewrite List.filter_app, length_app. cbn.
  case_bool_decide; case_decide; try done; cbn; lia.
Qed.

Lemma tally_nonneg {K : Type} `{EqDecision K} (key : MonitoringEvent -> option K)
      k l : 0 <= tally key k l.
Proof. unfold tally. lia. Qed.

Lemma total_add_one {K : Type} `{EqDecision K} (k : K) (d : list (K * Z)) :
  NoDup (map fst d) -> k ∈ map fst d ->
  map fst (add_one k d) = map fst d
  /\ total (add_one k d) = total d + 1
  /\ forall k' n, (k', n) ∈ d ->
       (k', if decide (k' = k) then n + 1 else n) ∈ add_one k d.
Proof.
  unfold total, add_one. induction d as [|[k0 n0] d IH]; cbn.
  - by intros _ ?%not_elem_of_nil.
  - intros [Hk0 Hnd]%NoDup_cons Hin. case_decide as Hk; cbn.
    + subst k0.
      assert (Hsame : map (fun kv : K * Z =>
                             if decide (kv.1 = k) then (kv.1, kv.2 + 1) else kv) d
                      = d).
      { clear IH Hnd Hin. induction d as [|[k1 n1] d IHd]; [done|]. cbn.
        cbn in Hk0. apply not_elem_of_cons in Hk0 as [Hne Hk0].
        rewrite decide_False by done. by rewrite IHd. }
      rewrite Hsame. split; [done|]. split; [lia|].
      intros k' n [[= -> ->]|Hin']%elem_of_cons.
      * rewrite decide_True by done. left.
      * right. rewrite decide_False; [done|]. intros ->.
        apply Hk0. apply WorkflowSpec.elem_of_map. by exists (k, n).
    + apply elem_of_cons in Hin as [->|Hin]; [done|].
      destruct (IH Hnd Hin) as (Hkeys & Htotal & Hitems).
      rewrite Hkeys, Htotal. split; [done|]. split; [lia|].
      intros k' n [[= -> ->]|Hin']%elem_of_cons.
      * rewrite decide_False by done. left.
      * right. by apply Hitems.
Qed.

Lemma severity_breakdown_spec (l : list MonitoringEvent) : forall d pre,
  map fst d = severities ->
  total d = Z.of_nat (length pre) ->
  (forall s, (s, tally (fun e => Some (event_severity e)) s pre) ∈ d) ->
  let d' := fold_left (fun d e => add_one (event_severity e) d) l d in
  map fst d' = severities
  /\ total d' = Z.of_nat (length (pre ++ l))
  /\ forall s, (s, tally (fun e => Some (event_severity e)) s (pre ++ l)) ∈ d'.
Proof.
  induction l as [|e l IH]; intros d pre Hkeys Htotal Hitems; cbn zeta.
  - cbn. by rewrite app_nil_r.
  - cbn [fold_left].
    destruct (total_add_one (event_severity e) d) as (Hkeys' & Htotal' & Hitems').
    { rewrite Hkeys. unfold severities. repeat constructor; set_solver. }
    { rewrite Hkeys. unfold severities. destruct (event_severity e); set_solver. }
    replace (pre ++ e :: l) with ((pre ++ [e]) ++ l)
      by (by rewrite <- (assoc_L (++))).
    apply IH.
    + by rewrite Hkeys'.
    + rewrite Htotal', Htotal, length_app. cbn. lia.
    + intros s. rewrite tally_snoc. specialize (Hitems' s _ (Hitems s)).
      cbn in Hitems'.
      by repeat case_decide; try congruence; rewrite ?Z.add_0_r.
Qed.

Lemma total_dict_set (k : string) (v : Z) (d : list (string * Z)) :
  total (dict_set k v d)
  = total d - default 0 (dict_get k d) + v.
Proof.
  unfold total. induction d as [|[k0 n0] d IH]; cbn [dict_set].
  - cbn. lia.
  - rewrite dict_get_cons. destruct (String.eqb_spec k0 k) as [->|Hne].
    + rewrite decide_True by done. cbn. lia.
    + rewrite decide_False by done. cbn in *. lia.
Qed.

Lemma workflow_breakdown_spec (l : list MonitoringEvent) : forall d pre,
  (forall w, dict_get w d
             = if decide (0 < tally named w pre)
               then Some (tally named w pre) else None) ->
  total d
  = Z.of_nat (length (List.filter (fun e => bool_decide (is_Some (named e))) pre)) ->
  let d' :=
    fold_left
      (fun d e =>
         match given (workflow_id e) with
         | Some w =>
             let d := match dict_get w d with
                      | Some _ => d
                      | None => dict_set w 0 d
                      end in
             match dict_get w d with
             | Some n => dict_set w (n + 1) d
             | None => d
             end
         | None => d
         end) l d in
  (forall w, dict_get w d'
             = if decide (0 < tally named w (pre ++ l))
               then Some (tally named w (pre ++ l)) else None)
  /\ total d'
     = Z.of_nat (length (List.filter (fun e => bool_decide (is_Some (named e)))
                                     (pre ++ l))).
Proof.
  induction l as [|e l IH]; intros d pre Hget Htotal; cbn zeta.
  - cbn. by rewrite app_nil_r.
  - cbn [fold_left].
    replace (pre ++ e :: l) with ((pre ++ [e]) ++ l)
      by (by rewrite <- (assoc_L (++))).
    apply IH.
    + intros w. rewrite tally_snoc. fold (named e).
      pose proof (tally_nonneg named w pre) as Hpos.
      destruct (named e) as [w'|] eqn:He.
      * pose proof (Hget w') as Hw'.
        pose proof (tally_nonneg named w' pre) as Hpos'.
        assert (Hafter : forall d0 n,
                  dict_get w' d0 = Some n -> n = tally named w' pre ->
                  (forall k, k <> w' -> dict_get k d0 = dict_get k d) ->
                  dict_get w (dict_set w' (n + 1) d0)
                  = if decide (0 < tally named w pre
                                   + (if decide (Some w' = Some w) then 1 else 0))
                    then Some (tally named w pre
                               + (if decide (Some w' = Some w) then 1 else 0))
                    else None).
        { intros d0 n Hd0 Hn Hother. rewrite dict_get_set.
          destruct (decide (w' = w)) as [->|Hne].
          - rewrite (decide_True (P := Some w = Some w)) by done.
            rewrite decide_True by lia. by rewrite Hn.
          - rewrite (decide_False (P := Some w' = Some w)) by congruence.
            rewrite Z.add_0_r, Hother by done. apply Hget. }
        destruct (dict_get w' d) as [n|] eqn:Hd.
        -- rewrite Hd. apply Hafter; [done| |done].
           clear Hafter. case_decide; by simplify_eq.
        -- rewrite dict_get_set, decide_True by done.
           apply Hafter.
           ++ rewrite dict_get_set, decide_True by done. reflexivity.
           ++ clear Hafter. case_decide; [congruence|lia].
           ++ intros k Hk. by rewrite dict_get_set, decide_False.
      * rewrite (decide_False (P := None = Some w)) by done.
        rewrite Z.add_0_r. apply Hget.
    + rewrite List.filter_app, length_app. cbn [List.filter]. fold (named e).
      destruct (named e) as [w'|] eqn:He.
      * rewrite bool_decide_eq_true_2 by eauto. cbn [length].
        destruct (dict_get w' d) as [n|] eqn:Hd.
        -- rewrite Hd, total_dict_set, Hd. cbn. lia.
        -- rewrite dict_get_set, decide_True by done.
           rewrite !total_dict_set, dict_get_set, decide_True by done.
           rewrite Hd. cbn. lia.
      * rewrite bool_decide_eq_false_2 by (by intros [? ?]). cbn. lia.
Qed.

(** X22.  In the summary of [get_alert_summary], [total_alerts] is the
    number of events of the period that carry the tag [alert]; the
    counts by severity are those of these events, one entry per severity,
    and add up to [total_alerts]; the counts by workflow are those of the
    events that name a workflow, with an entry only for a workflow that
    has at least one, and add up to the number of such events, which is
    at most [total_alerts]. *)
Theorem alert_summary_counts (m : WorkflowMonitor Metrics) (now h : Z) :
  let s := get_alert_summary m now h in
  let recent := recent_alerts m now h in
  total_alerts s = Z.of_nat (length recent)
  /\ map fst (severity_counts s) = severities
  /\ total (severity_counts s) = total_alerts s
  /\ (forall sev,
        (sev, tally (fun e => Some (event_severity e)) sev recent)
          ∈ severity_counts s)
  /\ (forall w,
        dict_get w (workflow_alerts s)
        = if decide (0 < tally named w recent)
          then Some (tally named w recent) else None)
  /\ total (workflow_alerts s)
     = Z.of_nat (length (List.filter (fun e => bool_decide (is_Some (named e)))
                                     recent))
  /\ total (workflow_alerts s) <= total_alerts s.
Proof.
  cbn zeta. unfold MonitorQuery.get_alert_summary.
  cbn [total_alerts severity_counts workflow_alerts].
  set (recent := recent_alerts m now h).
  destruct (severity_breakdown_spec recent
              (map (fun s => (s, 0)) severities) [])
    as (Hkeys & Htotal & Hitems); [done|done| |].
  { intros s. unfold tally. cbn. destruct s; set_solver. }
  destruct (workflow_breakdown_spec recent [] []) as (Hget & Hsum); [done|done|].
  cbn [app] in *. fold (severity_breakdown recent) in Hkeys, Htotal, Hitems.
  fold (workflow_breakdown recent) in Hget, Hsum.
  split; [done|]. split; [done|]. split; [done|]. split; [done|].
  split; [done|]. split; [done|].
  rewrite Hsum.
  pose proof (length_List_filter_le
                (fun e => bool_decide (is_Some (named e))) recent). lia.
Qed.

End Query.

Lemma cleanup_after_unfiltered_query_witness :
  events Z (Monitor._cleanup_old_events Z small_monitor) = [tick 2; tick 3]
  /\ events Z (Monitor._cleanup_old_events Z
                 (snd (MonitorQuery.get_events Z small_monitor default_query)))
     = [tick 2; tick 1].
Proof.
  apply (cleanup_after_unfiltered_query Z small_monitor default_query).
  - unfold chronological, small_monitor. cbn [events].
    repeat constructor; vm_compute; reflexivity.
  - vm_compute. split; reflexivity.
  - reflexivity.
Defined.

End MonitorQuerySpec.

(* ===================================================================== *)
(** * More properties of the engine                                       *)
(* ===================================================================== *)

Module EngineAdminSpec.
Import Dict DictSpec Workflow WorkflowEdit WorkflowEditSpec Engine EngineAdmin.

(** ** Counting the running executions *)

Lemma filter_length_perm {A : Type} (p : A -> bool) (l l' : list A) :
  l ≡ₚ l' -> length (List.filter p l) = length (List.filter p l').
Proof.
  induction 1 as [|x l l' _ IH|x y l|l l' l'' _ IH1 _ IH2]; cbn.
  - done.
  - destruct (p x); cbn; by rewrite IH.
  - by destruct (p x), (p y).
  - by rewrite IH1.
Qed.

Lemma active_count_insert e id execution workflow_id new_total new_active :
  active_count
    (mkEngine (workflows e) (<[id := execution]> (executions e))
              ({[id]} ∪ running_executions e) new_total new_active)
    workflow_id
  <= active_count e workflow_id + 1.
Proof.
  unfold active_count. cbn [executions].
  set (p := fun kv : string * WorkflowExecution =>
              String.eqb (exec_workflow_id (snd kv)) workflow_id
              && WorkflowStatus_eqb (exec_status (snd kv)) RUNNING).
  assert (Hle : forall m : gmap string WorkflowExecution,
            (length (List.filter p (map_to_list (delete id m)))
             <= length (List.filter p (map_to_list m)))%nat).
  { intros m. destruct (m !! id) as [old|] eqn:Hold.
    - rewrite <- (filter_length_perm p _ _ (map_to_list_delete m id old Hold)).
      cbn. destruct (p (id, old)); cbn; lia.
    - by rewrite delete_id. }
  rewrite <- insert_delete_eq.
  rewrite (filter_length_perm p _ _
             (map_to_list_insert (delete id (executions e)) id execution
                (lookup_delete_eq _ _))).
  cbn. specialize (Hle (executions e)). destruct (p (id, execution)); cbn; lia.
Qed.

Section Start.

Variable execution_id_of : Z -> string.

Abbreviation start_workflow := (start_workflow execution_id_of).
Abbreviation start_workflow_body := (start_workflow_body execution_id_of).

(** X23.  [start_workflow] returns an execution id exactly when the
    workflow is stored, active, and has fewer running executions than
    [max_concurrent_executions]; otherwise it returns [None] and leaves
    the engine as it was.  When it starts an execution, that execution is
    stored as running under the returned id with the step count of the
    workflow, the two counters grow by one, and the running executions of
    the workflow are still at most [max_concurrent_executions]. *)
Theorem start_workflow_respects_limit
    (e : WorkflowEngine) (workflow_id : string)
    (trigger : list (string * option string)) (by_whom : string) (now : Z) :
  let '(result, _, e') := start_workflow e workflow_id trigger by_whom now in
  let startable :=
    exists workflow,
      workflows e !! workflow_id = Some workflow
      /\ Workflow.status workflow = ACTIVE
      /\ active_count e workflow_id < max_concurrent_executions workflow in
  ((exists id, result = Returns (Some id)) <-> startable)
  /\ (~ startable -> result = Returns None /\ e' = e)
  /\ (forall workflow,
        workflows e !! workflow_id = Some workflow -> startable ->
        exists execution,
          result = Returns (Some (execution_id_of now))
          /\ executions e' !! execution_id_of now = Some execution
          /\ exec_workflow_id execution = workflow_id
          /\ exec_status execution = RUNNING
          /\ total_steps execution = Z.of_nat (length (steps workflow))
          /\ execution_id_of now ∈ running_executions e'
          /\ workflows e' = workflows e
          /\ total_executions e' = total_executions e + 1
          /\ active_executions e' = active_executions e + 1
          /\ active_count e' workflow_id <= max_concurrent_executions workflow).
Proof.
  unfold Engine.start_workflow, Engine.start_workflow_body.
  destruct (workflows e !! workflow_id) as [workflow|] eqn:Hstored.
  - destruct (WorkflowStatus_eqb (Workflow.status workflow) ACTIVE) eqn:Hactive;
      cbn [negb].
    + assert (Hst : Workflow.status workflow = ACTIVE)
        by (by destruct (Workflow.status workflow)).
      destruct (Z.leb_spec (max_concurrent_executions workflow)
                           (active_count e workflow_id)) as [Hfull|Hfree].
      * split; [|split].
        -- split; [by intros [? ?]|]. intros (w & [= <-] & _ & Hlt). lia.
        -- done.
        -- intros w [= <-] (w2 & [= <-] & _ & Hlt). lia.
      * split; [|split].
        -- split; [intros _; by exists workflow|eauto].
        -- intros Hno. exfalso. apply Hno. by exists workflow.
        -- intros w [= <-] _. eexists. split; [done|].
           cbn [executions running_executions workflows total_executions
                active_executions execution_id].
           rewrite lookup_insert_eq. split; [done|].
           cbn [exec_workflow_id exec_status total_steps].
           repeat split; try done; [set_solver|].
           pose proof (active_count_insert e (execution_id_of now)
                         (mkExecution (execution_id_of now) workflow_id
                            (version workflow) RUNNING by_whom trigger
                            (fold_left (fun c kv => dict_set (fst kv) (snd kv) c)
                               trigger
                               (fold_left
                                  (fun c var => dict_set (var_name var)
                                                         (var_value var) c)
                                  (variables workflow) []))
                            (Z.of_nat (length (steps workflow))))
                         workflow_id (total_executions e + 1)
                         (active_executions e + 1)) as Hcount.
           lia.
    + assert (Hst : Workflow.status workflow <> ACTIVE)
        by (intros Heq; by rewrite Heq in Hactive).
      split; [|split].
      * split; [by intros [? ?]|]. by intros (w & [= <-] & ? & _).
      * done.
      * by intros w [= <-] (w2 & [= <-] & ? & _).
  - split; [|split].
    + split; [by intros [? ?]|]. by intros (w & ? & _).
    + done.
    + done.
Qed.

(** ** The context of a new execution *)

Lemma dict_get_app {V : Type} k (l1 l2 : list (string * V)) :
  dict_get k (l1 ++ l2)
  = match dict_get k l1 with Some v => Some v | None => dict_get k l2 end.
Proof.
  unfold dict_get. rewrite WorkflowEditSpec.find_app.
  by destruct (List.find _ l1).
Qed.

Lemma fold_dict_set_get {V : Type} k (l : list (string * V)) : forall c,
  dict_get k (fold_left (fun c kv => dict_set (fst kv) (snd kv) c) l c)
  = match last_assigned k l with
    | Some v => Some v
    | None => dict_get k c
    end.
Proof.
  unfold last_assigned. induction l as [|[k0 v0] l IH]; intros c; [done|].
  cbn [fold_left fst snd rev]. rewrite IH, dict_get_app.
  destruct (dict_get k (rev l)) as [v|]; [done|].
  rewrite dict_get_set, dict_get_cons, dict_get_nil.
  by case_decide.
Qed.

Lemma fold_variables_items w (c : list (string * option string)) :
  fold_left (fun c var => dict_set (var_name var) (var_value var) c)
            (variables w) c
  = fold_left (fun c kv => dict_set (fst kv) (snd kv) c) (variable_items w) c.
Proof.
  unfold variable_items. revert c.
  induction (variables w) as [|var l IH]; intros c; [done|]. cbn. apply IH.
Qed.

Lemma last_assigned_NoDup {V : Type} k (l : list (string * V)) :
  NoDup (dict_keys l) -> last_assigned k l = dict_get k l.
Proof.
  unfold last_assigned. induction l as [|[k0 v0] l IH]; [done|].
  cbn [dict_keys map fst rev]. intros [Hk0 Hnd]%NoDup_cons.
  rewrite dict_get_app, (IH Hnd), !dict_get_cons, dict_get_nil.
  case_decide as Hk.
  - subst k0. by rewrite (proj2 (dict_get_None k l) Hk0).
  - by destruct (dict_get k l).
Qed.

(** X24.  In the context of an execution started by [start_workflow],
    the trigger data win over the workflow variables: a key of the
    trigger data has the value given there, and any other key has the
    value of the last workflow variable of that name, if there is one
    (while [get_variable_value] reads the first). *)
Theorem start_workflow_context
    (e e' : WorkflowEngine) (workflow_id id : string) (workflow : Workflow)
    (trigger : list (string * option string)) (by_whom : string) (now : Z)
    (execution : WorkflowExecution) :
  NoDup (dict_keys trigger) ->
  workflows e !! workflow_id = Some workflow ->
  start_workflow_body e workflow_id trigger by_whom now = inr (id, e') ->
  executions e' !! id = Some execution ->
  forall k,
    dict_get k (context execution)
    = match dict_get k trigger with
      | Some v => Some v
      | None => last_assigned k (variable_items workflow)
      end.
Proof.
  intros Hnd Hstored. unfold Engine.start_workflow_body. rewrite Hstored.
  destruct (negb _); [done|]. destruct (_ <=? _); [done|].
  intros [= <- <-]. cbn [executions execution_id]. rewrite lookup_insert_eq.
  intros [= <-] k. cbn [context].
  rewrite fold_dict_set_get, (last_assigned_NoDup k trigger Hnd).
  destruct (dict_get k trigger); [done|].
  rewrite fold_variables_items, fold_dict_set_get.
  by destruct (last_assigned k (variable_items workflow)).
Qed.

End Start.

Lemma start_workflow_context_witness :
  match Engine.start_workflow_body (fun _ => "exec"%string) active_engine "wf"
          [("user"%string, Some "ann"%string)] "manual" 0 with
  | inr (id, e') =>
      match executions e' !! id with
      | Some execution =>
          dict_get "user" (context execution) = Some (Some "ann"%string)
          /\ dict_get "region" (context execution) = Some (Some "eu"%string)
      | None => False
      end
  | inl _ => False
  end.
Proof.
  destruct (Engine.start_workflow_body (fun _ => "exec"%string) active_engine
              "wf" [("user"%string, Some "ann"%string)] "manual" 0)
    as [raised|[id e']] eqn:Hbody; [by vm_compute in Hbody|].
  destruct (executions e' !! id) as [execution|] eqn:Hexec.
  - assert (Hkeys : NoDup (dict_keys [("user"%string, Some "ann"%string)]))
      by (repeat constructor; set_solver).
    assert (Hstored : workflows active_engine !! "wf"%string = Some active_diamond)
      by (by vm_compute).
    split.
    + by rewrite (start_workflow_context _ _ _ _ _ _ _ _ _ _
                    Hkeys Hstored Hbody Hexec).
    + by rewrite (start_workflow_context _ _ _ _ _ _ _ _ _ _
                    Hkeys Hstored Hbody Hexec).
  - vm_compute in Hbody. injection Hbody as <- <-. by vm_compute in Hexec.
Defined.

(** ** Creating a workflow *)

(** X25.  [create_workflow] stores exactly the workflows for which
    [validate] returns no error: it then returns [True], stores the
    workflow under its id (replacing a workflow stored under that id) and
    counts it; when [validate] returns errors or raises its
    [RecursionError], it returns [False] and changes nothing.  A workflow
    that it stores has a name, a step, distinct step ids, dependencies
    that name steps and form no cycle, and values for its required
    variables; when the recursion limit allows more nested calls of the
    search than the workflow has steps, it stores every such workflow,
    and within a smaller limit it can refuse one, as it does for a chain
    of three steps searched from its last step when two nested calls are
    allowed.  It never touches the executions. *)
Theorem create_workflow_stores_valid
    (recursion_limit : nat) (e : WorkflowEngine) (total_workflows : Z)
    (workflow : Workflow) :
  (exists created e' total',
     create_workflow recursion_limit e total_workflows workflow
     = (created, e', total')
     /\ (created = true <-> validate recursion_limit workflow = Some [])
     /\ (created = true ->
         well_formed workflow
         /\ workflows e'
            = <[Workflow.workflow_id workflow := workflow]> (workflows e)
         /\ total' = total_workflows + 1)
     /\ (created = false -> e' = e /\ total' = total_workflows)
     /\ ((length (steps workflow) < recursion_limit)%nat ->
         (created = true <-> well_formed workflow))
     /\ executions e' = executions e
     /\ running_executions e' = running_executions e)
  /\ well_formed descent
  /\ create_workflow 2 e total_workflows descent = (false, e, total_workflows).
Proof.
  split; [|split; [apply (validate_accepts 3); by vm_compute|by vm_compute]].
  unfold create_workflow.
  pose proof (validate_accepts recursion_limit workflow) as Hok.
  pose proof (validate_accepts_iff recursion_limit workflow) as Hiff.
  destruct (validate recursion_limit workflow) as [[|err errors]|].
  - eexists _, _, _. split; [done|]. split; [done|].
    split; [intros _; split; [by apply Hok|done]|].
    split; [done|]. split; [|done].
    intros Hlimit. split; [intros _; by apply Hok|done].
  - eexists _, _, _. split; [done|]. split; [done|]. split; [done|].
    split; [done|]. split; [|done].
    intros Hlimit. split; [done|]. by intros [=]%(Hiff Hlimit).
  - eexists _, _, _. split; [done|]. split; [done|]. split; [done|].
    split; [done|]. split; [|done].
    intros Hlimit. split; [done|]. by intros [=]%(Hiff Hlimit).
Qed.

End EngineAdminSpec.

(* ===================================================================== *)
(** * The execution plan of the manager                                   *)
(* ===================================================================== *)

Module PlannerSpec.
Import Task Dict DictSpec Workflow WorkflowSpec Planner.

Lemma fold_zero_keys (l : list string) : forall d : list (string * Z),
  NoDup (dict_keys d ++ l) ->
  dict_keys (fold_left (fun d node => dict_set node 0 d) l d) = dict_keys d ++ l.
Proof.
  induction l as [|k l IH]; intros d Hnd; cbn [fold_left].
  - by rewrite app_nil_r.
  - assert (Hk : k ∉ dict_keys d).
    { apply NoDup_app in Hnd as (_ & Hdis & _). intros Hin.
      apply (Hdis k Hin). left. }
    rewrite IH; rewrite dict_keys_set_absent by done.
    + by rewrite <- (assoc_L (++)).
    + by rewrite <- (assoc_L (++)).
Qed.

Lemma fold_zero_get (l : list string) k : forall d : list (string * Z),
  k ∈ l ->
  dict_get k (fold_left (fun d node => dict_set node 0 d) l d) = Some 0.
Proof.
  induction l as [|k0 l IH] using rev_ind; intros d Hin.
  - by apply not_elem_of_nil in Hin.
  - rewrite fold_left_app. cbn [fold_left]. rewrite dict_get_set.
    case_decide; [done|]. apply IH.
    apply elem_of_app in Hin as [Hin|Hin]; [done|].
    apply list_elem_of_singleton in Hin. congruence.
Qed.

Lemma count_deps_spec deps : forall d,
  dict_keys (count_deps deps d) = dict_keys d
  /\ forall k n, dict_get k d = Some n ->
       dict_get k (count_deps deps d) = Some (n + occurrences k deps).
Proof.
  induction deps as [|dep rest IH]; intros d; cbn [count_deps].
  - split; [done|]. intros k n ->. unfold occurrences. cbn. f_equal; lia.
  - destruct (dict_get dep d) as [m|] eqn:Hdep.
    + destruct (IH (dict_set dep (m + 1) d)) as [Hkeys Hget]. split.
      * rewrite Hkeys. apply dict_keys_set_present.
        apply dict_get_is_Some. by rewrite Hdep.
      * intros k n Hk. rewrite occurrences_cons.
        destruct (decide (dep = k)) as [->|Hne].
        -- rewrite (Hget k (m + 1)).
           ++ f_equal. assert (m = n) by congruence. lia.
           ++ rewrite dict_get_set. by rewrite decide_True.
        -- rewrite (Hget k n); [f_equal; lia|].
           rewrite dict_get_set. by rewrite decide_False.
    + destruct (IH d) as [Hkeys Hget]. split; [done|].
      intros k n Hk. rewrite occurrences_cons.
      rewrite decide_False by congruence. rewrite (Hget k n Hk). f_equal; lia.
Qed.

Lemma count_all_spec items : forall d,
  listed_deps items ->
  exists d', count_all items d = Some d'
    /\ dict_keys d' = dict_keys d
    /\ forall k n, dict_get k d = Some n ->
         dict_get k d' = Some (n + listed items k).
Proof.
  induction items as [|[node [deps|]] rest IH]; intros d Hsome.
  - exists d. split; [done|]. split; [done|]. intros k n ->. cbn. f_equal; lia.
  - destruct (count_deps_spec deps d) as [Hkeys Hget].
    destruct (IH (count_deps deps d)) as (d' & Hd' & Hkeys' & Hget').
    { intros item Hin. apply Hsome. by right. }
    exists d'. split; [done|]. split; [congruence|].
    intros k n Hk. rewrite (Hget' k _ (Hget k n Hk)). cbn [listed]. f_equal; lia.
  - destruct (Hsome (node, None)) as [? Hnone]; [left|discriminate].
Qed.

Lemma listed_nonneg items k : 0 <= listed items k.
Proof.
  induction items as [|[node [deps|]] rest IH]; cbn [listed]; [lia| |done].
  pose proof (occurrences_nonneg k deps). lia.
Qed.

Lemma listed_zero items k : listed items k = 0 <-> unlisted items k = true.
Proof.
  induction items as [|[node [deps|]] rest IH]; cbn [listed unlisted forallb snd].
  - done.
  - pose proof (occurrences_nonneg k deps) as Hocc.
    pose proof (listed_nonneg rest k) as Hrest.
    pose proof (occurrences_pos k deps) as Hpos.
    rewrite andb_true_iff, negb_true_iff, bool_decide_eq_false.
    fold (unlisted rest k). rewrite <- IH. split.
    + intros Hsum. split; [|lia]. intros Hin. apply Hpos in Hin. lia.
    + intros [Hout Hz]. destruct (decide (occurrences k deps = 0)) as [?|Hne]; [lia|].
      destruct Hout. apply Hpos. lia.
  - cbn. fold (unlisted rest k). done.
Qed.

Lemma zero_keys (d : list (string * Z)) :
  NoDup (dict_keys d) ->
  map fst (List.filter (fun kv => snd kv =? 0) d)
  = List.filter (fun k => bool_decide (dict_get k d = Some 0)) (dict_keys d).
Proof.
  induction d as [|[k v] d IH]; [done|].
  cbn [dict_keys map fst]. intros [Hk Hnd]%NoDup_cons.
  cbn [List.filter snd]. rewrite dict_get_cons, decide_True by done.
  assert (Hrest : List.filter (fun k0 => bool_decide (dict_get k0 ((k, v) :: d) = Some 0))
                              (map fst d)
                  = List.filter (fun k0 => bool_decide (dict_get k0 d = Some 0))
                                (map fst d)).
  { apply filter_ext_in. intros k0 Hin. rewrite dict_get_cons.
    rewrite decide_False; [done|]. intros ->. apply Hk.
    by apply list_elem_of_In. }
  specialize (IH Hnd). unfold dict_keys in IH. rewrite Hrest, <- IH.
  destruct (Z.eqb_spec v 0) as [->|Hv].
  - by rewrite bool_decide_eq_true_2.
  - rewrite bool_decide_eq_false_2; [done|]. congruence.
Qed.

Lemma release_unlisted node items st :
  listed_deps items -> unlisted items node = true ->
  release node items st = Some st.
Proof.
  induction items as [|[neighbor [deps|]] rest IH]; intros Hsome Hun; [done| |].
  - cbn [unlisted forallb snd] in Hun.
    apply andb_true_iff in Hun as [Hout Hun].
    apply negb_true_iff in Hout. cbn [release]. rewrite Hout.
    apply IH; [|done]. intros item Hin. apply Hsome. by right.
  - destruct (Hsome (neighbor, None)) as [? Hnone]; [left|discriminate].
Qed.

Lemma sort_loop_unlisted graph in_degree :
  listed_deps graph ->
  forall queue rounds result,
    (length queue < rounds)%nat ->
    (forall node, node ∈ queue -> unlisted graph node = true) ->
    sort_loop rounds graph in_degree queue result = Some (result ++ queue).
Proof.
  intros Hsome. induction queue as [|node queue IH]; intros rounds result Hlen Hun.
  - destruct rounds; cbn; by rewrite app_nil_r.
  - destruct rounds as [|rounds]; [cbn in Hlen; lia|]. cbn [sort_loop].
    rewrite release_unlisted; [|done|apply Hun; left].
    rewrite IH.
    + by rewrite <- (assoc_L (++)).
    + cbn in Hlen. lia.
    + intros n Hn. apply Hun. by right.
Qed.

Lemma topological_sort_spec (graph : Graph) :
  NoDup (dict_keys graph) -> listed_deps graph ->
  _topological_sort graph
  = Some (List.filter (unlisted graph) (dict_keys graph)).
Proof.
  intros Hnd Hsome. unfold _topological_sort.
  destruct (count_all_spec graph (zero_degrees graph) Hsome)
    as (d & -> & Hkeys & Hget).
  assert (Hzero : dict_keys (zero_degrees graph) = dict_keys graph).
  { unfold zero_degrees. by rewrite fold_zero_keys. }
  rewrite Hzero in Hkeys.
  rewrite zero_keys by (by rewrite Hkeys). rewrite Hkeys.
  assert (Hfilter : List.filter (fun k => bool_decide (dict_get k d = Some 0))
                                (dict_keys graph)
                    = List.filter (unlisted graph) (dict_keys graph)).
  { apply filter_ext_in. intros k Hin%list_elem_of_In.
    rewrite (Hget k 0) by (by apply fold_zero_get).
    destruct (unlisted graph k) eqn:Hun.
    - apply listed_zero in Hun. rewrite Hun. by apply bool_decide_eq_true_2.
    - apply bool_decide_eq_false_2. intros [= Hz].
      assert (Hl : listed graph k = 0) by lia.
      apply listed_zero in Hl. congruence. }
  rewrite Hfilter. rewrite sort_loop_unlisted; [done|done| |].
  - pose proof (filter_length_le (unlisted graph) (dict_keys graph)) as Hle.
    unfold dict_keys in Hle. rewrite length_map in Hle.
    unfold dict_keys. lia.
  - intros node Hin. apply list_elem_of_In, filter_In in Hin. tauto.
Qed.

(** X26.  For a graph whose tasks all have a list of dependencies,
    [_topological_sort] returns the tasks that no task of the graph lists
    as a dependency, in the order of the keys, and no other task. *)
Theorem topological_sort_returns_unlisted (graph : Graph) :
  NoDup (dict_keys graph) -> listed_deps graph ->
  _topological_sort graph
  = Some (List.filter (unlisted graph) (dict_keys graph)).
Proof. apply topological_sort_spec. Qed.

Lemma elem_of_dict_set {V : Type} (item : string * V) k v d :
  item ∈ dict_set k v d -> item = (k, v) \/ item ∈ d.
Proof.
  induction d as [|[k0 v0] d IH]; cbn [dict_set].
  - intros ->%list_elem_of_singleton. by left.
  - destruct (String.eqb_spec k0 k) as [->|Hne].
    + intros [->|Hin]%elem_of_cons; [by left|]. right. by right.
    + intros [->|Hin]%elem_of_cons; [right; left|].
      destruct (IH Hin) as [->|Hd]; [by left|]. right. by right.
Qed.

Lemma dependency_graph_ok (subtasks : list AgentTask) :
  with_dependencies subtasks ->
  NoDup (dict_keys (dependency_graph subtasks))
  /\ listed_deps (dependency_graph subtasks).
Proof.
  unfold dependency_graph, with_dependencies.
  assert (Hgen : forall d : Graph,
            NoDup (dict_keys d) -> listed_deps d ->
            (forall task, task ∈ subtasks -> is_Some (Task.dependencies task)) ->
            NoDup (dict_keys (fold_left
                     (fun d task => dict_set (task_id task) (Task.dependencies task) d)
                     subtasks d))
            /\ listed_deps (fold_left
                     (fun d task => dict_set (task_id task) (Task.dependencies task) d)
                     subtasks d)).
  { induction subtasks as [|task rest IH]; intros d Hnd Hsome Hdeps; [done|].
    cbn [fold_left]. apply IH.
    - by apply dict_keys_set_NoDup.
    - intros item [->|Hin]%elem_of_dict_set; [|by apply Hsome].
      cbn [snd]. apply Hdeps. left.
    - intros t Ht. apply Hdeps. by right. }
  intros Hdeps. apply Hgen; [constructor| |done].
  intros item Hin. by apply not_elem_of_nil in Hin.
Qed.

Lemma current_group_all graph (remaining : gset string) l :
  (forall t, t ∈ l ->
     t ∈ remaining /\ dependencies_resolved graph remaining t = Some true) ->
  current_group graph remaining l = Some l.
Proof.
  induction l as [|t l IH]; intros Hall; [done|].
  destruct (Hall t) as [Hin Hres]; [left|].
  cbn [current_group]. rewrite bool_decide_eq_true_2 by done.
  rewrite Hres, IH; [done|]. intros u Hu. apply Hall. by right.
Qed.

Lemma unlisted_resolved graph (remaining : gset string) t :
  NoDup (dict_keys graph) -> listed_deps graph ->
  t ∈ dict_keys graph ->
  (forall n, n ∈ remaining -> unlisted graph n = true) ->
  dependencies_resolved graph remaining t = Some true.
Proof.
  intros Hnd Hsome Ht Hun. unfold dependencies_resolved.
  apply dict_get_is_Some in Ht as [v Hv]. rewrite Hv.
  apply dict_get_item in Hv as Hitem; [|done].
  destruct (Hsome _ Hitem) as [deps Hdeps]. cbn [snd] in Hdeps. subst v.
  f_equal. apply forallb_forall. intros dep Hdep.
  apply bool_decide_eq_true_2. intros Hrem.
  specialize (Hun dep Hrem). unfold unlisted in Hun.
  rewrite forallb_forall in Hun.
  specialize (Hun (t, Some deps)). cbn [snd] in Hun.
  rewrite bool_decide_eq_true_2 in Hun by (by apply list_elem_of_In).
  by specialize (Hun (proj1 (list_elem_of_In _ _) Hitem)).
Qed.

Lemma execution_groups_spec (list_of_set : gset string -> list string)
      (graph : Graph) :
  NoDup (dict_keys graph) -> listed_deps graph ->
  _create_execution_groups list_of_set
    (List.filter (unlisted graph) (dict_keys graph)) graph
  = Some match List.filter (unlisted graph) (dict_keys graph) with
         | [] => []
         | order => [order]
         end.
Proof.
  intros Hnd Hsome. unfold _create_execution_groups.
  remember (List.filter (unlisted graph) (dict_keys graph)) as order eqn:Horder.
  assert (Hgroup : current_group graph (list_to_set order) order = Some order).
  { apply current_group_all. intros t Ht. split; [by apply elem_of_list_to_set|].
    apply unlisted_resolved; [done|done| |].
    - subst order. apply list_elem_of_In, filter_In in Ht.
      apply list_elem_of_In. tauto.
    - intros n Hn%elem_of_list_to_set. subst order.
      apply list_elem_of_In, filter_In in Hn. tauto. }
  clear Horder. destruct order as [|t rest]; [done|].
  cbn [length groups_loop].
  rewrite decide_False; [|intros Hempty;
    assert (Hin : t ∈ (list_to_set (t :: rest) : gset string)) by set_solver;
    rewrite Hempty in Hin; set_solver].
  rewrite Hgroup.
  assert (Hdone : (list_to_set (t :: rest) : gset string)
                    ∖ list_to_set (t :: rest) = ∅) by set_solver.
  rewrite Hdone. by destruct (length rest).
Qed.

(** X27.  For subtasks that all have a list of dependencies, the plan of
    [_create_execution_plan] orders only the subtasks that no subtask
    lists as a dependency, and puts them all in one group; the subtasks
    on which another depends are in neither. *)
Theorem execution_plan_leaves_out_dependencies
        (list_of_set : gset string -> list string) (subtasks : list AgentTask) :
  with_dependencies subtasks ->
  _create_execution_plan list_of_set subtasks
  = Some (List.filter (unlisted (dependency_graph subtasks))
                      (dict_keys (dependency_graph subtasks)),
          match List.filter (unlisted (dependency_graph subtasks))
                            (dict_keys (dependency_graph subtasks)) with
          | [] => []
          | order => [order]
          end).
Proof.
  intros [Hnd Hsome]%dependency_graph_ok. unfold _create_execution_plan.
  rewrite topological_sort_spec by done.
  by rewrite execution_groups_spec.
Qed.

Lemma execution_plan_leaves_out_dependencies_witness :
  with_dependencies pipeline
  /\ _create_execution_plan elements pipeline
     = Some (["report"%string], [["report"%string]]).
Proof.
  assert (Hdeps : with_dependencies pipeline).
  { intros task Hin. unfold pipeline in Hin.
    repeat (apply elem_of_cons in Hin as [->|Hin]; [by eexists|]).
    by apply not_elem_of_nil in Hin. }
  split; [done|].
  by rewrite (execution_plan_leaves_out_dependencies elements pipeline Hdeps).
Defined.

Lemma topological_sort_returns_unlisted_witness :
  NoDup (dict_keys (dependency_graph pipeline))
  /\ listed_deps (dependency_graph pipeline)
  /\ _topological_sort (dependency_graph pipeline) = Some ["report"%string].
Proof.
  assert (Hnd : NoDup (dict_keys (dependency_graph pipeline))).
  { vm_compute. repeat constructor; set_solver. }
  assert (Hsome : listed_deps (dependency_graph pipeline)).
  { intros item Hin. vm_compute in Hin.
    repeat (apply elem_of_cons in Hin as [->|Hin]; [by eexists|]).
    by apply not_elem_of_nil in Hin. }
  split; [done|]. split; [done|].
  by rewrite (topological_sort_returns_unlisted _ Hnd Hsome).
Defined.

(** ** The allocation of workers *)

Lemma dict_set_absent {V : Type} k (v : V) d :
  k ∉ dict_keys d -> dict_set k v d = d ++ [(k, v)].
Proof.
  induction d as [|[k0 v0] d IH]; cbn; [done|].
  intros [Hne Hin]%not_elem_of_cons.
  destruct (String.eqb_spec k0 k) as [->|_]; [done|]. by rewrite IH.
Qed.

Lemma assign_loop_spec (available : list string) :
  available <> [] ->
  forall subtasks worker_index assignments,
    0 <= worker_index ->
    NoDup (dict_keys assignments ++ map task_id subtasks) ->
    exists assignments',
      assign_loop available subtasks worker_index assignments = Some assignments'
      /\ dict_keys assignments' = dict_keys assignments ++ map task_id subtasks
      /\ (forall k, k ∉ map task_id subtasks ->
            dict_get k assignments' = dict_get k assignments)
      /\ forall i task, subtasks !! i = Some task ->
            dict_get (task_id task) assignments'
            = available !! Z.to_nat ((worker_index + Z.of_nat i)
                                     mod Z.of_nat (length available)).
Proof.
  intros Hne. assert (Hlen : 0 < Z.of_nat (length available)).
  { destruct available; [done|cbn; lia]. }
  induction subtasks as [|subtask rest IH]; intros idx a Hidx Hnd.
  - exists a. cbn [assign_loop map]. rewrite app_nil_r.
    split; [done|]. split; [done|]. split; [done|].
    intros i task Hi. by rewrite lookup_nil in Hi.
  - cbn [assign_loop].
    destruct (lookup_lt_is_Some_2 available
                (Z.to_nat (idx mod Z.of_nat (length available)))) as [w Hw].
    { pose proof (Z.mod_pos_bound idx _ Hlen). lia. }
    rewrite Hw. cbn [map] in Hnd.
    assert (Hk : task_id subtask ∉ dict_keys a).
    { apply NoDup_app in Hnd as (_ & Hdis & _). intros Hin.
      apply (Hdis _ Hin). left. }
    destruct (IH (idx + 1) (dict_set (task_id subtask) w a)) as
      (a' & Ha' & Hkeys & Hother & Hget); [lia| |].
    { rewrite dict_keys_set_absent by done. by rewrite <- (assoc_L (++)). }
    exists a'. split; [done|]. split; [|split].
    + rewrite Hkeys, dict_keys_set_absent by done. by rewrite <- (assoc_L (++)).
    + intros k [Hk1 Hk2]%not_elem_of_cons. rewrite (Hother k Hk2), dict_get_set.
      by rewrite decide_False.
    + intros [|i] task Hi.
      * injection Hi as <-. rewrite Hother.
        -- rewrite dict_get_set, decide_True by done.
           rewrite <- Hw. do 3 f_equal. lia.
        -- apply NoDup_app in Hnd as (_ & _ & Hnd).
           by apply NoDup_cons in Hnd as [? _].
      * rewrite (Hget i task Hi). do 3 f_equal. lia.
Qed.

(** X28.  [_allocate_resources] deals the subtasks to the idle workers in
    turn: with idle workers [available] and subtasks of distinct ids, the
    [i]-th subtask gets the worker at index [i mod len(available)], and
    the assignments are in the order of the subtasks.  Without an idle
    worker nothing is assigned. *)
Theorem allocate_resources_round_robin
        (worker_agents : list (string * WorkerInfo)) (subtasks : list AgentTask) :
  NoDup (map task_id subtasks) ->
  exists assignments,
    _allocate_resources worker_agents subtasks = Some assignments
    /\ (available_workers worker_agents = [] -> assignments = [])
    /\ (available_workers worker_agents <> [] ->
         dict_keys assignments = map task_id subtasks
         /\ forall i task, subtasks !! i = Some task ->
              dict_get (task_id task) assignments
              = available_workers worker_agents
                  !! (i mod length (available_workers worker_agents))%nat).
Proof.
  intros Hnd. unfold _allocate_resources.
  destruct (available_workers worker_agents) as [|w ws] eqn:Hav.
  - exists []. done.
  - destruct (assign_loop_spec (w :: ws) ltac:(done) subtasks 0 [])
      as (a & Ha & Hkeys & _ & Hget); [done|done|].
    exists a. split; [done|]. split; [done|]. intros _. split; [done|].
    intros i task Hi. rewrite (Hget i task Hi). f_equal.
    rewrite Z.add_0_l, <- Nat2Z.inj_mod. apply Nat2Z.id.
Qed.

Lemma allocate_resources_round_robin_witness :
  NoDup (map task_id pipeline)
  /\ exists assignments,
       _allocate_resources crew pipeline = Some assignments
       /\ dict_get "fetch" assignments = Some "w1"%string
       /\ dict_get "parse" assignments = Some "w3"%string
       /\ dict_get "report" assignments = Some "w1"%string.
Proof.
  assert (Hnd : NoDup (map task_id pipeline)).
  { vm_compute. repeat constructor; set_solver. }
  split; [done|].
  destruct (allocate_resources_round_robin crew pipeline Hnd)
    as (a & Ha & _ & Hsome).
  exists a. split; [done|].
  destruct Hsome as [_ Hget]; [done|].
  split; [exact (Hget 0%nat _ eq_refl)|].
  split; [exact (Hget 1%nat _ eq_refl)|exact (Hget 2%nat _ eq_refl)].
Defined.

Lemma find_idle (worker_agents : list (string * WorkerInfo)) :
  match List.find (fun entry => idle (snd entry)) worker_agents with
  | Some entry => entry ∈ worker_agents /\ idle (snd entry) = true
  | None => available_workers worker_agents = []
  end.
Proof.
  unfold available_workers.
  induction worker_agents as [|entry rest IH]; [done|].
  cbn [List.find List.filter]. destruct (idle (snd entry)) eqn:Hidle.
  - split; [left|done].
  - destruct (List.find _ rest); [|done].
    destruct IH as [Hin Hi]. split; [by right|done].
Qed.

(** X29.  [_find_suitable_worker] returns [None] only when no worker is
    idle.  The worker that it returns is idle, and has the required skill
    whenever some idle worker has it. *)
Theorem find_suitable_worker_idle
        (worker_agents : list (string * WorkerInfo)) (skill_requirement : string) :
  match _find_suitable_worker worker_agents skill_requirement with
  | Some worker_id =>
      exists info, (worker_id, info) ∈ worker_agents /\ idle info = true
        /\ ((exists entry, entry ∈ worker_agents /\ idle (snd entry) = true
                          /\ skill_requirement ∈ worker_skills (snd entry)) ->
            skill_requirement ∈ worker_skills info)
  | None => available_workers worker_agents = []
  end.
Proof.
  unfold _find_suitable_worker.
  destruct (List.find _ worker_agents) as [[w info]|] eqn:Hskilled.
  - apply find_some in Hskilled as [Hin [Hidle Hskill]%andb_true_iff].
    cbn [fst snd] in *. exists info. split; [by apply list_elem_of_In|].
    split; [done|]. intros _. by apply bool_decide_eq_true in Hskill.
  - pose proof (find_idle worker_agents) as Hidle.
    destruct (List.find (fun entry => idle (snd entry)) worker_agents)
      as [[w info]|]; [|done].
    destruct Hidle as [Hin Hidle]. cbn [fst snd] in *.
    exists info. split; [done|]. split; [done|].
    intros (entry & Hentry & Hi & Hs).
    pose proof (find_none _ _ Hskilled entry
                  (proj1 (list_elem_of_In _ _) Hentry)) as Hno.
    cbn beta in Hno. rewrite Hi, bool_decide_eq_true_2 in Hno by done.
    discriminate.
Qed.

End PlannerSpec.

(* ===================================================================== *)
(** * The results of an execution                                         *)
(* ===================================================================== *)

Module StepResultsSpec.
Import Dict DictSpec Workflow WorkflowSpec EngineAdmin EngineAdminSpec StepResults.

Lemma add_step_results_executions results : forall e,
  step_executions (add_step_results e results)
  = fold_left (fun d kv => dict_set (fst kv) (snd kv) d) results
              (step_executions e).
Proof.
  unfold add_step_results.
  induction results as [|[id r] results IH]; intros e; [done|].
  cbn [fold_left fst snd]. rewrite IH. unfold add_step_result.
  by destruct (success r).
Qed.

Lemma add_step_results_counters results : forall e,
  completed_steps (add_step_results e results)
  = completed_steps e + count (fun kv => success (snd kv)) results
  /\ failed_steps (add_step_results e results)
     = failed_steps e + count (fun kv => negb (success (snd kv))) results.
Proof.
  unfold add_step_results.
  induction results as [|[id r] results IH]; intros e; cbn [fold_left count fst snd].
  - lia.
  - destruct (IH (add_step_result e id r)) as [-> ->].
    unfold add_step_result. destruct (success r); cbn; lia.
Qed.

Lemma completed_after_set id r (d : list (string * ExecutionResult)) :
  (length (List.filter (fun kv => success (snd kv)) (dict_set id r d))
   <= length (List.filter (fun kv => success (snd kv)) d)
      + if success r then 1 else 0)%nat.
Proof.
  induction d as [|[k v] d IH]; cbn [dict_set List.filter snd].
  - destruct (success r); cbn; lia.
  - destruct (String.eqb k id); cbn [List.filter snd].
    + destruct (success r), (success v); cbn; lia.
    + destruct (success v); cbn; lia.
Qed.

Lemma add_step_results_completed results : forall e,
  Z.of_nat (length (get_completed_step_ids (add_step_results e results)))
  - completed_steps (add_step_results e results)
  <= Z.of_nat (length (get_completed_step_ids e)) - completed_steps e.
Proof.
  unfold add_step_results.
  induction results as [|[id r] results IH]; intros e; cbn [fold_left fst snd].
  - lia.
  - etransitivity; [apply IH|].
    unfold get_completed_step_ids. rewrite !length_map.
    pose proof (completed_after_set id r (step_executions e)) as Hset.
    unfold add_step_result. destruct (success r); cbn; lia.
Qed.

Lemma fold_dict_set_NoDup {V : Type} (l : list (string * V)) : forall d,
  NoDup (dict_keys d) ->
  NoDup (dict_keys (fold_left (fun d kv => dict_set (fst kv) (snd kv) d) l d)).
Proof.
  induction l as [|kv l IH]; intros d Hnd; [done|].
  cbn [fold_left]. apply IH. by apply dict_keys_set_NoDup.
Qed.

(** X30.  After the results [results] have been added to a new execution
    with [add_step_result], [completed_steps] and [failed_steps] count the
    successful and the failed results added, [get_step_result] returns
    the last result added for a step, and [get_completed_step_ids] lists,
    once each, the steps whose last result is a success: never more than
    [completed_steps]. *)
Theorem step_results_counted (context : list (string * option string))
        (results : list (string * ExecutionResult)) :
  let e := add_step_results (new_execution context) results in
  completed_steps e = count (fun kv => success (snd kv)) results
  /\ failed_steps e = count (fun kv => negb (success (snd kv))) results
  /\ (forall id, get_step_result e id = last_assigned id results)
  /\ NoDup (get_completed_step_ids e)
  /\ (forall id, id ∈ get_completed_step_ids e
       <-> exists r, last_assigned id results = Some r /\ success r = true)
  /\ Z.of_nat (length (get_completed_step_ids e)) <= completed_steps e.
Proof.
  intros e.
  destruct (add_step_results_counters results (new_execution context))
    as [Hc Hf].
  pose proof (add_step_results_completed results (new_execution context)) as Hle.
  pose proof (add_step_results_executions results (new_execution context)) as Hex.
  fold e in Hc, Hf, Hle, Hex. cbn in Hc, Hf, Hle, Hex.
  assert (Hget : forall id, get_step_result e id = last_assigned id results).
  { intros id. unfold get_step_result. rewrite Hex, fold_dict_set_get.
    by destruct (last_assigned id results). }
  assert (Hnd : NoDup (dict_keys (step_executions e))).
  { rewrite Hex. apply fold_dict_set_NoDup. constructor. }
  split; [done|]. split; [done|]. split; [done|]. split; [|split; [|lia]].
  - unfold get_completed_step_ids. unfold dict_keys in Hnd.
    revert Hnd. generalize (step_executions e). intros d.
    induction d as [|[k v] d IH]; cbn [map fst List.filter snd]; [constructor|].
    intros [Hk Hnd]%NoDup_cons. destruct (success v); [|by apply IH].
    cbn [map fst]. apply NoDup_cons. split; [|by apply IH].
    intros Hin. apply Hk. apply list_elem_of_fmap in Hin as ([k' v'] & -> & Hin).
    apply list_elem_of_In, filter_In in Hin as [Hin _].
    apply list_elem_of_fmap. exists (k', v'). split; [done|].
    by apply list_elem_of_In.
  - intros id. rewrite <- Hget. unfold get_step_result, get_completed_step_ids.
    split.
    + intros ([k v] & -> & Hin)%list_elem_of_fmap.
      apply list_elem_of_In, filter_In in Hin as [Hin Hok]. cbn [fst snd] in *.
      exists v. split; [|done]. apply dict_get_item; [done|].
      by apply list_elem_of_In.
    + intros (r & Hr & Hok). apply dict_get_item in Hr; [|done].
      apply list_elem_of_fmap. exists (id, r). split; [done|].
      apply list_elem_of_In, filter_In. split; [by apply list_elem_of_In|done].
Qed.

End StepResultsSpec.
